(** * Eudicots toolkit: the phylogenetic-tree engine

    A shallow embedding of the tree-handling scripts of the repository
    and the properties their specification states about them.

    Part I embeds the scripts, each in a module of its own:
    - [04.filter_trees_by_support.py]   (module [FilterBySupport])
    - [05.filter-orders.py]             (module [FilterOrders])
    - [02.wgd_tree_stat.py]             (module [WgdTreeStat])
    - [04.wgt_tree_stat.py]             (module [WgtTreeStat])
    - [06.prune_tree_nodes.py]          (module [PruneTreeNodes])
    together with what they call of Python and its libraries: the regular
    expressions ([Re]), [float] ([PyFloat]), [str.strip] ([PyStr]), and the
    trees of ete3, read only ([Ete3]) and changed in place ([Ete3Obj]).
    Part II holds the notions in which the specification speaks and the
    trees of its scenarios, Part III the properties.

    Numbers that the scripts hold as Python floats (support values, branch
    lengths, ratios) are modelled as exact rationals [Q]: rounding and
    overflow of the binary representation are outside the model. *)

From Stdlib Require Import Ascii String QArith Lqa.
From stdpp Require Import gmap strings list.

Set Warnings "-register-all".

Local Open Scope string_scope.
Local Open Scope list_scope.

(* ===================================================================== *)
(** * Part I: the embedding of the scripts *)
(* ===================================================================== *)

(** ** Python's [re] on the fragment the scripts use

    Both patterns of [04.filter_trees_by_support.py] are flat sequences of
    single characters and greedy repetitions of a character class, with one
    capturing group around one repetition.  [rmatch] is the backtracking
    matcher of such a sequence at the start of a string, longest repetition
    first, and [findall] is [re.findall]: matches are searched left to right,
    a search resumes where the previous match ended, and what is collected is
    the text of the group. *)
Module Re.

(** Character classes, on the ASCII range. *)
Definition in_range (lo hi : nat) (c : ascii) : bool :=
  let n := nat_of_ascii c in (lo <=? n)%nat && (n <=? hi)%nat.

(** [\s]: tab, line feed, vertical tab, form feed, carriage return, the four
    separators 0x1c-0x1f and the space. *)
Definition space (c : ascii) : bool :=
  in_range 9 13 c || in_range 28 31 c || in_range 32 32 c.

(** [\d] *)
Definition digit (c : ascii) : bool := in_range 48 57 c.

Definition is_char (a c : ascii) : bool := bool_decide (a = c).

(** [[\d\.eE+-]] *)
Definition numeric (c : ascii) : bool :=
  digit c || is_char "." c || is_char "e" c || is_char "E" c
  || is_char "+" c || is_char "-" c.

Inductive item : Type :=
  | One (cls : ascii → bool)                  (* one character of the class *)
  | Star (cls : ascii → bool)                 (* cls*, greedy *)
  | GroupPlus (cls : ascii → bool).           (* (cls+), greedy, captured *)

(** Result of a match: number of characters consumed and the group's text. *)
Definition found : Type := nat * string.

(** Greedy repetition followed by the continuation [k]: take one more
    character when the class allows it, and fall back to stopping here when
    the rest of the pattern then fails.  [acc] is the text taken so far, in
    reverse. *)
Fixpoint star (cls : ascii → bool) (k : string → list ascii → option found)
    (s : string) (acc : list ascii) : option found :=
  match s with
  | String c s' =>
      if cls c then
        match star cls k s' (c :: acc) with
        | Some r => Some r
        | None => k s acc
        end
      else k s acc
  | EmptyString => k s acc
  end.

Definition text_of (acc : list ascii) : string := string_of_list_ascii (rev acc).

Fixpoint rmatch (p : list item) (s : string) (n : nat) (grp : string)
    : option found :=
  match p with
  | [] => Some (n, grp)
  | One cls :: p' =>
      match s with
      | String c s' => if cls c then rmatch p' s' (S n) grp else None
      | EmptyString => None
      end
  | Star cls :: p' =>
      star cls (λ s' acc, rmatch p' s' (n + length acc)%nat grp) s []
  | GroupPlus cls :: p' =>
      match s with
      | String c s' =>
          if cls c then
            star cls (λ s'' acc, rmatch p' s'' (n + length acc)%nat (text_of acc))
                 s' [c]
          else None
      | EmptyString => None
      end
  end.

(** [re.findall p s] for a pattern with one group.  [skip] counts the
    characters of [s] that the previous match has consumed. *)
Fixpoint findall_from (p : list item) (skip : nat) (s : string) : list string :=
  match s with
  | EmptyString => []
  | String _ s' =>
      match skip with
      | S k => findall_from p k s'
      | O =>
          match rmatch p s 0 "" with
          | Some (n, grp) => grp :: findall_from p (pred n) s'
          | None => findall_from p 0 s'
          end
      end
  end.

Definition findall (p : list item) (s : string) : list string :=
  findall_from p 0 s.

End Re.

(** ** Python's [float] on a string

    [float(s)] for the strings the patterns can capture (digits, dot, [e],
    [E] and signs): an optional sign, digits with an optional dot and at
    least one digit, an optional exponent.  Anything else raises
    [ValueError], which is [None] here.  The value of [d1..dm.f1..fk e x] is
    kept as the fraction of the digits over [10^k], scaled by the exponent. *)
Module PyFloat.

Definition digit_val (c : ascii) : Z := Z.of_nat (nat_of_ascii c) - 48.

(** Reads a maximal run of digits: its value continuing [acc], how many
    digits were read, and what follows. *)
Fixpoint digits (s : string) (acc : Z) (cnt : nat) : Z * nat * string :=
  match s with
  | String c s' =>
      if Re.digit c then digits s' (10 * acc + digit_val c)%Z (S cnt)
      else (acc, cnt, s)
  | EmptyString => (acc, cnt, s)
  end.

(** An optional sign: [true] for a minus. *)
Definition sign (s : string) : bool * string :=
  match s with
  | String "-" s' => (true, s')
  | String "+" s' => (false, s')
  | _ => (false, s)
  end.

Definition apply_sign (neg : bool) (z : Z) : Z := if neg then (- z)%Z else z.

(** The optional exponent part, up to the end of the string. *)
Definition exponent (s : string) : option Z :=
  match s with
  | EmptyString => Some 0%Z
  | String c s' =>
      if Re.is_char "e" c || Re.is_char "E" c then
        let '(neg, s1) := sign s' in
        let '(x, cnt, s2) := digits s1 0 0 in
        match cnt, s2 with
        | S _, EmptyString => Some (apply_sign neg x)
        | _, _ => None
        end
      else None
  end.

Definition scale (m : Z) (k : nat) (x : Z) : Q :=
  if (0 <=? x)%Z then Qmake (m * 10 ^ x) (Z.to_pos (10 ^ Z.of_nat k))
  else Qmake m (Z.to_pos (10 ^ Z.of_nat k) * Z.to_pos (10 ^ (- x))).

Definition float (s : string) : option Q :=
  let '(neg, s0) := sign s in
  let '(ip, icnt, s1) := digits s0 0 0 in
  let '(m, fcnt, s2) :=
    match s1 with
    | String "." s1' => digits s1' ip 0
    | _ => (ip, O, s1)
    end in
  match (icnt + fcnt)%nat with
  | O => None
  | S _ =>
      match exponent s2 with
      | Some x => Some (scale (apply_sign neg m) fcnt x)
      | None => None
      end
  end.

End PyFloat.

(** ** Python strings *)
Module PyStr.

Fixpoint lstrip (s : string) : string :=
  match s with
  | String c s' => if Re.space c then lstrip s' else s
  | EmptyString => s
  end.

Definition rev_string (s : string) : string :=
  string_of_list_ascii (rev (list_ascii_of_string s)).

(** [s.strip()]: white space removed at both ends. *)
Definition strip (s : string) : string :=
  rev_string (lstrip (rev_string (lstrip s))).

End PyStr.

(** ** [04.filter_trees_by_support.py] *)
Module FilterBySupport.

(** The pattern [\)\s*([\d\.eE+-]+)\s*:] *)
Definition support_pattern : list Re.item :=
  [Re.One (Re.is_char ")"); Re.Star Re.space; Re.GroupPlus Re.numeric;
   Re.Star Re.space; Re.One (Re.is_char ":")].

(** The pattern [\)\s*[\d\.eE+-]+\s*:\s*([\d\.eE+-]+)].  The first
    repetition of the numeric class is not captured; as [Re.item] has no
    uncaptured [+], it is written as one character of the class followed by
    a greedy star, which is what [+] means. *)
Definition branch_pattern : list Re.item :=
  [Re.One (Re.is_char ")"); Re.Star Re.space;
   Re.One Re.numeric; Re.Star Re.numeric;
   Re.Star Re.space; Re.One (Re.is_char ":"); Re.Star Re.space;
   Re.GroupPlus Re.numeric].

(** [[float(s) for s in l]]: the first [ValueError] ends the comprehension
    (and, not being caught anywhere, the script). *)
Fixpoint floats (l : list string) : option (list Q) :=
  match l with
  | [] => Some []
  | s :: l' =>
      match PyFloat.float s with
      | Some q =>
          match floats l' with
          | Some qs => Some (q :: qs)
          | None => None
          end
      | None => None
      end
  end.

Definition extract_supports (newick : string) : option (list Q) :=
  floats (Re.findall support_pattern newick).

Definition extract_branch_lengths (newick : string) : option (list Q) :=
  floats (Re.findall branch_pattern newick).

(** [min(l)] of a non-empty list: the first of the smallest elements. *)
Definition py_min (x : Q) (l : list Q) : Q :=
  fold_left (λ m y, if Qle_bool m y then m else y) l x.

(** The command-line arguments that the loop of [main] reads. *)
Record args : Type := {
  threshold_support : Q;
  threshold_branch : Q
}.

(** What the loop of [main] updates: the two counters and the lines
    written to [fout], oldest first, each without the newline that the
    script adds to it. *)
Record state : Type := {
  n_total : nat;
  n_passed : nat;
  fout : list string
}.

Definition count_line (st : state) : state :=
  {| n_total := S (n_total st); n_passed := n_passed st; fout := fout st |}.

Definition write_line (line : string) (st : state) : state :=
  {| n_total := n_total st; n_passed := S (n_passed st);
     fout := fout st ++ [line] |}.

(** One iteration of [for line in fin].  [None]: a [ValueError] of [float]
    has ended the script. *)
Definition main_body (a : args) (st : state) (line : string) : option state :=
  let line := PyStr.strip line in
  match line with
  | EmptyString => Some st
  | _ =>
      let st := count_line st in
      match extract_supports line with
      | None => None
      | Some supports =>
          match extract_branch_lengths line with
          | None => None
          | Some branches =>
              match supports, branches with
              | s :: ss, b :: bs =>
                  if Qle_bool (threshold_support a) (py_min s ss)
                     && Qle_bool (threshold_branch a) (py_min b bs)
                  then Some (write_line line st)
                  else Some st
              | _, _ => Some st
              end
          end
      end
  end.

Fixpoint main_loop (a : args) (st : state) (fin : list string) : option state :=
  match fin with
  | [] => Some st
  | line :: fin' =>
      match main_body a st line with
      | Some st' => main_loop a st' fin'
      | None => None
      end
  end.

Definition main (a : args) (fin : list string) : option state :=
  main_loop a {| n_total := 0; n_passed := 0; fout := [] |} fin.

End FilterBySupport.

(** ** [05.filter-orders.py] *)
Module FilterOrders.

(** A clade of a [Bio.Phylo] tree: the name is [None] when the Newick text
    gives none. *)
Inductive Clade : Type :=
  | MkClade (name : option string) (branch_length : option Q)
            (clades : list Clade).

Definition name (c : Clade) : option string :=
  match c with MkClade n _ _ => n end.

(** [tree.get_terminals()]: the clades without sub-clades, in preorder. *)
Fixpoint get_terminals (c : Clade) : list Clade :=
  match c with
  | MkClade _ _ [] => [c]
  | MkClade _ _ cs => flat_map get_terminals cs
  end.

(** [{term.name for term in tree.get_terminals()}] *)
Definition terminal_names (tree : Clade) : gset (option string) :=
  list_to_set (map name (get_terminals tree)).

(** [any(node in terminal_names for node in group_nodes)] *)
Definition any_present (names : gset (option string))
    (group_nodes : list string) : bool :=
  existsb (λ node, bool_decide (Some node ∈ names)) group_nodes.

(** The loop [for group_nodes in groups.values()], continuing with
    [groups_covered] groups counted so far. *)
Fixpoint groups_loop (names : gset (option string))
    (required_groups_count : Z) (values : list (list string))
    (groups_covered : Z) : bool :=
  match values with
  | [] => false
  | group_nodes :: values' =>
      let groups_covered :=
        if any_present names group_nodes then (groups_covered + 1)%Z
        else groups_covered in
      if (required_groups_count <=? groups_covered)%Z then true
      else groups_loop names required_groups_count values' groups_covered
  end.

(** [groups] is the dict of [load_groups_from_csv], group label to the ids
    of the group, as the list of its items in the order of the dict; every
    label occurs once. *)
Definition check_tree_for_groups (tree : Clade)
    (groups : list (string * list string)) (required_groups_count : Z) : bool :=
  groups_loop (terminal_names tree) required_groups_count (map snd groups) 0.

(** [filter_trees_by_groups]: the trees kept, and their number. *)
Definition filter_trees_by_groups (trees : list Clade)
    (groups : list (string * list string)) (required_groups_count : Z)
    : list Clade * nat :=
  let valid_trees :=
    filter (λ tree, check_tree_for_groups tree groups required_groups_count = true)
           trees in
  (valid_trees, length valid_trees).

End FilterOrders.

(** ** [ete3] trees that are only read

    The two classifiers parse a tree and never change it, so a node is
    identified with its position: the list of child indices from the node up
    to the root.  The tree is taken as [Tree(t_str, format=1)] has built it;
    of a node the classifiers read the name and the children only. *)
Module Ete3.

Inductive TreeNode : Type :=
  | Node (name : string) (children : list TreeNode).

(** A node of the tree: [[]] is the root and [i :: p] the child number [i]
    of [p], so that [up] is the tail. *)
Definition handle : Type := list nat.

(** [t.iter_leaves()], preorder, each leaf with its name. *)
Fixpoint leaves_from (p : handle) (t : TreeNode) : list (handle * string) :=
  match t with
  | Node nm [] => [(p, nm)]
  | Node nm cs =>
      (fix go (i : nat) (l : list TreeNode) : list (handle * string) :=
         match l with
         | [] => []
         | c :: l' => (leaves_from (i :: p) c ++ go (S i) l')%list
         end) 0%nat cs
  end.

Definition iter_leaves (t : TreeNode) : list (handle * string) :=
  leaves_from [] t.

(** The nodes met by [while current: ...; current = current.up] from [p]. *)
Fixpoint up_chain (p : handle) : list handle :=
  match p with
  | [] => [[]]
  | _ :: p' => p :: up_chain p'
  end.

(** [n2leaves[q]] of [get_cached_content]: the leaves below node [q]. *)
Definition n2leaves (t : TreeNode) (q : handle) : list (handle * string) :=
  filter (λ l, q ∈ up_chain l.1) (iter_leaves t).

(** The search of [get_common_ancestor] over a list of nodes: the first
    node on the way up from the first target that is on the way up from
    each target.  [None] is [TreeError("Nodes are not connected!")]. *)
Definition common_of (targets : list handle) : option handle :=
  match targets with
  | [] => None
  | ref_node :: _ =>
      find (λ n, forallb (λ m, bool_decide (n ∈ up_chain m)) targets)
           (up_chain ref_node)
  end.

(** [self.get_common_ancestor(targets)], [self] being the root: one target
    alone is paired with [self]. *)
Definition get_common_ancestor (targets : list handle) : option handle :=
  match targets with
  | [n] => if bool_decide (n = []) then Some [] else common_of [n; []]
  | _ => common_of targets
  end.

Inductive error : Type := ValueError | TreeError.

(** [t.check_monophyly(values=values, target_attr="name")[0]] *)
Definition check_monophyly (t : TreeNode) (values : list string)
    : error + bool :=
  let targets := filter (λ l, l.2 ∈ values) (n2leaves t []) in
  if bool_decide (Forall (λ v, v ∈ map snd targets) values) then
    match get_common_ancestor (map fst targets) with
    | None => inl TreeError
    | Some common =>
        let foreign_leaves := filter (λ l, l.2 ∉ values) (n2leaves t common) in
        inr (bool_decide (foreign_leaves = []))
    end
  else inl ValueError.

(** [set(l.name for l in t.iter_leaves())] *)
Definition leaf_names (t : TreeNode) : gset string :=
  list_to_set (map snd (iter_leaves t)).

End Ete3.

(** ** [02.wgd_tree_stat.py] *)
Module WgdTreeStat.
Import Ete3.

Record counters : Type := {
  total : nat;
  independent : nat;
  shared : nat;
  uncertain : nat
}.

Definition zero : counters :=
  {| total := 0; independent := 0; shared := 0; uncertain := 0 |}.

Definition add_total (c : counters) : counters :=
  {| total := S (total c); independent := independent c;
     shared := shared c; uncertain := uncertain c |}.
Definition add_independent (c : counters) : counters :=
  {| total := total c; independent := S (independent c);
     shared := shared c; uncertain := uncertain c |}.
Definition add_shared (c : counters) : counters :=
  {| total := total c; independent := independent c;
     shared := S (shared c); uncertain := uncertain c |}.
Definition add_uncertain (c : counters) : counters :=
  {| total := total c; independent := independent c;
     shared := shared c; uncertain := S (uncertain c) |}.

(** One iteration of [for t_str in trees].  [parsed] is what
    [Tree(t_str, format=1)] gives, [None] when it raises.  Every exception
    raised inside the [try] ends the iteration with the counters as they
    are at that point. *)
Definition tree_body (A B : gset string) (c : counters)
    (parsed : option TreeNode) : counters :=
  match parsed with
  | None => c
  | Some t =>
      let leaves := leaf_names t in
      let a_here := elements (A ∩ leaves) in
      let b_here := elements (B ∩ leaves) in
      if (length a_here <? 2)%nat || (length b_here <? 2)%nat then c
      else
        let c := add_total c in
        match check_monophyly t a_here with
        | inl _ => c
        | inr monoA =>
            match check_monophyly t b_here with
            | inl _ => c
            | inr monoB =>
                if monoA && monoB then add_independent c
                else if negb monoA && negb monoB then add_shared c
                else add_uncertain c
            end
        end
  end.

(** The counters of one file after the loop over its trees. *)
Definition count_file (A B : gset string) (trees : list (option TreeNode))
    : counters :=
  fold_left (tree_body A B) trees zero.

(** A line of [WGD_support_summary.txt]; the two ratios before they are
    printed with four decimals. *)
Record row : Type := {
  File : string;
  Total : nat;
  Independent : nat;
  Shared : nat;
  Uncertain : nat;
  Ind_Ratio : Q;
  Shared_Ratio : Q
}.

Definition ratio (k n : nat) : Q := Z.of_nat k # Pos.of_nat n.

(** [if total > 0: ... out.write(...)] *)
Definition write_row (nwk_file : string) (c : counters) : list row :=
  if (0 <? total c)%nat then
    [{| File := nwk_file; Total := total c; Independent := independent c;
        Shared := shared c; Uncertain := uncertain c;
        Ind_Ratio := ratio (independent c) (total c);
        Shared_Ratio := ratio (shared c) (total c) |}]
  else [].

(** The loop [for nwk_file in glob.glob("*.nwk")]: the rows written after
    the header. *)
Definition summary (A B : gset string)
    (files : list (string * list (option TreeNode))) : list row :=
  flat_map (λ f, write_row f.1 (count_file A B f.2)) files.

End WgdTreeStat.

(** ** [04.wgt_tree_stat.py] *)
Module WgtTreeStat.
Import Ete3.

Record counters : Type := {
  total : nat;
  support_shared : nat;
  support_non_shared : nat
}.

Definition zero : counters :=
  {| total := 0; support_shared := 0; support_non_shared := 0 |}.

Definition add_total (c : counters) : counters :=
  {| total := S (total c); support_shared := support_shared c;
     support_non_shared := support_non_shared c |}.
Definition add_shared (c : counters) : counters :=
  {| total := total c; support_shared := S (support_shared c);
     support_non_shared := support_non_shared c |}.
Definition add_non_shared (c : counters) : counters :=
  {| total := total c; support_shared := support_shared c;
     support_non_shared := S (support_non_shared c) |}.

(** [t.check_monophyly(...)[0] if len(here) > 1 else True]; the call is
    outside every [try], an exception of it ends the script. *)
Definition mono (t : TreeNode) (here : list string) : error + bool :=
  if (1 <? length here)%nat then check_monophyly t here else inr true.

(** One iteration of [for t_str in trees]; [inl]: the script has ended
    with an exception. *)
Definition tree_body (A B : gset string) (c : counters)
    (parsed : option TreeNode) : error + counters :=
  match parsed with
  | None => inr c
  | Some t =>
      let c := add_total c in
      let leaves := leaf_names t in
      let a_here := elements (A ∩ leaves) in
      let b_here := elements (B ∩ leaves) in
      match mono t a_here with
      | inl e => inl e
      | inr monoA =>
          match mono t b_here with
          | inl e => inl e
          | inr monoB =>
              if monoA || monoB then inr (add_non_shared c)
              else inr (add_shared c)
          end
      end
  end.

Fixpoint count_from (A B : gset string) (c : counters)
    (trees : list (option TreeNode)) : error + counters :=
  match trees with
  | [] => inr c
  | parsed :: trees' =>
      match tree_body A B c parsed with
      | inl e => inl e
      | inr c' => count_from A B c' trees'
      end
  end.

Definition count_file (A B : gset string) (trees : list (option TreeNode))
    : error + counters :=
  count_from A B zero trees.

(** A line of [WGT_support_summary.txt]. *)
Record row : Type := {
  File : string;
  Total_Trees : nat;
  NonShared_Count : nat;
  NonShared_Ratio : Q;
  Shared_Count : nat;
  Shared_Ratio : Q
}.

Definition ratio (k n : nat) : Q := Z.of_nat k # Pos.of_nat n.

Definition write_row (nwk_file : string) (c : counters) : row :=
  let '(ratio_non_shared, ratio_shared) :=
    if (0 <? total c)%nat then
      (ratio (support_non_shared c) (total c), ratio (support_shared c) (total c))
    else (0%Q, 0%Q) in
  {| File := nwk_file; Total_Trees := total c;
     NonShared_Count := support_non_shared c;
     NonShared_Ratio := ratio_non_shared;
     Shared_Count := support_shared c;
     Shared_Ratio := ratio_shared |}.

(** The loop over the files: the rows written so far, and the exception
    that has ended the script if there is one. *)
Fixpoint summary_from (A B : gset string) (out : list row)
    (files : list (string * list (option TreeNode))) : error + list row :=
  match files with
  | [] => inr out
  | f :: files' =>
      match count_file A B f.2 with
      | inl e => inl e
      | inr c => summary_from A B (out ++ [write_row f.1 c]) files'
      end
  end.

Definition summary (A B : gset string)
    (files : list (string * list (option TreeNode))) : error + list row :=
  summary_from A B [] files.

End WgtTreeStat.

(** ** [ete3] trees that are changed in place

    [06.prune_tree_nodes.py] moves and deletes nodes of the tree it has
    parsed, and keeps references to nodes across these changes.  A node is
    therefore an object in a store: [ref] is its identity, and the store
    maps it to its attributes, with [up] and [children] holding references. *)
Module Ete3Obj.

Definition ref : Type := nat.

Record TreeNode : Type := {
  name : string;
  dist : Q;
  up : option ref;
  children : list ref
}.

Definition set_up (u : option ref) (n : TreeNode) : TreeNode :=
  {| name := name n; dist := dist n; up := u; children := children n |}.
Definition set_dist (d : Q) (n : TreeNode) : TreeNode :=
  {| name := name n; dist := d; up := up n; children := children n |}.
Definition set_children (l : list ref) (n : TreeNode) : TreeNode :=
  {| name := name n; dist := dist n; up := up n; children := l |}.

(** In every operation [None] stands for an exception ([ValueError] of
    [list.remove], [TreeError] of [remove_child]) or for a reference that
    the store does not hold; the script catches no exception. *)

(** [l.remove(x)]: the first occurrence goes, [ValueError] without one. *)
Fixpoint list_remove (x : ref) (l : list ref) : option (list ref) :=
  match l with
  | [] => None
  | y :: l' =>
      if bool_decide (y = x) then Some l'
      else match list_remove x l' with
           | Some r => Some (y :: r)
           | None => None
           end
  end.

(** [x.detach()] *)
Definition detach (h : gmap ref TreeNode) (x : ref) : option (gmap ref TreeNode) :=
  n ← h !! x;
  match up n with
  | None => Some h
  | Some p =>
      pn ← h !! p;
      l ← list_remove x (children pn);
      let h := <[p := set_children l pn]> h in
      n ← h !! x;
      Some (<[x := set_up None n]> h)
  end.

(** [p.add_child(child, dist=d)]; [d] is [None] when no [dist] is passed. *)
Definition add_child (h : gmap ref TreeNode) (p child : ref) (d : option Q)
    : option (gmap ref TreeNode) :=
  cn ← h !! child;
  let h := match d with
           | Some q => <[child := set_dist q cn]> h
           | None => h
           end in
  pn ← h !! p;
  let h := <[p := set_children (children pn ++ [child]) pn]> h in
  cn ← h !! child;
  Some (<[child := set_up (Some p) cn]> h).

(** [p.remove_child(child)] *)
Definition remove_child (h : gmap ref TreeNode) (p child : ref)
    : option (gmap ref TreeNode) :=
  pn ← h !! p;
  l ← list_remove child (children pn);
  let h := <[p := set_children l pn]> h in
  cn ← h !! child;
  Some (<[child := set_up None cn]> h).

(** [for ch in chs: p.add_child(ch)] *)
Fixpoint add_children (h : gmap ref TreeNode) (p : ref) (chs : list ref)
    : option (gmap ref TreeNode) :=
  match chs with
  | [] => Some h
  | ch :: chs' => h' ← add_child h p ch None; add_children h' p chs'
  end.

(** The first half of [x.delete(...)]: with a parent, the children of [x]
    go to the parent and [x] leaves it.  Gives the parent back. *)
Definition delete_unlink (h : gmap ref TreeNode) (x : ref)
    : option (gmap ref TreeNode * option ref) :=
  n ← h !! x;
  match up n with
  | None => Some (h, None)
  | Some parent =>
      h ← add_children h parent (children n);
      h ← remove_child h parent x;
      Some (h, Some parent)
  end.

(** [x.delete(prevent_nondicotomic=b)].  The call on the parent passes
    [prevent_nondicotomic=False], which makes it its first half. *)
Definition delete (h : gmap ref TreeNode) (x : ref)
    (prevent_nondicotomic : bool) : option (gmap ref TreeNode) :=
  r ← delete_unlink h x;
  match r.2 with
  | None => Some r.1
  | Some parent =>
      pn ← r.1 !! parent;
      if prevent_nondicotomic && (length (children pn) <? 2)%nat
      then r' ← delete_unlink r.1 parent; Some r'.1
      else Some r.1
  end.

(** [x.get_sisters()] *)
Definition get_sisters (h : gmap ref TreeNode) (x : ref) : option (list ref) :=
  n ← h !! x;
  match up n with
  | None => Some []
  | Some p => pn ← h !! p; Some (filter (λ ch, ch ≠ x) (children pn))
  end.

(** [t.traverse()], level order: the loop over the queue [tovisit].
    [fuel] bounds the number of iterations; [None] also when it is used
    up. *)
Fixpoint levelorder (fuel : nat) (h : gmap ref TreeNode) (tovisit : list ref)
    : option (list ref) :=
  match tovisit with
  | [] => Some []
  | node :: rest =>
      match fuel with
      | O => None
      | S fuel' =>
          n ← h !! node;
          r ← levelorder fuel' h (rest ++ children n);
          Some (node :: r)
      end
  end.

Definition has_name (h : gmap ref TreeNode) (nm : string) (x : ref) : bool :=
  match h !! x with
  | Some n => bool_decide (name n = nm)
  | None => false
  end.

(** [t.search_nodes(name=nm)] *)
Definition search_nodes (fuel : nat) (h : gmap ref TreeNode) (t : ref)
    (nm : string) : option (list ref) :=
  l ← levelorder fuel h [t];
  Some (filter (λ x, has_name h nm x = true) l).

End Ete3Obj.

(** ** [06.prune_tree_nodes.py] *)
Module PruneTreeNodes.
Import Ete3Obj.

(** What the loops work on: the store and the variable [t]. *)
Definition state : Type := gmap ref TreeNode * ref.

(** The body of [for node in nodes]. *)
Definition node_body (st : state) (node : ref) : option state :=
  n ← st.1 !! node;
  match up n with
  | None => Some st
  | Some parent =>
      siblings ← get_sisters st.1 node;
      st ← match siblings with
           | [sibling] =>
               pn ← st.1 !! parent;
               match up pn with
               | Some grandparent =>
                   h ← detach st.1 sibling;
                   pn ← h !! parent;
                   sn ← h !! sibling;
                   h ← add_child h grandparent sibling
                         (Some (dist pn + dist sn)%Q);
                   Some (h, st.2)
               | None =>
                   h ← detach st.1 sibling;
                   Some (h, sibling)
               end
           | _ => Some st
           end;
      h ← delete st.1 node true;
      Some (h, st.2)
  end.

Fixpoint nodes_loop (st : state) (nodes : list ref) : option state :=
  match nodes with
  | [] => Some st
  | node :: nodes' => st' ← node_body st node; nodes_loop st' nodes'
  end.

(** The body of [for node_name in nodes_to_remove]. *)
Definition name_body (fuel : nat) (st : state) (node_name : string)
    : option state :=
  nodes ← search_nodes fuel st.1 st.2 node_name;
  nodes_loop st nodes.

(** The loop over [nodes_to_remove], in the order in which the set is
    iterated. *)
Fixpoint prune (fuel : nat) (st : state) (nodes_to_remove : list string)
    : option state :=
  match nodes_to_remove with
  | [] => Some st
  | node_name :: rest => st' ← name_body fuel st node_name; prune fuel st' rest
  end.

End PruneTreeNodes.

(** ** Reading the trees of a file

    [02.wgd_tree_stat.py] and [04.wgt_tree_stat.py] read a file as one
    text and cut it at the semicolons. *)
Module NwkFile.

(** [s.endswith(c)] for a text [c] of one character. *)
Fixpoint endswith (s : string) (c : ascii) : bool :=
  match s with
  | EmptyString => false
  | String a EmptyString => bool_decide (a = c)
  | String _ s' => endswith s' c
  end.

(** [s.split(sep)] for a separator of one character: the pieces between
    the separators, of which there is always at least one. *)
Fixpoint split (s : string) (sep : ascii) : list string :=
  match s with
  | EmptyString => [EmptyString]
  | String a s' =>
      if bool_decide (a = sep) then EmptyString :: split s' sep
      else match split s' sep with
           | x :: xs => String a x :: xs
           | [] => [String a EmptyString]
           end
  end.

(** The list [trees] that the two scripts build from the text of a
    file. *)
Definition trees (text : string) : list string :=
  let nwk := PyStr.strip text in
  let nwk := if endswith nwk ";" then nwk else (nwk ++ ";")%string in
  map (λ x, (PyStr.strip x ++ ";")%string)
      (filter (λ x, PyStr.strip x ≠ "") (split nwk ";")).

End NwkFile.

(* ===================================================================== *)
(** * Part II: notions of the specification and its scenarios *)
(* ===================================================================== *)

Section SupportFilterNotions.
Import FilterBySupport.

(** The condition of the specification on the two extracted sequences. *)
Definition passes (a : args) (supports branches : list Q) : Prop :=
  supports ≠ [] ∧ branches ≠ []
  ∧ Forall (λ x, (threshold_support a <= x)%Q) supports
  ∧ Forall (λ x, (threshold_branch a <= x)%Q) branches.

(** The tree of the specification's scenario. *)
Definition scenario_line : string :=
  "((A:0.1,B:0.2)0.95:0.05,(C:0.15,D:0.18)0.88:0.03)1.0:0.0;".

Definition scenario_args : args :=
  {| threshold_support := 0.9; threshold_branch := 0.0 |}.

Definition start : state := {| n_total := 0; n_passed := 0; fout := [] |}.

End SupportFilterNotions.

Section GroupCoverageNotions.
Import FilterOrders.

(** The number of groups of the dict with at least one of their ids among
    the names of the tree's terminals. *)
Definition groups_present (tree : Clade)
    (groups : list (string * list string)) : Z :=
  Z.of_nat (length (filter (λ ids, any_present (terminal_names tree) ids = true)
                           (map snd groups))).

Definition count_present (names : gset (option string))
    (values : list (list string)) : Z :=
  Z.of_nat (length (filter (λ ids, any_present names ids = true) values)).

End GroupCoverageNotions.

Section ClassifierNotions.
Import Ete3.

(** The names of [S] that the tree has form a clade: some node has as
    its leaves exactly the leaves with a name in [S]. *)
Definition monophyletic (t : TreeNode) (S : gset string) : Prop :=
  ∃ q : handle, ∀ l, l ∈ iter_leaves t → (q ∈ up_chain l.1 ↔ l.2 ∈ S).

Definition leaf (nm : string) : TreeNode := Node nm [].

(** [((1,2),(3,4));] *)
Definition tree_12_34 : TreeNode :=
  Node "" [Node "" [leaf "1"; leaf "2"]; Node "" [leaf "3"; leaf "4"]].

(** [((1,3),(2,4));] *)
Definition tree_13_24 : TreeNode :=
  Node "" [Node "" [leaf "1"; leaf "3"]; Node "" [leaf "2"; leaf "4"]].

(** [((1,2,3),4);] *)
Definition tree_123_4 : TreeNode :=
  Node "" [Node "" [leaf "1"; leaf "2"; leaf "3"]; leaf "4"].

(** [((1,2,3),5);] *)
Definition tree_123_5 : TreeNode :=
  Node "" [Node "" [leaf "1"; leaf "2"; leaf "3"]; leaf "5"].

Definition set_12 : gset string := {["1"; "2"]}.

Definition set_34 : gset string := {["3"; "4"]}.

(** A tree that the WGD loop does not count: its text does not parse, or
    fewer than two names of one of the sets are among its leaves. *)
Definition not_counted (A B : gset string) (parsed : option TreeNode) : Prop :=
  match parsed with
  | None => True
  | Some t =>
      (size (A ∩ leaf_names t) < 2 ∨ size (B ∩ leaf_names t) < 2)%nat
  end.

(** The row that the WGT script writes for a file. *)
Definition wgt_row_of (A B : gset string)
    (f : string * list (option TreeNode)) (r : WgtTreeStat.row) : Prop :=
  ∃ c, WgtTreeStat.count_file A B f.2 = inr c
       ∧ r = WgtTreeStat.write_row f.1 c.

Definition all_skipped_file : list (option TreeNode) :=
  [None; Some tree_123_5; None].

End ClassifierNotions.

Section WgdNotions.
Import Ete3 WgdTreeStat.

Definition partitioned (c : counters) : Prop :=
  (independent c + shared c + uncertain c = total c)%nat.

End WgdNotions.

Section WgtNotions.
Import Ete3 WgtTreeStat.

Definition wgt_partitioned (c : counters) : Prop :=
  (support_non_shared c + support_shared c = total c)%nat.

End WgtNotions.

Section StoredTreeNotions.
Import Ete3Obj PruneTreeNodes.

(** [z] is in the tree below [x]: [x] itself, or a child of a node that
    is. *)
Inductive reach (h : gmap ref TreeNode) (x : ref) : ref → Prop :=
  | reach_refl : reach h x x
  | reach_step y n z :
      reach h x y → h !! y = Some n → z ∈ children n → reach h x z.

(** The way up from [x] to [a], and the sum [q] of the branch lengths on
    it. *)
Inductive up_path (h : gmap ref TreeNode) (a : ref) : ref → Q → Prop :=
  | up_path_here : up_path h a a 0%Q
  | up_path_step x n p q :
      x ≠ a → h !! x = Some n → up n = Some p → up_path h a p q →
      up_path h a x (q + dist n)%Q.

(** The shape of a finite tree. *)
Inductive shape : Type :=
  | Shape (kids : list shape).

Fixpoint shape_size (T : shape) : nat :=
  match T with
  | Shape kids => S (list_sum (map shape_size kids))
  end.

Definition forest_size (F : list shape) : nat := list_sum (map shape_size F).

(** The store holds at [x] a tree of shape [T]. *)
Fixpoint stored (h : gmap ref TreeNode) (x : ref) (T : shape) {struct T}
    : Prop :=
  match T with
  | Shape kids =>
      ∃ n, h !! x = Some n
           ∧ (fix all (cs : list ref) (ks : list shape) {struct ks} : Prop :=
                match cs, ks with
                | [], [] => True
                | c :: cs', k :: ks' => stored h c k ∧ all cs' ks'
                | _, _ => False
                end) (children n) kids
  end.

(** The name of [x] when it is a leaf. *)
Definition leaf_name_at (h : gmap ref TreeNode) (x : ref) : option string :=
  match h !! x with
  | Some n => if bool_decide (children n = []) then Some (name n) else None
  | None => None
  end.

(** The names of the leaves of the tree, in the order of the traversal. *)
Definition leaf_names_of (fuel : nat) (st : state) : option (list string) :=
  match levelorder fuel (fst st) [snd st] with
  | Some l => Some (omap (leaf_name_at (fst st)) l)
  | None => None
  end.

Definition dist_at (h : gmap ref TreeNode) (x : ref) : option Q :=
  match h !! x with
  | Some n => Some (dist n)
  | None => None
  end.

(** The sum of the branch lengths of the tree. *)
Definition total_dist (fuel : nat) (st : state) : option Q :=
  match levelorder fuel (fst st) [snd st] with
  | Some l => Some (fold_right Qplus 0%Q (omap (dist_at (fst st)) l))
  | None => None
  end.

(** *** Stores that hold trees

    Every object of the store is in the list of children of the node that
    its [up] names and of no other, no list of children names an object
    twice, and [up] leads to a node one level higher, [depth] giving the
    levels. *)
Definition node_ok (h : gmap ref TreeNode) (depth : ref → nat)
    (x : ref) (n : TreeNode) : Prop :=
  NoDup (children n)
  ∧ Forall (λ c, (up <$> h !! c) = Some (Some x)) (children n)
  ∧ match up n with
    | None => True
    | Some p =>
        x ∈ default [] (children <$> h !! p) ∧ depth x = S (depth p)
    end.

Definition wf_store (h : gmap ref TreeNode) (depth : ref → nat) : Prop :=
  map_Forall (node_ok h depth) h.

(** The store once the sibling of [node] hangs below the grandparent:
    [pn], [sn] and [gn] are the parent, the sibling and the grandparent as
    the store [h] has them before. *)
Definition reconnected (h : gmap ref TreeNode)
    (node parent sibling grandparent : ref) (pn sn gn : TreeNode)
    : gmap ref TreeNode :=
  <[sibling := set_up (Some grandparent)
                 (set_dist (dist pn + dist sn) (set_up None sn))]>
    (<[grandparent := set_children (children gn ++ [sibling]) gn]>
       (<[sibling := set_up None sn]>
          (<[parent := set_children [node] pn]> h))).

Definition obj (nm : string) (d : Q) (u : option ref) (cs : list ref)
    : TreeNode :=
  {| name := nm; dist := d; up := u; children := cs |}.

(** The tree [((A:0.1,B:0.2)n1:0.3,(C:0.4,D:0.5)n2:0.6)root;] as
    [Tree(tree_str, format=1)] builds it, the nodes numbered in the order of
    their creation: the root is 0, [n1] is 1, [A] 2, [B] 3, [n2] 4, [C] 5
    and [D] 6.  The root has the distance 0 that ete3 gives it. *)
Definition scenario_store : gmap ref TreeNode :=
  list_to_map
    [(0%nat, obj "root" 0 None [1; 4]%nat);
     (1%nat, obj "n1" 0.3 (Some 0%nat) [2; 3]%nat);
     (2%nat, obj "A" 0.1 (Some 1%nat) []);
     (3%nat, obj "B" 0.2 (Some 1%nat) []);
     (4%nat, obj "n2" 0.6 (Some 0%nat) [5; 6]%nat);
     (5%nat, obj "C" 0.4 (Some 4%nat) []);
     (6%nat, obj "D" 0.5 (Some 4%nat) [])].

Definition scenario_shape : shape :=
  Shape [Shape [Shape []; Shape []]; Shape [Shape []; Shape []]].

(** The store after pruning [{B}]: [A] hangs below the root, after [n2],
    with the branch length 0.3 + 0.1; [n1] and [B] are still objects, cut
    off from the tree. *)
Definition scenario_pruned : gmap ref TreeNode :=
  list_to_map
    [(0%nat, obj "root" 0 None [4; 2]%nat);
     (1%nat, obj "n1" 0.3 None []);
     (2%nat, obj "A" (0.3 + 0.1) (Some 0%nat) []);
     (3%nat, obj "B" 0.2 None []);
     (4%nat, obj "n2" 0.6 (Some 0%nat) [5; 6]%nat);
     (5%nat, obj "C" 0.4 (Some 4%nat) []);
     (6%nat, obj "D" 0.5 (Some 4%nat) [])].

(** The levels of the nodes of [scenario_store]. *)
Definition scenario_depth (x : ref) : nat :=
  match x with
  | 0 => 0
  | 1 | 4 => 1
  | _ => 2
  end%nat.

(** The tree [((A:1,(X:1,Y:1)B:2)n1:3,C:4)root;]: the root is 0, [n1] is
    1, [A] 2, [B] 3, [X] 4, [Y] 5 and [C] 6. *)
Definition internal_store : gmap ref TreeNode :=
  list_to_map
    [(0%nat, obj "root" 0 None [1; 6]%nat);
     (1%nat, obj "n1" 3 (Some 0%nat) [2; 3]%nat);
     (2%nat, obj "A" 1 (Some 1%nat) []);
     (3%nat, obj "B" 2 (Some 1%nat) [4; 5]%nat);
     (4%nat, obj "X" 1 (Some 3%nat) []);
     (5%nat, obj "Y" 1 (Some 3%nat) []);
     (6%nat, obj "C" 4 (Some 0%nat) [])].

(** The store after the removal of [B]: [n1] has taken [X] and [Y] and is
    still a child of the root. *)
Definition internal_pruned : gmap ref TreeNode :=
  list_to_map
    [(0%nat, obj "root" 0 None [1; 6; 2]%nat);
     (1%nat, obj "n1" 3 (Some 0%nat) [4; 5]%nat);
     (2%nat, obj "A" (3 + 1) (Some 0%nat) []);
     (3%nat, obj "B" 2 None [4; 5]%nat);
     (4%nat, obj "X" 1 (Some 1%nat) []);
     (5%nat, obj "Y" 1 (Some 1%nat) []);
     (6%nat, obj "C" 4 (Some 0%nat) [])].

End StoredTreeNotions.

Section FurtherStoreNotions.
Import Ete3Obj PruneTreeNodes.

(** The two stores hold the same objects under the same names. *)
Definition same_names (h h' : gmap ref TreeNode) : Prop :=
  ∀ x, name <$> (h' !! x) = name <$> (h !! x).

End FurtherStoreNotions.

Section SupportRunNotions.
Import FilterBySupport.

(** The lines that the loop of [main] counts. *)
Definition non_blank (line : string) : Prop := PyStr.strip line ≠ "".

(** The lines on which one of the two extractions raises [ValueError]. *)
Definition unreadable (line : string) : Prop :=
  extract_supports (PyStr.strip line) = None
  ∨ extract_branch_lengths (PyStr.strip line) = None.

(** Thresholds that ask no more than [a] does. *)
Definition weaker (a' a : args) : Prop :=
  (threshold_support a' <= threshold_support a)%Q
  ∧ (threshold_branch a' <= threshold_branch a)%Q.

End SupportRunNotions.

Section FurtherPruneScenarios.
Import Ete3Obj PruneTreeNodes.

(** The tree [(A:1,B:2,C:3)root;]: the root is 0, [A] is 1, [B] 2 and
    [C] 3. *)
Definition trifurcation_store : gmap ref TreeNode :=
  list_to_map
    [(0%nat, obj "root" 0 None [1; 2; 3]%nat);
     (1%nat, obj "A" 1 (Some 0%nat) []);
     (2%nat, obj "B" 2 (Some 0%nat) []);
     (3%nat, obj "C" 3 (Some 0%nat) [])].

Definition trifurcation_depth (x : ref) : nat :=
  match x with
  | 0 => 0
  | _ => 1
  end%nat.

(** The tree [((X:1,Y:2)A:3,B:4)root;]: the root is 0, [A] is 1, [X] 2,
    [Y] 3 and [B] 4. *)
Definition cherry_store : gmap ref TreeNode :=
  list_to_map
    [(0%nat, obj "root" 0 None [1; 4]%nat);
     (1%nat, obj "A" 3 (Some 0%nat) [2; 3]%nat);
     (2%nat, obj "X" 1 (Some 1%nat) []);
     (3%nat, obj "Y" 2 (Some 1%nat) []);
     (4%nat, obj "B" 4 (Some 0%nat) [])].

Definition cherry_depth (x : ref) : nat :=
  match x with
  | 0 => 0
  | 1 | 4 => 1
  | _ => 2
  end%nat.

End FurtherPruneScenarios.

Section NwkFileNotions.

(** The characters of a text. *)
Definition chars (s : string) : list ascii := list_ascii_of_string s.

Definition semicolon : ascii := ";".

Definition is_space (c : ascii) : Prop := Re.space c = true.

(** [lstrip] and [strip] on the characters. *)
Fixpoint drop_space (l : list ascii) : list ascii :=
  match l with
  | c :: l' => if Re.space c then drop_space l' else l
  | [] => []
  end.

Definition strip_list (l : list ascii) : list ascii :=
  rev (drop_space (rev (drop_space l))).

(** No white space at the front. *)
Definition starts_clean (l : list ascii) : Prop :=
  match l with
  | c :: _ => Re.space c = false
  | [] => True
  end.

(** The body of a statement: not empty, without a semicolon and without
    white space at its ends. *)
Definition clean_body (b : string) : Prop :=
  b ≠ "" ∧ (semicolon ∉ chars b) ∧ PyStr.strip b = b.

(** White space, or the semicolon. *)
Definition blank_char (c : ascii) : Prop := is_space c ∨ c = semicolon.

(** The text of a file: statements, each after some white space and
    closed by a semicolon. *)
Fixpoint spaced_text (items : list (string * string)) : string :=
  match items with
  | [] => ""
  | it :: items' =>
      (it.1 ++ it.2 ++ String semicolon (spaced_text items'))%string
  end.

Definition newline : string := String "010" EmptyString.

End NwkFileNotions.

(* ===================================================================== *)
(** * Part III: the properties *)
(* ===================================================================== *)

(** ** The support and branch-length filter *)
Section SupportFilter.
Import FilterBySupport.

(** The smallest element is above a bound exactly when every element is. *)
Lemma py_min_ge (t : Q) (l : list Q) (x : Q) :
  Qle_bool t (py_min x l) = true ↔ Forall (λ y, (t <= y)%Q) (x :: l).
Proof.
  revert x. induction l as [|y l IH]; intros x; simpl.
  - rewrite Qle_bool_iff. split; [intros H; by repeat constructor|].
    by inversion 1.
  - rewrite IH. destruct (Qle_bool x y) eqn:E.
    + apply Qle_bool_iff in E. split.
      * inversion 1; subst. repeat constructor; [done|lra|done].
      * inversion 1 as [|? ? ? Hl]; subst. inversion Hl; subst.
        by constructor.
    + assert (y < x)%Q.
      { apply Qnot_le_lt. intros Hle. apply Qle_bool_iff in Hle. congruence. }
      split.
      * inversion 1; subst. repeat constructor; [lra|done|done].
      * inversion 1 as [|? ? ? Hl]; subst. inversion Hl; subst.
        by constructor.
Qed.

Lemma strip_empty_extract line :
  PyStr.strip line = "" →
  extract_supports (PyStr.strip line) = Some []
  ∧ extract_branch_lengths (PyStr.strip line) = Some [].
Proof. intros ->. done. Qed.

(** C5.  A line of the input whose support values and internal branch
    lengths are extracted as [supports] and [branches] is written to the
    output (and counted as passed) if and only if both sequences are
    non-empty, every support is at least the support threshold and every
    branch length at least the branch threshold; otherwise nothing is
    written.  In particular a line without internal annotations, for which
    one of the sequences is empty, is never written. *)
Theorem filter_accepts_iff (a : args) (st : state) (line : string)
    (supports branches : list Q) :
  extract_supports (PyStr.strip line) = Some supports →
  extract_branch_lengths (PyStr.strip line) = Some branches →
  ∃ st',
    main_body a st line = Some st'
    ∧ (passes a supports branches →
         fout st' = (fout st ++ [PyStr.strip line])%list
         ∧ n_passed st' = S (n_passed st))
    ∧ (¬ passes a supports branches →
         fout st' = fout st ∧ n_passed st' = n_passed st)
    ∧ (fout st' = (fout st ++ [PyStr.strip line])%list
         ↔ passes a supports branches).
Proof.
  intros Hs Hb.
  assert (Hdec : passes a supports branches ∨ ¬ passes a supports branches).
  { unfold passes. destruct supports as [|s ss], branches as [|b bs];
      try (right; intros (? & ? & _); congruence).
    destruct (Qle_bool (threshold_support a) (py_min s ss)) eqn:E1;
    destruct (Qle_bool (threshold_branch a) (py_min b bs)) eqn:E2.
    - left. apply py_min_ge in E1, E2. done.
    - right. intros (_ & _ & _ & H). apply py_min_ge in H. congruence.
    - right. intros (_ & _ & H & _). apply py_min_ge in H. congruence.
    - right. intros (_ & _ & H & _). apply py_min_ge in H. congruence. }
  assert (Hne : ∀ l : list string, l ≠ (l ++ [PyStr.strip line])%list).
  { intros l Heq. apply (f_equal length) in Heq.
    rewrite length_app in Heq. simpl in Heq. lia. }
  unfold main_body.
  destruct (PyStr.strip line) as [|c0 s0] eqn:Hline.
  - destruct (strip_empty_extract line Hline) as [Hs' Hb'].
    rewrite Hline in Hs', Hb'. rewrite Hs' in Hs. injection Hs as <-.
    exists st. split; [done|].
    assert (¬ passes a [] branches) by (intros (? & _); congruence).
    split; [done|]. split; [done|]. split; [|done].
    intros Heq. by apply Hne in Heq.
  - rewrite Hs, Hb.
    destruct supports as [|s ss]; [|destruct branches as [|b bs]].
    + exists (count_line st). split; [done|].
      assert (¬ passes a [] branches) by (intros (? & _); congruence).
      split; [done|]. split; [done|]. split; [|done].
      intros Heq. by apply Hne in Heq.
    + exists (count_line st). split; [done|].
      assert (¬ passes a (s :: ss) []) by (intros (_ & ? & _); congruence).
      split; [done|]. split; [done|]. split; [|done].
      intros Heq. by apply Hne in Heq.
    + destruct (Qle_bool (threshold_support a) (py_min s ss)) eqn:E1;
      destruct (Qle_bool (threshold_branch a) (py_min b bs)) eqn:E2; simpl.
      * exists (write_line (String c0 s0) (count_line st)).
        split; [done|].
        assert (passes a (s :: ss) (b :: bs)).
        { apply py_min_ge in E1, E2. done. }
        done.
      * exists (count_line st). split; [done|].
        assert (¬ passes a (s :: ss) (b :: bs)).
        { intros (_ & _ & _ & H). apply py_min_ge in H. congruence. }
        split; [done|]. split; [done|]. split; [|done].
        intros Heq. by apply Hne in Heq.
      * exists (count_line st). split; [done|].
        assert (¬ passes a (s :: ss) (b :: bs)).
        { intros (_ & _ & H & _). apply py_min_ge in H. congruence. }
        split; [done|]. split; [done|]. split; [|done].
        intros Heq. by apply Hne in Heq.
      * exists (count_line st). split; [done|].
        assert (¬ passes a (s :: ss) (b :: bs)).
        { intros (_ & _ & H & _). apply py_min_ge in H. congruence. }
        split; [done|]. split; [done|]. split; [|done].
        intros Heq. by apply Hne in Heq.
Qed.

Lemma filter_accepts_iff_witness :
  ∃ st',
    main_body {| threshold_support := 0.8; threshold_branch := 0.0 |}
              start scenario_line = Some st'
    ∧ fout st' = [scenario_line].
Proof.
  destruct (filter_accepts_iff
              {| threshold_support := 0.8; threshold_branch := 0.0 |}
              start scenario_line [0.95; 0.88; 1.0]%Q [0.05; 0.03; 0.0]%Q)
    as (st' & Hrun & Hyes & _).
  - reflexivity.
  - reflexivity.
  - exists st'. split; [exact Hrun|].
    apply Hyes. unfold passes. simpl.
    repeat split; try discriminate; repeat constructor; discriminate.
Defined.

(** C6.  On the text
    [((A:0.1,B:0.2)0.95:0.05,(C:0.15,D:0.18)0.88:0.03)1.0:0.0;] the
    extraction gives the supports 0.95, 0.88, 1.0 and the branch lengths
    0.05, 0.03, 0.0; with the thresholds 0.9 for the support and 0.0 for the
    branch length the line is counted and not written. *)
Theorem scenario_extraction :
  extract_supports scenario_line = Some [0.95; 0.88; 1.0]%Q
  ∧ extract_branch_lengths scenario_line = Some [0.05; 0.03; 0.0]%Q
  ∧ ∀ st, main_body scenario_args st scenario_line = Some (count_line st)
          ∧ fout (count_line st) = fout st
          ∧ n_passed (count_line st) = n_passed st.
Proof. split; [reflexivity|]. split; [reflexivity|]. intros st. done. Qed.

End SupportFilter.

(** ** The group-coverage filter *)
Section GroupCoverage.
Import FilterOrders.

Lemma count_present_cons names ids values :
  count_present names (ids :: values)
  = ((if any_present names ids then 1 else 0) + count_present names values)%Z.
Proof.
  unfold count_present. destruct (any_present names ids) eqn:E.
  - rewrite filter_cons_True by done. simpl length. lia.
  - rewrite filter_cons_False by (rewrite E; done). lia.
Qed.

Lemma count_present_nonneg names values : (0 <= count_present names values)%Z.
Proof. unfold count_present. lia. Qed.

(** The loop answers [True] exactly when the count reaches the required
    number, as long as it runs at least once or the count so far is still
    below the required number. *)
Lemma groups_loop_spec names g values k :
  values ≠ [] ∨ (k < g)%Z →
  groups_loop names g values k = true
  ↔ (g <= k + count_present names values)%Z.
Proof.
  revert k. induction values as [|ids values IH]; intros k Hside.
  - destruct Hside as [?|Hlt]; [done|]. simpl.
    unfold count_present. simpl. split; [done|lia].
  - rewrite count_present_cons. simpl.
    pose proof (count_present_nonneg names values).
    destruct (any_present names ids).
    + destruct (Z.leb_spec g (k + 1)); [split; [lia|done]|].
      rewrite IH by (right; lia). lia.
    + destruct (Z.leb_spec g k); [split; [lia|done]|].
      rewrite IH by (right; lia). lia.
Qed.

(** With at least one group in the dict, or a required number above zero,
    the filter keeps a tree exactly when the number of groups present
    reaches the required number. *)
Lemma check_tree_for_groups_spec tree groups g :
  groups ≠ [] ∨ (0 < g)%Z →
  check_tree_for_groups tree groups g = true ↔ (g <= groups_present tree groups)%Z.
Proof.
  intros Hside. unfold check_tree_for_groups, groups_present.
  rewrite groups_loop_spec.
  - unfold count_present. lia.
  - destruct Hside as [Hne|?]; [left|by right].
    destruct groups; [done|discriminate].
Qed.

Lemma check_tree_for_groups_spec_witness :
  check_tree_for_groups (MkClade None None [MkClade (Some "a") None []])
                        [("g1", ["a"]); ("g2", ["b"])] 1 = true.
Proof.
  apply (check_tree_for_groups_spec
           (MkClade None None [MkClade (Some "a") None []])
           [("g1", ["a"]); ("g2", ["b"])] 1).
  - left. discriminate.
  - vm_compute. discriminate.
Defined.

(** C8, at the input where the code departs from it.  With a dict that
    holds no group and a required number of 0 (or less), no group is
    present, which is at least the required number, and the filter still
    answers [False] for every tree: the test sits inside the loop over the
    groups, which does not run. *)
Theorem check_tree_for_groups_empty_dict (tree : Clade) :
  check_tree_for_groups tree [] 0 = false
  ∧ (0 <= groups_present tree [])%Z
  ∧ ¬ (check_tree_for_groups tree [] 0 = true
       ↔ (0 <= groups_present tree [])%Z).
Proof.
  split; [done|]. split; [done|].
  intros [_ H]. discriminate H. done.
Qed.

End GroupCoverage.

(** ** Monophyly on the trees of the classifiers *)
Section Monophyly.
Import Ete3.

Lemma nil_in_up_chain (p : handle) : [] ∈ up_chain p.
Proof.
  induction p as [|i p IH]; simpl.
  - apply list_elem_of_here.
  - by apply list_elem_of_further.
Qed.

Lemma filter_all {A} (P : A → Prop) `{∀ x, Decision (P x)} (l : list A) :
  (∀ x, x ∈ l → P x) → filter P l = l.
Proof.
  induction l as [|x l IH]; intros Hall; [done|].
  rewrite filter_cons_True by (apply Hall; apply list_elem_of_here).
  f_equal. apply IH. intros y Hy. apply Hall. by apply list_elem_of_further.
Qed.

(** Below the root are all the leaves. *)
Lemma n2leaves_root (t : TreeNode) : n2leaves t [] = iter_leaves t.
Proof. apply filter_all. intros l _. apply nil_in_up_chain. Qed.

(** The root is on the way up from every node, so the search for a common
    ancestor of at least one node finds one. *)
Lemma common_of_is_Some (targets : list handle) :
  targets ≠ [] → is_Some (common_of targets).
Proof.
  destruct targets as [|r rest]; [done|intros _].
  unfold common_of.
  destruct (find _ (up_chain r)) as [n|] eqn:E; [by eexists|].
  exfalso.
  pose proof (find_none _ _ E [] (proj1 (list_elem_of_In _ _) (nil_in_up_chain r)))
    as Hroot.
  apply not_true_iff_false in Hroot. apply Hroot.
  apply forallb_forall. intros m _. apply bool_decide_eq_true.
  apply nil_in_up_chain.
Qed.

Lemma get_common_ancestor_is_Some (targets : list handle) :
  targets ≠ [] → is_Some (get_common_ancestor targets).
Proof.
  intros Hne. unfold get_common_ancestor.
  destruct targets as [|n [|m rest]]; [done| |by apply common_of_is_Some].
  case_bool_decide; [by eexists|]. by apply common_of_is_Some.
Qed.

(** [check_monophyly] raises nothing when it is asked about at least one
    name and every name it is asked about is the name of a leaf. *)
Lemma check_monophyly_present (t : TreeNode) (values : list string) :
  values ≠ [] →
  (∀ v, v ∈ values → v ∈ leaf_names t) →
  ∃ b, check_monophyly t values = inr b.
Proof.
  intros Hne Hin. unfold check_monophyly. rewrite n2leaves_root.
  set (targets := filter (λ l : handle * string, l.2 ∈ values) (iter_leaves t)).
  assert (Htargets : ∀ v, v ∈ values → ∃ l, l ∈ targets ∧ l.2 = v).
  { intros v Hv. specialize (Hin v Hv). unfold leaf_names in Hin.
    apply elem_of_list_to_set, list_elem_of_In, in_map_iff in Hin.
    destruct Hin as (l & Hl & Hlin). exists l. split; [|done].
    apply list_elem_of_filter. split; [by rewrite Hl|].
    by apply list_elem_of_In. }
  rewrite bool_decide_eq_true_2.
  - destruct (get_common_ancestor_is_Some (map fst targets)) as [common ->].
    + destruct values as [|v ?]; [done|].
      destruct (Htargets v) as (l & Hl & _); [apply list_elem_of_here|].
      destruct targets; [by apply not_elem_of_nil in Hl|discriminate].
    + by eexists.
  - apply Forall_forall. intros v Hv.
    destruct (Htargets v Hv) as (l & Hl & <-).
    apply list_elem_of_In, in_map. by apply list_elem_of_In.
Qed.

(** The names of a target set that the tree has, as the classifiers list
    them, are names of leaves. *)
Lemma here_present (S : gset string) (t : TreeNode) (v : string) :
  v ∈ elements (S ∩ leaf_names t) → v ∈ leaf_names t.
Proof.
  intros Hv. apply elem_of_elements, elem_of_intersection in Hv. tauto.
Qed.

Lemma check_monophyly_here (S : gset string) (t : TreeNode) :
  (2 ≤ size (S ∩ leaf_names t))%nat →
  ∃ b, check_monophyly t (elements (S ∩ leaf_names t)) = inr b.
Proof.
  intros Hsize. apply check_monophyly_present.
  - unfold size, set_size in Hsize. simpl in Hsize.
    intros Heq. rewrite Heq in Hsize. simpl in Hsize. lia.
  - apply here_present.
Qed.

(** *** What the answer of [check_monophyly] means *)

(** The way up from a node holds the node and its ancestors. *)
Lemma up_chain_suffix (x p : handle) : x ∈ up_chain p ↔ x `suffix_of` p.
Proof.
  induction p as [|i p IH]; simpl.
  - rewrite list_elem_of_singleton. split; [by intros ->|apply suffix_nil_inv].
  - rewrite elem_of_cons, IH. split.
    + intros [->|H]; [done|by apply suffix_cons_r].
    + intros H. destruct x as [|j x]; [right; apply suffix_nil|].
      apply suffix_cons_inv in H as [->|H]; [by left|by right].
Qed.

Lemma up_chain_trans (a b c : handle) :
  a ∈ up_chain b → b ∈ up_chain c → a ∈ up_chain c.
Proof. rewrite !up_chain_suffix. intros ? ?. by etrans. Qed.

(** The first node on the way up with a property is below every node on
    the way up with it. *)
Lemma find_up_chain (f : handle → bool) (p c q : handle) :
  find f (up_chain p) = Some c → q ∈ up_chain p → f q = true →
  q ∈ up_chain c.
Proof.
  induction p as [|i p IH]; simpl; intros Hfind Hq Hf.
  - apply list_elem_of_singleton in Hq. subst q. rewrite Hf in Hfind.
    injection Hfind as <-. apply list_elem_of_here.
  - destruct (f (i :: p)) eqn:E.
    + injection Hfind as <-. done.
    + apply elem_of_cons in Hq as [->|Hq]; [congruence|]. by apply IH.
Qed.

(** For leaves of at least two names in [values], all of them names of
    leaves, [check_monophyly] answers [True] exactly when the tree has a
    node whose leaves are the leaves with a name in [values]. *)
Lemma check_monophyly_clade (t : TreeNode) (values : list string) :
  (2 ≤ length (filter (λ l : handle * string, l.2 ∈ values) (iter_leaves t)))%nat →
  (∀ v, v ∈ values → v ∈ leaf_names t) →
  check_monophyly t values = inr true
  ↔ ∃ q : handle,
      ∀ l, l ∈ iter_leaves t → (q ∈ up_chain l.1 ↔ l.2 ∈ values).
Proof.
  intros Hlen Hin. unfold check_monophyly. rewrite n2leaves_root.
  set (targets := filter (λ l : handle * string, l.2 ∈ values) (iter_leaves t))
    in *.
  assert (Htargets : ∀ l, l ∈ targets ↔ l.2 ∈ values ∧ l ∈ iter_leaves t).
  { intros l.
    apply (list_elem_of_filter (λ l0 : handle * string, l0.2 ∈ values)). }
  rewrite bool_decide_eq_true_2; cycle 1.
  { apply Forall_forall. intros v Hv. specialize (Hin v Hv).
    unfold leaf_names in Hin.
    apply elem_of_list_to_set, list_elem_of_In, in_map_iff in Hin.
    destruct Hin as (l & Hl & Hlin). rewrite <- Hl.
    apply list_elem_of_In, in_map, list_elem_of_In, Htargets.
    split; [by rewrite Hl|by apply list_elem_of_In]. }
  destruct targets as [|a [|b rest]] eqn:Et; simpl in Hlen; [lia|lia|].
  rewrite <- Et in *. 
  assert (Hmap : map fst targets = a.1 :: b.1 :: map fst rest)
    by (by rewrite Et).
  unfold get_common_ancestor. rewrite Hmap. rewrite <- Hmap.
  assert (Hcommon : common_of (map fst targets)
            = find (λ n, forallb (λ m, bool_decide (n ∈ up_chain m))
                                 (map fst targets)) (up_chain a.1))
    by (by rewrite Hmap).
  rewrite Hcommon.
  assert (Hpred : ∀ q, forallb (λ m, bool_decide (q ∈ up_chain m))
                               (map fst targets) = true
                       ↔ ∀ l, l ∈ targets → q ∈ up_chain l.1).
  { intros q. rewrite forallb_forall. split.
    - intros H l Hl. eapply bool_decide_eq_true_1, H, in_map.
      by apply list_elem_of_In.
    - intros H m Hm. apply in_map_iff in Hm as (l & <- & Hl).
      apply bool_decide_eq_true_2, H. by apply list_elem_of_In. }
  assert (Ha : a ∈ targets) by (rewrite Et; apply list_elem_of_here).
  destruct (find _ (up_chain a.1)) as [c|] eqn:Efind.
  - split.
    + intros Hans. injection Hans as Hans. apply bool_decide_eq_true in Hans.
      apply find_some in Efind as [_ Hc]. rewrite Hpred in Hc.
      exists c. intros l Hl. split.
      * intros Hunder. destruct (decide (l.2 ∈ values)) as [|Hno]; [done|].
        exfalso.
        assert (Hf : l ∈ filter (λ l0 : handle * string, l0.2 ∉ values)
                                (n2leaves t c)).
        { apply list_elem_of_filter. split; [done|].
          apply list_elem_of_filter. done. }
        rewrite Hans in Hf. by apply not_elem_of_nil in Hf.
      * intros Hv. apply Hc, Htargets. done.
    + intros (q & Hq). f_equal. apply bool_decide_eq_true.
      assert (Hqc : q ∈ up_chain c).
      { apply (find_up_chain _ a.1 c q Efind).
        - apply Htargets in Ha as [Ha1 Ha2]. by apply Hq.
        - apply Hpred. intros l Hl. apply Htargets in Hl as [? ?]. by apply Hq. }
      destruct (filter _ (n2leaves t c)) as [|x foreign] eqn:Ef; [done|].
      exfalso.
      assert (Hx : x ∈ filter (λ l0 : handle * string, l0.2 ∉ values)
                              (n2leaves t c))
        by (rewrite Ef; apply list_elem_of_here).
      apply list_elem_of_filter in Hx as [Hno Hx].
      apply list_elem_of_filter in Hx as [Hunder Hx].
      apply Hno, (Hq x Hx). by eapply up_chain_trans.
  - exfalso. destruct (common_of_is_Some (map fst targets)) as [c Hc].
    + by rewrite Hmap.
    + rewrite Hcommon in Hc. done.
Qed.

Lemma two_in_list {A} (x y : A) (l : list A) :
  x ∈ l → y ∈ l → x ≠ y → (2 ≤ length l)%nat.
Proof.
  intros Hx Hy Hne. destruct l as [|a [|b l]]; simpl; [|exfalso|lia].
  - by apply not_elem_of_nil in Hx.
  - apply list_elem_of_singleton in Hx, Hy. congruence.
Qed.

(** For a target set of the classifiers with two or more names among the
    leaves, the answer of [check_monophyly] is [True] exactly when the
    names form a clade. *)
Lemma check_monophyly_here_clade (S : gset string) (t : TreeNode) :
  (2 ≤ size (S ∩ leaf_names t))%nat →
  check_monophyly t (elements (S ∩ leaf_names t)) = inr true
  ↔ monophyletic t S.
Proof.
  intros Hsize. unfold monophyletic.
  assert (Hname : ∀ l, l ∈ iter_leaves t →
            (l.2 ∈ elements (S ∩ leaf_names t) ↔ l.2 ∈ S)).
  { intros l Hl. rewrite elem_of_elements, elem_of_intersection.
    split; [tauto|]. intros HS. split; [done|].
    apply elem_of_list_to_set, list_elem_of_In, in_map.
    by apply list_elem_of_In. }
  rewrite check_monophyly_clade.
  - split; intros (q & Hq); exists q; intros l Hl;
      specialize (Hq l Hl); specialize (Hname l Hl); tauto.
  - pose proof (NoDup_elements (S ∩ leaf_names t)) as Hnd.
    unfold size, set_size in Hsize. simpl in Hsize.
    destruct (elements (S ∩ leaf_names t)) as [|v1 [|v2 e]] eqn:Ee;
      simpl in Hsize; [lia|lia|].
    assert (Hleaf : ∀ v, v ∈ v1 :: v2 :: e →
              ∃ l, l ∈ filter (λ l : handle * string, l.2 ∈ v1 :: v2 :: e)
                              (iter_leaves t) ∧ l.2 = v).
    { intros v Hv. assert (Hv' : v ∈ leaf_names t).
      { apply (here_present S). by rewrite Ee. }
      apply elem_of_list_to_set, list_elem_of_In, in_map_iff in Hv'.
      destruct Hv' as (l & Hl & Hlin). exists l. split; [|done].
      apply (list_elem_of_filter (λ l : handle * string, l.2 ∈ v1 :: v2 :: e)).
      split; [by rewrite Hl|by apply list_elem_of_In]. }
    destruct (Hleaf v1) as (l1 & Hl1 & E1); [apply list_elem_of_here|].
    destruct (Hleaf v2) as (l2 & Hl2 & E2);
      [apply list_elem_of_further, list_elem_of_here|].
    apply (two_in_list l1 l2); [done|done|].
    intros ->. apply NoDup_cons in Hnd as [Hv1 _]. apply Hv1.
    rewrite <- E1, E2. apply list_elem_of_here.
  - apply here_present.
Qed.

Lemma check_monophyly_answer (S : gset string) (t : TreeNode) (m : bool) :
  (2 ≤ size (S ∩ leaf_names t))%nat →
  check_monophyly t (elements (S ∩ leaf_names t)) = inr m →
  m = true ↔ monophyletic t S.
Proof.
  intros Hsize Hm. rewrite <- (check_monophyly_here_clade S t Hsize), Hm.
  split; [by intros ->|]. by intros [=].
Qed.

End Monophyly.

(** ** The WGD classifier *)
Section WgdClassifier.
Import Ete3 WgdTreeStat.

Lemma lt_2_ltb (n m : nat) :
  (n < 2 ∨ m < 2)%nat → (n <? 2)%nat || (m <? 2)%nat = true.
Proof.
  intros [H|H]; apply orb_true_iff; [left|right]; by apply Nat.ltb_lt.
Qed.

Lemma ge_2_ltb (n m : nat) :
  (2 ≤ n)%nat → (2 ≤ m)%nat → (n <? 2)%nat || (m <? 2)%nat = false.
Proof.
  intros Hn Hm. apply orb_false_iff. split; apply Nat.ltb_ge; lia.
Qed.

Lemma length_elements (X : gset string) : length (elements X) = size X.
Proof. reflexivity. Qed.

(** A tree with fewer than two of the names of [A], or fewer than two of
    the names of [B], among its leaves changes no counter. *)
Lemma wgd_skip (A B : gset string) (t : TreeNode) (c : counters) :
  (size (A ∩ leaf_names t) < 2 ∨ size (B ∩ leaf_names t) < 2)%nat →
  tree_body A B c (Some t) = c.
Proof.
  intros H. unfold tree_body. rewrite !length_elements.
  by rewrite (lt_2_ltb _ _ H).
Qed.

(** A tree with two names of each set is counted, both monophyly tests
    give an answer, and the answers choose the one counter that grows. *)
Lemma wgd_counted (A B : gset string) (t : TreeNode) (c : counters) :
  (2 ≤ size (A ∩ leaf_names t))%nat →
  (2 ≤ size (B ∩ leaf_names t))%nat →
  ∃ monoA monoB,
    check_monophyly t (elements (A ∩ leaf_names t)) = inr monoA
    ∧ check_monophyly t (elements (B ∩ leaf_names t)) = inr monoB
    ∧ tree_body A B c (Some t)
      = (if monoA && monoB then add_independent (add_total c)
         else if negb monoA && negb monoB then add_shared (add_total c)
         else add_uncertain (add_total c)).
Proof.
  intros HA HB.
  destruct (check_monophyly_here A t HA) as [monoA EA].
  destruct (check_monophyly_here B t HB) as [monoB EB].
  exists monoA, monoB. split; [done|]. split; [done|].
  unfold tree_body. rewrite !length_elements.
  rewrite (ge_2_ltb _ _ HA HB), EA, EB. done.
Qed.

(** Whatever the tree, the body leaves the counters alone or adds one to
    [total] and to exactly one of the three categories. *)
Lemma wgd_body_cases (A B : gset string) (c : counters)
    (parsed : option TreeNode) :
  tree_body A B c parsed = c
  ∨ tree_body A B c parsed = add_independent (add_total c)
  ∨ tree_body A B c parsed = add_shared (add_total c)
  ∨ tree_body A B c parsed = add_uncertain (add_total c).
Proof.
  destruct parsed as [t|]; [|by left].
  destruct (decide (2 ≤ size (A ∩ leaf_names t))%nat) as [HA|HA];
    [destruct (decide (2 ≤ size (B ∩ leaf_names t))%nat) as [HB|HB]|].
  - destruct (wgd_counted A B t c HA HB) as (mA & mB & _ & _ & Hb).
    rewrite Hb. destruct mA, mB; simpl; auto.
  - left. apply wgd_skip. lia.
  - left. apply wgd_skip. lia.
Qed.

Lemma wgd_body_partitioned (A B : gset string) (c : counters)
    (parsed : option TreeNode) :
  partitioned c → partitioned (tree_body A B c parsed).
Proof.
  unfold partitioned. intros Hc.
  destruct (wgd_body_cases A B c parsed) as [E|[E|[E|E]]];
    rewrite E; simpl; lia.
Qed.

Lemma wgd_fold_partitioned (A B : gset string)
    (trees : list (option TreeNode)) (c : counters) :
  partitioned c → partitioned (fold_left (tree_body A B) trees c).
Proof.
  revert c. induction trees as [|p trees IH]; intros c Hc; [done|].
  simpl. apply IH. by apply wgd_body_partitioned.
Qed.

(** C3, as the code has it.  A tree with fewer than two names of [A] or
    fewer than two names of [B] among its leaves is not counted.  Every
    other tree is counted, and is Independent when both sets are
    monophyletic, Shared when neither is, Uncertain when exactly one is;
    monophyletic is the answer of [check_monophyly], which is [True]
    exactly when some node has as its leaves the leaves named in the set.
    With [A = {1, 2}] and [B = {3, 4}]: [((1,2),(3,4));] is Independent,
    [((1,3),(2,4));] is Shared, [((1,2,3),4);] has both names of [B], is
    counted and is Shared, and [((1,2,3),5);], with one name of [B], is
    not counted.  The sets need not be disjoint. *)
Theorem wgd_classification :
  (∀ (A B : gset string) (t : TreeNode) (c : counters),
     ((size (A ∩ leaf_names t) < 2 ∨ size (B ∩ leaf_names t) < 2)%nat →
        tree_body A B c (Some t) = c)
     ∧ ((2 ≤ size (A ∩ leaf_names t))%nat →
        (2 ≤ size (B ∩ leaf_names t))%nat →
        ∃ monoA monoB,
          check_monophyly t (elements (A ∩ leaf_names t)) = inr monoA
          ∧ check_monophyly t (elements (B ∩ leaf_names t)) = inr monoB
          ∧ (monoA = true ↔ monophyletic t A)
          ∧ (monoB = true ↔ monophyletic t B)
          ∧ total (tree_body A B c (Some t)) = S (total c)
          ∧ (monoA = true → monoB = true →
               tree_body A B c (Some t) = add_independent (add_total c))
          ∧ (monoA = false → monoB = false →
               tree_body A B c (Some t) = add_shared (add_total c))
          ∧ (monoA ≠ monoB →
               tree_body A B c (Some t) = add_uncertain (add_total c))))
  ∧ tree_body set_12 set_34 zero (Some tree_12_34)
    = add_independent (add_total zero)
  ∧ tree_body set_12 set_34 zero (Some tree_13_24)
    = add_shared (add_total zero)
  ∧ tree_body set_12 set_34 zero (Some tree_123_4)
    = add_shared (add_total zero)
  ∧ tree_body set_12 set_34 zero (Some tree_123_5) = zero.
Proof.
  split; [|by vm_compute].
  intros A B t c. split; [apply wgd_skip|].
  intros HA HB.
  destruct (wgd_counted A B t c HA HB) as (mA & mB & EA & EB & Hbody).
  exists mA, mB. split; [done|]. split; [done|].
  split; [by apply check_monophyly_answer|].
  split; [by apply check_monophyly_answer|].
  rewrite Hbody. split; [by destruct mA, mB|].
  split; [by intros -> ->|]. split; [by intros -> ->|].
  by destruct mA, mB.
Qed.

Lemma wgd_classification_witness :
  tree_body set_12 set_34 zero (Some tree_123_5) = zero
  ∧ tree_body set_12 set_34 zero (Some tree_13_24) = add_shared (add_total zero).
Proof.
  destruct wgd_classification as [Hgen _].
  destruct (Hgen set_12 set_34 tree_123_5 zero) as [Hskip _].
  destruct (Hgen set_12 set_34 tree_13_24 zero) as [_ Hcount].
  split.
  - apply Hskip. right. vm_compute. lia.
  - destruct Hcount as (mA & mB & EA & EB & _ & _ & _ & _ & Hshared & _).
    + vm_compute. lia.
    + vm_compute. lia.
    + apply Hshared.
      * vm_compute in EA. congruence.
      * vm_compute in EB. congruence.
Defined.

(** The tree [((1,2,3),4);] is not skipped: both names of [B = {3, 4}] are
    among its leaves, and it is counted. *)
Lemma wgd_tree_123_4_counted :
  ¬ (tree_body set_12 set_34 zero (Some tree_123_4) = zero)
  ∧ size (set_34 ∩ leaf_names tree_123_4) = 2%nat.
Proof. split; [|by vm_compute]. vm_compute. discriminate. Qed.

End WgdClassifier.

(** ** The WGT classifier *)
Section WgtClassifier.
Import Ete3 WgtTreeStat.

(** The monophyly of a target set as the WGT script decides it: [True]
    without a test for at most one name present, the answer of the test
    otherwise, and never an exception. *)
Lemma wgt_mono (S : gset string) (t : TreeNode) :
  ∃ m, mono t (elements (S ∩ leaf_names t)) = inr m
       ∧ ((size (S ∩ leaf_names t) ≤ 1)%nat → m = true)
       ∧ ((1 < size (S ∩ leaf_names t))%nat →
            check_monophyly t (elements (S ∩ leaf_names t)) = inr m
            ∧ (m = true ↔ monophyletic t S)).
Proof.
  unfold mono. rewrite length_elements.
  destruct (Nat.ltb_spec 1 (size (S ∩ leaf_names t))) as [Hlt|Hle].
  - destruct (check_monophyly_here S t) as [m Hm]; [lia|].
    exists m. split; [done|]. split; [lia|]. intros _. split; [done|].
    by apply check_monophyly_answer.
  - exists true. split; [done|]. split; [done|lia].
Qed.

(** C4.  Every parsed tree is counted, however many names of [A] and of
    [B] are among its leaves.  A set with no or one name among the leaves
    is taken as monophyletic, a set with more is tested by
    [check_monophyly], which answers [True] exactly when some node has as
    its leaves the leaves named in the set.  The tree counts as NonShared
    when [A] or [B] is monophyletic and as Shared when neither is. *)
Theorem wgt_classification (A B : gset string) (t : TreeNode) (c : counters) :
  ∃ monoA monoB c',
    tree_body A B c (Some t) = inr c'
    ∧ total c' = S (total c)
    ∧ ((size (A ∩ leaf_names t) ≤ 1)%nat → monoA = true)
    ∧ ((size (B ∩ leaf_names t) ≤ 1)%nat → monoB = true)
    ∧ ((1 < size (A ∩ leaf_names t))%nat →
         check_monophyly t (elements (A ∩ leaf_names t)) = inr monoA
         ∧ (monoA = true ↔ monophyletic t A))
    ∧ ((1 < size (B ∩ leaf_names t))%nat →
         check_monophyly t (elements (B ∩ leaf_names t)) = inr monoB
         ∧ (monoB = true ↔ monophyletic t B))
    ∧ (monoA = true ∨ monoB = true → c' = add_non_shared (add_total c))
    ∧ (monoA = false ∧ monoB = false → c' = add_shared (add_total c)).
Proof.
  destruct (wgt_mono A t) as (mA & EA & HA1 & HA2).
  destruct (wgt_mono B t) as (mB & EB & HB1 & HB2).
  exists mA, mB. unfold tree_body. rewrite EA, EB.
  destruct (mA || mB) eqn:E; eexists; (split; [reflexivity|]);
    (split; [reflexivity|]); repeat (split; [assumption|]); split.
  - done.
  - intros [-> ->]. discriminate.
  - intros [->| ->]; [discriminate|]. by destruct mA.
  - done.
Qed.

Lemma wgt_classification_witness :
  tree_body set_12 set_34 zero (Some tree_123_5)
  = inr (add_non_shared (add_total zero)).
Proof.
  destruct (wgt_classification set_12 set_34 tree_123_5 zero)
    as (mA & mB & c' & Hrun & _ & _ & HB & _ & _ & Hns & _).
  rewrite Hrun. f_equal. apply Hns. right. apply HB. vm_compute. lia.
Defined.

Lemma wgt_body_cases (A B : gset string) (c : counters)
    (parsed : option TreeNode) :
  tree_body A B c parsed = inr c
  ∨ tree_body A B c parsed = inr (add_non_shared (add_total c))
  ∨ tree_body A B c parsed = inr (add_shared (add_total c)).
Proof.
  destruct parsed as [t|]; [|by left].
  destruct (wgt_mono A t) as (mA & EA & _).
  destruct (wgt_mono B t) as (mB & EB & _).
  unfold tree_body. rewrite EA, EB.
  destruct (mA || mB); [right; left|right; right]; done.
Qed.

Lemma wgt_count_from_partitioned (A B : gset string)
    (trees : list (option TreeNode)) (c : counters) :
  wgt_partitioned c →
  ∃ c', count_from A B c trees = inr c' ∧ wgt_partitioned c'.
Proof.
  revert c. induction trees as [|p trees IH]; intros c Hc; [by exists c|].
  simpl. unfold wgt_partitioned in *.
  destruct (wgt_body_cases A B c p) as [E|[E|E]]; rewrite E;
    apply IH; simpl; lia.
Qed.

End WgtClassifier.

(** ** Counters and summaries of the two classifiers *)
Section Summaries.
Import Ete3.

(** C9.  For every file, whatever its trees: the WGD counters satisfy
    [independent + shared + uncertain = total], and the WGT loop ends
    without an exception with [support_non_shared + support_shared = total].
    Each tree either changes no counter or adds one to the total and to
    exactly one category. *)
Theorem category_counts_partition :
  (∀ (A B : gset string) (trees : list (option TreeNode)),
     let c := WgdTreeStat.count_file A B trees in
     (WgdTreeStat.independent c + WgdTreeStat.shared c
      + WgdTreeStat.uncertain c = WgdTreeStat.total c)%nat)
  ∧ (∀ (A B : gset string) (trees : list (option TreeNode)),
       ∃ c, WgtTreeStat.count_file A B trees = inr c
            ∧ (WgtTreeStat.support_non_shared c + WgtTreeStat.support_shared c
               = WgtTreeStat.total c)%nat)
  ∧ (∀ (A B : gset string) (c : WgdTreeStat.counters)
       (parsed : option TreeNode),
       let c' := WgdTreeStat.tree_body A B c parsed in
       c' = c
       ∨ c' = WgdTreeStat.add_independent (WgdTreeStat.add_total c)
       ∨ c' = WgdTreeStat.add_shared (WgdTreeStat.add_total c)
       ∨ c' = WgdTreeStat.add_uncertain (WgdTreeStat.add_total c))
  ∧ (∀ (A B : gset string) (c : WgtTreeStat.counters)
       (parsed : option TreeNode),
       let r := WgtTreeStat.tree_body A B c parsed in
       r = inr c
       ∨ r = inr (WgtTreeStat.add_non_shared (WgtTreeStat.add_total c))
       ∨ r = inr (WgtTreeStat.add_shared (WgtTreeStat.add_total c))).
Proof.
  split; [|split; [|split]].
  - intros A B trees. apply wgd_fold_partitioned. reflexivity.
  - intros A B trees. apply wgt_count_from_partitioned. reflexivity.
  - intros A B c parsed. apply wgd_body_cases.
  - intros A B c parsed. apply wgt_body_cases.
Qed.

Lemma wgd_not_counted_fold (A B : gset string)
    (trees : list (option TreeNode)) (c : WgdTreeStat.counters) :
  Forall (not_counted A B) trees →
  fold_left (WgdTreeStat.tree_body A B) trees c = c.
Proof.
  revert c. induction trees as [|p trees IH]; intros c Hall; [done|].
  inversion Hall as [|? ? Hp Hrest]; subst. simpl.
  assert (WgdTreeStat.tree_body A B c p = c) as ->.
  { destruct p as [t|]; [by apply wgd_skip|done]. }
  by apply IH.
Qed.

Lemma wgt_summary_from (A B : gset string)
    (files : list (string * list (option TreeNode)))
    (out : list WgtTreeStat.row) :
  ∃ rows, WgtTreeStat.summary_from A B out files = inr (out ++ rows)%list
          ∧ Forall2 (wgt_row_of A B) files rows.
Proof.
  revert out. induction files as [|f files IH]; intros out.
  - exists []. simpl. by rewrite app_nil_r.
  - simpl.
    destruct (wgt_count_from_partitioned A B f.2 WgtTreeStat.zero)
      as (c & Hc & _); [reflexivity|].
    unfold WgtTreeStat.count_file at 1. rewrite Hc.
    destruct (IH (out ++ [WgtTreeStat.write_row f.1 c])%list)
      as (rows & Hrows & Hall).
    exists (WgtTreeStat.write_row f.1 c :: rows). split.
    + rewrite Hrows. by rewrite <- app_assoc.
    + constructor; [|done]. by exists c.
Qed.

(** C10.  The WGD script writes a row for a file exactly when its total is
    above zero, so that a file whose trees all fail to parse or are skipped
    has no row, and the rows of the summary are those of the files with a
    total above zero.  The WGT script ends without an exception and writes
    one row for each file, in order, and the two ratios of a row are 0 when
    the total of the file is 0. *)
Theorem summary_rows :
  (∀ (f : string) (c : WgdTreeStat.counters),
     (WgdTreeStat.write_row f c = [] ↔ WgdTreeStat.total c = 0%nat)
     ∧ (∀ r, r ∈ WgdTreeStat.write_row f c →
             WgdTreeStat.File r = f ∧ (0 < WgdTreeStat.Total r)%nat
             ∧ WgdTreeStat.Total r = WgdTreeStat.total c))
  ∧ (∀ (A B : gset string) (f : string) (trees : list (option TreeNode)),
       Forall (not_counted A B) trees →
       WgdTreeStat.write_row f (WgdTreeStat.count_file A B trees) = [])
  ∧ (∀ (A B : gset string) (files : list (string * list (option TreeNode)))
       (r : WgdTreeStat.row),
       r ∈ WgdTreeStat.summary A B files
       ↔ ∃ f, f ∈ files
              ∧ (0 < WgdTreeStat.total (WgdTreeStat.count_file A B f.2))%nat
              ∧ r ∈ WgdTreeStat.write_row f.1 (WgdTreeStat.count_file A B f.2))
  ∧ (∀ (A B : gset string) (files : list (string * list (option TreeNode))),
       ∃ rows, WgtTreeStat.summary A B files = inr rows
               ∧ Forall2 (wgt_row_of A B) files rows)
  ∧ (∀ (f : string) (c : WgtTreeStat.counters),
       WgtTreeStat.File (WgtTreeStat.write_row f c) = f
       ∧ WgtTreeStat.Total_Trees (WgtTreeStat.write_row f c)
         = WgtTreeStat.total c
       ∧ (WgtTreeStat.total c = 0%nat →
            WgtTreeStat.NonShared_Ratio (WgtTreeStat.write_row f c) = 0%Q
            ∧ WgtTreeStat.Shared_Ratio (WgtTreeStat.write_row f c) = 0%Q)).
Proof.
  assert (Hrow : ∀ (f : string) (c : WgdTreeStat.counters),
     (WgdTreeStat.write_row f c = [] ↔ WgdTreeStat.total c = 0%nat)
     ∧ (∀ r, r ∈ WgdTreeStat.write_row f c →
             WgdTreeStat.File r = f ∧ (0 < WgdTreeStat.Total r)%nat
             ∧ WgdTreeStat.Total r = WgdTreeStat.total c)).
  { intros f c. unfold WgdTreeStat.write_row.
    destruct (Nat.ltb_spec 0 (WgdTreeStat.total c)) as [Hpos|Hzero].
    - split; [split; [discriminate|intros; lia]|].
      intros r Hr. apply list_elem_of_singleton in Hr. subst r. simpl.
      split; [done|]. split; [lia|done].
    - split; [split; [intros; lia|done]|]. intros r Hr.
      by apply not_elem_of_nil in Hr. }
  split; [exact Hrow|]. split; [|split; [|split]].
  - intros A B f trees Hall. apply Hrow. unfold WgdTreeStat.count_file.
    by rewrite wgd_not_counted_fold.
  - intros A B files r. unfold WgdTreeStat.summary.
    rewrite list_elem_of_In, in_flat_map. split.
    + intros (f & Hf & Hr). exists f. apply list_elem_of_In in Hf, Hr.
      split; [done|]. split; [|done].
      destruct (Hrow f.1 (WgdTreeStat.count_file A B f.2)) as [_ Hpos].
      specialize (Hpos r Hr). lia.
    + intros (f & Hf & _ & Hr). exists f. by rewrite <- !list_elem_of_In.
  - intros A B files. destruct (wgt_summary_from A B files []) as (rows & H & ?).
    by exists rows.
  - intros f c. unfold WgtTreeStat.write_row.
    destruct (Nat.ltb_spec 0 (WgtTreeStat.total c)); simpl;
      (split; [done|]); (split; [done|]); [lia|done].
Qed.

Lemma summary_rows_witness :
  WgdTreeStat.write_row "a.nwk"
    (WgdTreeStat.count_file set_12 set_34 all_skipped_file) = []
  ∧ WgtTreeStat.NonShared_Ratio (WgtTreeStat.write_row "a.nwk" WgtTreeStat.zero)
    = 0%Q.
Proof.
  destruct summary_rows as (_ & Hskipped & _ & _ & Hwgt).
  split.
  - apply Hskipped. unfold all_skipped_file.
    constructor; [exact I|]. constructor; [right; vm_compute; lia|].
    constructor; [exact I|]. constructor.
  - apply (Hwgt "a.nwk" WgtTreeStat.zero). reflexivity.
Defined.

End Summaries.

(** ** Pruning: trees in the store *)
Section StoredTrees.
Import Ete3Obj PruneTreeNodes.

Lemma stored_unfold h x kids :
  stored h x (Shape kids)
  ↔ ∃ n, h !! x = Some n ∧ Forall2 (stored h) (children n) kids.
Proof.
  simpl. split; intros (n & Hn & Hall); exists n; (split; [done|]).
  - revert Hall. generalize (children n) as cs. clear.
    induction kids as [|k kids IH]; intros [|c cs] Hall.
    + constructor.
    + destruct Hall.
    + destruct Hall.
    + destruct Hall as [Hc Hall]. constructor; [done|]. by apply IH.
  - induction Hall; [done|]. split; done.
Qed.

Lemma forest_size_app F G :
  forest_size (F ++ G) = (forest_size F + forest_size G)%nat.
Proof.
  unfold forest_size. rewrite map_app. induction (map shape_size F); simpl; lia.
Qed.

(** The traversal of a stored forest ends within as many iterations as
    the forest has nodes. *)
Lemma levelorder_terminates h fuel :
  ∀ q F, Forall2 (stored h) q F → (forest_size F ≤ fuel)%nat →
         is_Some (levelorder fuel h q).
Proof.
  induction fuel as [|fuel IH]; intros q F Hall Hsize.
  - destruct Hall as [|x T q F Hx Hall]; [by eexists|].
    destruct T. unfold forest_size in Hsize. simpl in Hsize. lia.
  - destruct Hall as [|x T q F Hx Hall]; [by eexists|].
    destruct T as [kids]. apply stored_unfold in Hx.
    destruct Hx as (n & Hn & Hkids). simpl. rewrite Hn. simpl.
    destruct (IH (q ++ children n) (F ++ kids)) as [r Hr].
    + by apply Forall2_app.
    + rewrite forest_size_app. unfold forest_size in *. simpl in Hsize.
      lia.
    + rewrite Hr. by eexists.
Qed.

Lemma reach_trans h x y z : reach h x y → reach h y z → reach h x z.
Proof.
  intros Hxy Hyz. induction Hyz; [done|]. by eapply reach_step.
Qed.

(** What the traversal yields is in the trees of the queue. *)
Lemma levelorder_reach h fuel :
  ∀ q l, levelorder fuel h q = Some l →
         ∀ x, x ∈ l → ∃ r, r ∈ q ∧ reach h r x.
Proof.
  induction fuel as [|fuel IH]; intros q l Hrun x Hx.
  - destruct q; simpl in Hrun; [|done]. injection Hrun as <-.
    by apply not_elem_of_nil in Hx.
  - destruct q as [|y rest]; simpl in Hrun.
    { injection Hrun as <-. by apply not_elem_of_nil in Hx. }
    destruct (h !! y) as [n|] eqn:Hn; [|done]. simpl in Hrun.
    destruct (levelorder fuel h (rest ++ children n)) as [r|] eqn:Hr; [|done].
    injection Hrun as <-.
    apply elem_of_cons in Hx as [->|Hx].
    + exists y. split; [apply list_elem_of_here|constructor].
    + destruct (IH _ _ Hr x Hx) as (r0 & Hr0 & Hreach).
      apply elem_of_app in Hr0 as [Hr0|Hr0].
      * exists r0. split; [by apply list_elem_of_further|done].
      * exists y. split; [apply list_elem_of_here|].
        eapply reach_trans; [|done].
        eapply reach_step; [constructor|done|done].
Qed.

(** The traversal yields every node of the trees of the queue. *)
Lemma levelorder_closed h fuel :
  ∀ q l, levelorder fuel h q = Some l →
         (∀ x, x ∈ q → x ∈ l)
         ∧ (∀ y n c, y ∈ l → h !! y = Some n → c ∈ children n → c ∈ l).
Proof.
  induction fuel as [|fuel IH]; intros q l Hrun.
  - destruct q; simpl in Hrun; [|done]. injection Hrun as <-.
    split; [done|]. intros y n c Hy. by apply not_elem_of_nil in Hy.
  - destruct q as [|y rest]; simpl in Hrun.
    { injection Hrun as <-. split; [done|].
      intros y n c Hy. by apply not_elem_of_nil in Hy. }
    destruct (h !! y) as [n|] eqn:Hn; [|done]. simpl in Hrun.
    destruct (levelorder fuel h (rest ++ children n)) as [r|] eqn:Hr; [|done].
    injection Hrun as <-.
    destruct (IH _ _ Hr) as [Hq Hcl]. split.
    + intros x Hx. apply elem_of_cons in Hx as [->|Hx].
      * apply list_elem_of_here.
      * apply list_elem_of_further, Hq, elem_of_app. by left.
    + intros z m c Hz Hm Hc. apply list_elem_of_further.
      apply elem_of_cons in Hz as [->|Hz].
      * apply Hq, elem_of_app. right. congruence.
      * by eapply Hcl.
Qed.

Lemma levelorder_complete h fuel t l x :
  levelorder fuel h [t] = Some l → reach h t x → x ∈ l.
Proof.
  intros Hrun Hreach. destruct (levelorder_closed _ _ _ _ Hrun) as [Hq Hcl].
  induction Hreach; [apply Hq, list_elem_of_here|]. by eapply Hcl.
Qed.

(** A name that no node of the tree has is searched without a result. *)
Lemma search_nodes_absent h t T nm fuel :
  stored h t T → (shape_size T ≤ fuel)%nat →
  (∀ x n, reach h t x → h !! x = Some n → name n ≠ nm) →
  search_nodes fuel h t nm = Some [].
Proof.
  intros HT Hfuel Habs. unfold search_nodes.
  destruct (levelorder_terminates h fuel [t] [T]) as [l Hl].
  - by repeat constructor.
  - unfold forest_size. simpl. lia.
  - rewrite Hl. simpl. f_equal.
    pose proof (levelorder_reach _ _ _ _ Hl) as Hsound. clear Hl.
    induction l as [|x l IH]; [done|].
    rewrite filter_cons_False.
    + apply IH. intros y Hy. apply Hsound. by apply list_elem_of_further.
    + destruct (Hsound x) as (r & Hr & Hreach); [apply list_elem_of_here|].
      apply list_elem_of_singleton in Hr. subst r.
      unfold has_name. destruct (h !! x) as [n|] eqn:Hn; [|done].
      rewrite bool_decide_eq_false_2; [done|]. by eapply Habs.
Qed.

(** C7.  When no node of the tree has one of the names to remove, pruning
    ends without an exception and leaves the store and the root as they
    were, so that the tree has the same leaves and the same sum of branch
    lengths.  The tree is any finite tree held by the store, and the fuel of
    the traversal is at least its number of nodes. *)
Theorem prune_absent_names (h : gmap ref TreeNode) (t : ref) (T : shape)
    (names : list string) (fuel : nat) :
  stored h t T →
  (shape_size T ≤ fuel)%nat →
  (∀ nm x n, nm ∈ names → reach h t x → h !! x = Some n → name n ≠ nm) →
  ∃ st', prune fuel (h, t) names = Some st'
         ∧ st' = (h, t)
         ∧ leaf_names_of fuel st' = leaf_names_of fuel (h, t)
         ∧ total_dist fuel st' = total_dist fuel (h, t).
Proof.
  intros HT Hfuel Habs. exists (h, t).
  split; [|done].
  induction names as [|nm names IH]; [done|].
  simpl. unfold name_body. simpl.
  rewrite (search_nodes_absent h t T nm fuel HT Hfuel).
  - simpl. apply IH. intros nm' x n Hnm. apply Habs.
    by apply list_elem_of_further.
  - intros x n. apply Habs. apply list_elem_of_here.
Qed.

End StoredTrees.

(** ** Pruning: the scenario of the specification *)
Section PruneScenario.
Import Ete3Obj PruneTreeNodes.

Lemma scenario_stored : stored scenario_store 0%nat scenario_shape.
Proof.
  unfold scenario_shape.
  apply stored_unfold. eexists. split; [reflexivity|].
  repeat (constructor; [apply stored_unfold; eexists; split; [reflexivity|]|]);
    simpl; repeat constructor;
    apply stored_unfold; eexists; (split; [reflexivity|]); constructor.
Qed.

Lemma scenario_nodes (x : ref) :
  reach scenario_store 0%nat x → x ∈ [0; 1; 4; 2; 3; 5; 6]%nat.
Proof. apply (levelorder_complete scenario_store 7). reflexivity. Qed.

Lemma prune_absent_names_witness :
  prune 7 (scenario_store, 0%nat) ["E"; "n3"] = Some (scenario_store, 0%nat).
Proof.
  destruct (prune_absent_names scenario_store 0%nat scenario_shape
              ["E"; "n3"] 7) as (st' & Hrun & -> & _).
  - exact scenario_stored.
  - simpl. lia.
  - intros nm x n Hnm Hx Hn.
    apply scenario_nodes in Hx.
    repeat (apply elem_of_cons in Hx as [->|Hx];
            [injection Hn as <-; simpl;
             repeat (apply elem_of_cons in Hnm as [->|Hnm]; [discriminate|]);
             by apply not_elem_of_nil in Hnm|]).
    by apply not_elem_of_nil in Hx.
  - exact Hrun.
Defined.

Lemma scenario_pruned_nodes (x : ref) :
  reach scenario_pruned 0%nat x → x ∈ [0; 4; 2; 5; 6]%nat.
Proof. apply (levelorder_complete scenario_pruned 7). reflexivity. Qed.

(** C2, as the code has it.  Pruning [{B}] from
    [((A:0.1,B:0.2)n1:0.3,(C:0.4,D:0.5)n2:0.6)root;] ends without an
    exception.  Afterwards [A] is a child of the root, the last one, with
    the branch length 0.3 + 0.1 = 0.4: its distance to the root is what it
    was before.  [n1] and [B] are not in the tree any more.  The example
    in the header of the script gives another result for this very input:
    [((A:0.1)node1:0.3,(C:0.4,D:0.5)node2:0.6)root;], with [A] still below
    [node1] and its branch length the 0.1 that it was. *)
Theorem prune_scenario :
  prune 7 (scenario_store, 0%nat) ["B"] = Some (scenario_pruned, 0%nat)
  ∧ scenario_pruned !! 0%nat = Some (obj "root" 0 None [4; 2]%nat)
  ∧ scenario_pruned !! 2%nat = Some (obj "A" (0.3 + 0.1) (Some 0%nat) [])
  ∧ (0.3 + 0.1 == 0.4)%Q
  ∧ up_path scenario_store 0%nat 2%nat (0 + 0.3 + 0.1)%Q
  ∧ up_path scenario_pruned 0%nat 2%nat (0 + (0.3 + 0.1))%Q
  ∧ ¬ reach scenario_pruned 0%nat 1%nat
  ∧ ¬ reach scenario_pruned 0%nat 3%nat.
Proof.
  split; [by vm_compute|]. split; [reflexivity|]. split; [reflexivity|].
  split; [reflexivity|]. split; [|split; [|split]].
  - apply (up_path_step scenario_store 0%nat 2%nat (obj "A" 0.1 (Some 1%nat) [])
             1%nat); [lia|reflexivity|reflexivity|].
    apply (up_path_step scenario_store 0%nat 1%nat
             (obj "n1" 0.3 (Some 0%nat) [2; 3]%nat) 0%nat);
      [lia|reflexivity|reflexivity|].
    constructor.
  - apply (up_path_step scenario_pruned 0%nat 2%nat
             (obj "A" (0.3 + 0.1) (Some 0%nat) []) 0%nat);
      [lia|reflexivity|reflexivity|].
    constructor.
  - intros H. apply scenario_pruned_nodes in H.
    repeat (apply elem_of_cons in H as [H|H]; [lia|]).
    by apply not_elem_of_nil in H.
  - intros H. apply scenario_pruned_nodes in H.
    repeat (apply elem_of_cons in H as [H|H]; [lia|]).
    by apply not_elem_of_nil in H.
Qed.

(** After the pruning of [{B}] the branch length of [A] is not the 0.1
    that it was. *)
Lemma prune_scenario_branch_changed :
  prune 7 (scenario_store, 0%nat) ["B"] = Some (scenario_pruned, 0%nat)
  ∧ (dist <$> scenario_store !! 2%nat) = Some 0.1%Q
  ∧ ∃ a, scenario_pruned !! 2%nat = Some a ∧ ¬ (dist a == 0.1)%Q.
Proof.
  split; [by vm_compute|]. split; [reflexivity|].
  eexists. split; [reflexivity|]. simpl. intros H. discriminate H.
Qed.

End PruneScenario.

(** ** Pruning: one node with one sibling and a grandparent *)
Section PruneStep.
Import Ete3Obj PruneTreeNodes.

(** *** Removal from a list *)

Lemma list_remove_app x l r l2 :
  list_remove x l = Some r → list_remove x (l ++ l2) = Some (r ++ l2).
Proof.
  revert r. induction l as [|y l IH]; intros r H; simpl in *; [done|].
  case_bool_decide; [by injection H as <-|].
  destruct (list_remove x l) as [r'|]; [|done]. injection H as <-.
  by rewrite (IH r').
Qed.

Lemma list_remove_elem x l : x ∈ l → is_Some (list_remove x l).
Proof.
  induction l as [|y l IH]; intros H; [by apply not_elem_of_nil in H|].
  simpl. case_bool_decide; [by eexists|].
  apply elem_of_cons in H as [->|H]; [done|].
  destruct (IH H) as [r ->]. by eexists.
Qed.

Lemma list_remove_incl x l r y : list_remove x l = Some r → y ∈ r → y ∈ l.
Proof.
  revert r. induction l as [|z l IH]; intros r H Hy; simpl in *; [done|].
  case_bool_decide; [injection H as <-; by apply list_elem_of_further|].
  destruct (list_remove x l) as [r'|]; [|done]. injection H as <-.
  apply elem_of_cons in Hy as [->|Hy]; [apply list_elem_of_here|].
  apply list_elem_of_further. by apply (IH r').
Qed.

Lemma list_remove_NoDup x l r : NoDup l → list_remove x l = Some r → x ∉ r.
Proof.
  revert r. induction l as [|z l IH]; intros r Hnd H; simpl in *; [done|].
  apply NoDup_cons in Hnd as [Hz Hnd].
  case_bool_decide; [injection H as <-; by subst|].
  destruct (list_remove x l) as [r'|]; [|done]. injection H as <-.
  apply not_elem_of_cons. split; [done|]. by apply IH.
Qed.

(** A list without repetition that holds [x], and [s] as only other
    element, is [[x; s]] or [[s; x]]. *)
Lemma two_elements (x s : ref) (l : list ref) :
  NoDup l → x ∈ l → filter (λ ch, ch ≠ x) l = [s] →
  l = [x; s] ∨ l = [s; x].
Proof.
  intros Hnd Hx Hf.
  assert (Hrest : ∀ l' : list ref, NoDup l' →
            filter (λ ch, ch ≠ x) l' = [] → l' = [] ∨ l' = [x]).
  { clear. intros l' Hnd Hf. destruct l' as [|a l']; [by left|right].
    apply NoDup_cons in Hnd as [Ha Hnd].
    destruct (decide (a = x)) as [->|Hne].
    - rewrite filter_cons_False in Hf by (intros H; by apply H).
      destruct l' as [|b l']; [done|].
      destruct (decide (b = x)) as [->|Hb].
      + exfalso. apply Ha, list_elem_of_here.
      + by rewrite filter_cons_True in Hf.
    - by rewrite filter_cons_True in Hf. }
  destruct l as [|a l]; [by apply not_elem_of_nil in Hx|].
  apply NoDup_cons in Hnd as [Ha Hnd].
  destruct (decide (a = x)) as [->|Hne].
  - left. rewrite filter_cons_False in Hf by (intros H; by apply H).
    f_equal. rewrite <- Hf. symmetry. apply filter_all.
    intros y Hy ->. done.
  - right. rewrite filter_cons_True in Hf by done.
    injection Hf as -> Hf. f_equal.
    apply elem_of_cons in Hx as [->|Hx]; [done|].
    destruct (Hrest l Hnd Hf) as [->| ->]; [by apply not_elem_of_nil in Hx|done].
Qed.

(** *** The operations of ete3, by what they store *)

Lemma detach_store h x n p pn l :
  h !! x = Some n → up n = Some p → h !! p = Some pn → x ≠ p →
  list_remove x (children pn) = Some l →
  detach h x = Some (<[x := set_up None n]> (<[p := set_children l pn]> h)).
Proof.
  intros Hx Hup Hp Hne Hl. unfold detach.
  rewrite Hx. simpl. rewrite Hup, Hp. simpl. rewrite Hl. simpl.
  rewrite lookup_insert_ne by done. by rewrite Hx.
Qed.

Lemma remove_child_store h p pn c cn l :
  h !! p = Some pn → h !! c = Some cn → c ≠ p →
  list_remove c (children pn) = Some l →
  remove_child h p c
  = Some (<[c := set_up None cn]> (<[p := set_children l pn]> h)).
Proof.
  intros Hp Hc Hne Hl. unfold remove_child.
  rewrite Hp. simpl. rewrite Hl. simpl.
  rewrite lookup_insert_ne by done. by rewrite Hc.
Qed.

Lemma add_child_dist_store h p pn c cn q :
  h !! c = Some cn → h !! p = Some pn → c ≠ p →
  add_child h p c (Some q)
  = Some (<[c := set_up (Some p) (set_dist q cn)]>
            (<[p := set_children (children pn ++ [c]) pn]> h)).
Proof.
  intros Hc Hp Hne. unfold add_child. rewrite Hc. simpl.
  rewrite lookup_insert_ne by done. rewrite Hp. simpl.
  rewrite lookup_insert_ne by done. rewrite lookup_insert_eq. simpl.
  f_equal. apply map_eq. intros y.
  destruct (decide (y = c)) as [->|Hyc].
  - by rewrite !lookup_insert_eq.
  - rewrite !(lookup_insert_ne _ c) by done.
    destruct (decide (y = p)) as [->|Hyp].
    + by rewrite !lookup_insert_eq.
    + rewrite !(lookup_insert_ne _ p) by done.
      by rewrite lookup_insert_ne by done.
Qed.

Lemma add_child_store h p pn c cn :
  h !! c = Some cn → h !! p = Some pn → c ≠ p →
  add_child h p c None
  = Some (<[c := set_up (Some p) cn]>
            (<[p := set_children (children pn ++ [c]) pn]> h)).
Proof.
  intros Hc Hp Hne. unfold add_child. rewrite Hc. simpl.
  rewrite Hp. simpl. rewrite lookup_insert_ne by done. by rewrite Hc.
Qed.

(** [for ch in chs: p.add_child(ch)]: the children come at the end of
    the list of [p], each with [p] as its parent, and nothing else
    changes. *)
Lemma add_children_store chs :
  ∀ h p pn,
    h !! p = Some pn → p ∉ chs → NoDup chs →
    (∀ c, c ∈ chs → is_Some (h !! c)) →
    ∃ h', add_children h p chs = Some h'
          ∧ h' !! p = Some (set_children (children pn ++ chs) pn)
          ∧ (∀ c, c ∈ chs →
               ∃ cn, h !! c = Some cn ∧ h' !! c = Some (set_up (Some p) cn))
          ∧ (∀ y, y ≠ p → y ∉ chs → h' !! y = h !! y).
Proof.
  induction chs as [|c chs IH]; intros h p pn Hp Hpc Hnd Hin.
  - exists h. simpl. split; [done|]. split.
    + rewrite app_nil_r. by destruct pn.
    + split; [|done]. intros c Hc. by apply not_elem_of_nil in Hc.
  - apply not_elem_of_cons in Hpc as [Hpc Hpchs].
    apply NoDup_cons in Hnd as [Hc Hnd].
    destruct (Hin c) as [cn Hcn]; [apply list_elem_of_here|].
    simpl. rewrite (add_child_store h p pn c cn) by done. simpl.
    set (h1 := <[c := set_up (Some p) cn]>
                 (<[p := set_children (children pn ++ [c]) pn]> h)).
    destruct (IH h1 p (set_children (children pn ++ [c]) pn))
      as (h' & Hrun & Hp' & Hchs & Hframe).
    + unfold h1. rewrite lookup_insert_ne by done. apply lookup_insert_eq.
    + done.
    + done.
    + intros c' Hc'. unfold h1.
      assert (c' ≠ c) by (intros ->; done).
      assert (c' ≠ p) by (intros ->; done).
      rewrite !lookup_insert_ne by done. apply Hin.
      by apply list_elem_of_further.
    + exists h'. split; [done|]. split; [|split].
      * rewrite Hp'. simpl. unfold set_children. simpl.
        by rewrite <- app_assoc.
      * intros c' Hc'. apply elem_of_cons in Hc' as [->|Hc'].
        -- exists cn. split; [done|]. rewrite Hframe by done.
           unfold h1. apply lookup_insert_eq.
        -- destruct (Hchs c' Hc') as (cn' & Hcn' & Hres).
           exists cn'. split; [|done]. unfold h1 in Hcn'.
           assert (c' ≠ c) by (intros ->; done).
           assert (c' ≠ p) by (intros ->; done).
           by rewrite !lookup_insert_ne in Hcn' by done.
      * intros y Hyp Hy. apply not_elem_of_cons in Hy as [Hyc Hy].
        rewrite Hframe by done. unfold h1.
        by rewrite !lookup_insert_ne by done.
Qed.

(** The first half of [x.delete()] for a node with a parent. *)
Lemma delete_unlink_store h x n p pn l :
  h !! x = Some n → up n = Some p → h !! p = Some pn → x ≠ p →
  p ∉ children n → x ∉ children n → NoDup (children n) →
  (∀ c, c ∈ children n → is_Some (h !! c)) →
  list_remove x (children pn) = Some l →
  ∃ h', delete_unlink h x = Some (h', Some p)
        ∧ h' !! x = Some (set_up None n)
        ∧ h' !! p = Some (set_children (l ++ children n) pn)
        ∧ (∀ c, c ∈ children n →
             ∃ cn, h !! c = Some cn ∧ h' !! c = Some (set_up (Some p) cn))
        ∧ (∀ y, y ≠ x → y ≠ p → y ∉ children n → h' !! y = h !! y).
Proof.
  intros Hx Hup Hp Hne Hpc Hxc Hnd Hin Hl.
  destruct (add_children_store (children n) h p pn Hp Hpc Hnd Hin)
    as (h1 & Hrun & Hp1 & Hchs & Hframe).
  assert (Hx1 : h1 !! x = Some n) by (by rewrite Hframe).
  unfold delete_unlink. rewrite Hx. simpl. rewrite Hup, Hrun. simpl.
  rewrite (remove_child_store h1 p _ x n (l ++ children n) Hp1 Hx1 Hne)
    by (by apply list_remove_app).
  simpl. eexists. split; [reflexivity|]. split; [apply lookup_insert_eq|].
  split; [|split].
  - rewrite lookup_insert_ne by done. rewrite lookup_insert_eq. done.
  - intros c Hc. destruct (Hchs c Hc) as (cn & Hcn & Hc1).
    exists cn. split; [done|].
    assert (c ≠ x) by (intros ->; done).
    assert (c ≠ p) by (intros ->; done).
    by rewrite !lookup_insert_ne by done.
  - intros y Hyx Hyp Hy. rewrite !lookup_insert_ne by done. by apply Hframe.
Qed.

Lemma wf_NoDup h depth x n :
  wf_store h depth → h !! x = Some n → NoDup (children n).
Proof. intros Hwf Hx. by destruct (Hwf x n Hx). Qed.

Lemma wf_child h depth x n c :
  wf_store h depth → h !! x = Some n → c ∈ children n →
  ∃ cn, h !! c = Some cn ∧ up cn = Some x.
Proof.
  intros Hwf Hx Hc. destruct (Hwf x n Hx) as (_ & Hall & _).
  rewrite Forall_forall in Hall. specialize (Hall c Hc).
  destruct (h !! c) as [cn|]; [|done]. exists cn. split; [done|].
  simpl in Hall. congruence.
Qed.

Lemma wf_up h depth c cn p :
  wf_store h depth → h !! c = Some cn → up cn = Some p →
  ∃ pn, h !! p = Some pn ∧ c ∈ children pn ∧ depth c = S (depth p).
Proof.
  intros Hwf Hc Hup. destruct (Hwf c cn Hc) as (_ & _ & Hp).
  rewrite Hup in Hp. destruct Hp as [Hin Hd].
  destruct (h !! p) as [pn|]; [|by apply not_elem_of_nil in Hin].
  by exists pn.
Qed.

(** Below a node are the node itself and nodes of deeper levels. *)
Lemma reach_depth h depth x y :
  wf_store h depth → reach h x y →
  y = x ∨ (depth x < depth y)%nat.
Proof.
  intros Hwf Hreach. induction Hreach as [|y n z _ IH Hy Hz]; [by left|].
  right. destruct (wf_child h depth y n z Hwf Hy Hz) as (zn & Hzn & Hzup).
  destruct (wf_up h depth z zn y Hwf Hzn Hzup) as (_ & _ & _ & Hd).
  destruct IH as [->|IH]; lia.
Qed.

Section SoleSibling.

Variables (h : gmap ref TreeNode) (depth : ref → nat).
Variables (t node parent sibling grandparent : ref).
Variables (tn n pn sn : TreeNode).

Hypothesis Hwf : wf_store h depth.
Hypothesis Ht : h !! t = Some tn.
Hypothesis Htup : up tn = None.
Hypothesis Hnode : h !! node = Some n.
Hypothesis Hnup : up n = Some parent.
Hypothesis Hparent : h !! parent = Some pn.
Hypothesis Hpup : up pn = Some grandparent.
Hypothesis Hsis : get_sisters h node = Some [sibling].
Hypothesis Hsibling : h !! sibling = Some sn.

Lemma sisters_filter : filter (λ ch, ch ≠ node) (children pn) = [sibling].
Proof.
  unfold get_sisters in Hsis. rewrite Hnode in Hsis. simpl in Hsis.
  rewrite Hnup, Hparent in Hsis. simpl in Hsis. by injection Hsis.
Qed.

Lemma node_in_parent :
  node ∈ children pn ∧ depth node = S (depth parent).
Proof.
  destruct (wf_up h depth node n parent Hwf Hnode Hnup) as (pn' & Hp & ?).
  rewrite Hparent in Hp. by injection Hp as <-.
Qed.

Lemma sibling_ne_node : sibling ≠ node.
Proof.
  assert (H : sibling ∈ filter (λ ch, ch ≠ node) (children pn)).
  { rewrite sisters_filter. apply list_elem_of_here. }
  by apply list_elem_of_filter in H as [H _].
Qed.

Lemma parent_children :
  children pn = [node; sibling] ∨ children pn = [sibling; node].
Proof.
  apply two_elements.
  - by eapply wf_NoDup.
  - apply node_in_parent.
  - apply sisters_filter.
Qed.

Lemma sibling_in_parent : sibling ∈ children pn.
Proof.
  destruct parent_children as [-> | ->];
    [apply list_elem_of_further|]; apply list_elem_of_here.
Qed.

Lemma sibling_up :
  up sn = Some parent ∧ depth sibling = S (depth parent).
Proof.
  destruct (wf_child h depth parent pn sibling Hwf Hparent sibling_in_parent)
    as (sn' & Hs & Hup).
  rewrite Hsibling in Hs. injection Hs as <-. split; [done|].
  by destruct (wf_up h depth sibling sn parent Hwf Hsibling Hup) as (_ & _ & _ & ?).
Qed.

Lemma grandparent_node :
  ∃ gn, h !! grandparent = Some gn ∧ parent ∈ children gn
        ∧ depth parent = S (depth grandparent).
Proof. by apply (wf_up h depth parent pn). Qed.

Lemma remove_sibling : list_remove sibling (children pn) = Some [node].
Proof.
  pose proof sibling_ne_node as Hne.
  destruct parent_children as [-> | ->]; simpl.
  - rewrite bool_decide_eq_false_2 by done.
    by rewrite bool_decide_eq_true_2.
  - by rewrite bool_decide_eq_true_2.
Qed.

Lemma node_children c :
  c ∈ children n →
  ∃ cn, h !! c = Some cn ∧ up cn = Some node ∧ depth c = S (depth node).
Proof.
  intros Hc. destruct (wf_child h depth node n c Hwf Hnode Hc) as (cn & Hcn & Hup).
  exists cn. split; [done|]. split; [done|].
  by destruct (wf_up h depth c cn node Hwf Hcn Hup) as (_ & _ & _ & ?).
Qed.

(** The four nodes are on three levels, and the children of the removed
    node on a fourth. *)
Lemma levels :
  depth parent = S (depth grandparent)
  ∧ depth node = S (S (depth grandparent))
  ∧ depth sibling = S (S (depth grandparent))
  ∧ ∀ c, c ∈ children n → depth c = S (S (S (depth grandparent))).
Proof.
  destruct grandparent_node as (gn & _ & _ & Hp).
  destruct node_in_parent as [_ Hn]. destruct sibling_up as [_ Hs].
  split; [done|]. split; [lia|]. split; [lia|].
  intros c Hc. destruct (node_children c Hc) as (_ & _ & _ & Hd). lia.
Qed.

Lemma not_child x :
  depth x ≠ S (S (S (depth grandparent))) → x ∉ children n.
Proof. intros Hd Hx. destruct levels as (_ & _ & _ & Hc). by apply Hd, Hc. Qed.

Lemma distinct :
  sibling ≠ node ∧ sibling ≠ parent ∧ sibling ≠ grandparent
  ∧ node ≠ parent ∧ node ≠ grandparent ∧ parent ≠ grandparent.
Proof.
  destruct levels as (Hp & Hn & Hs & _).
  split; [apply sibling_ne_node|].
  repeat split; intros E; rewrite E in *; lia.
Qed.

Section Run.

Variable gn : TreeNode.
Hypothesis Hgrand : h !! grandparent = Some gn.

Local Abbreviation rc :=
  (reconnected h node parent sibling grandparent pn sn gn).

Lemma reconnect_run :
  node_body (h, t) node
  = (h' ← delete rc node true; Some (h', t)).
Proof.
  destruct distinct as (Hsn & Hsp & Hsg & Hnp & Hng & Hpg).
  unfold node_body. simpl. rewrite Hnode. simpl. rewrite Hnup, Hsis. simpl.
  rewrite Hparent. simpl. rewrite Hpup.
  rewrite (detach_store h sibling sn parent pn [node] Hsibling
             (proj1 sibling_up) Hparent Hsp remove_sibling).
  simpl. rewrite (lookup_insert_ne _ sibling parent) by done.
  rewrite !lookup_insert_eq. simpl.
  rewrite (add_child_dist_store _ grandparent gn sibling (set_up None sn)).
  - done.
  - apply lookup_insert_eq.
  - by rewrite !lookup_insert_ne by done.
  - done.
Qed.

Lemma reconnected_sibling :
  rc !! sibling
  = Some {| name := name sn; dist := (dist pn + dist sn)%Q;
            up := Some grandparent; children := children sn |}.
Proof. unfold reconnected. by rewrite lookup_insert_eq. Qed.

Lemma reconnected_grandparent :
  rc !! grandparent
  = Some (set_children (children gn ++ [sibling]) gn).
Proof.
  destruct distinct as (Hsn & Hsp & Hsg & Hnp & Hng & Hpg).
  unfold reconnected. rewrite lookup_insert_ne by done.
  by rewrite lookup_insert_eq.
Qed.

Lemma reconnected_parent :
  rc !! parent = Some (set_children [node] pn).
Proof.
  destruct distinct as (Hsn & Hsp & Hsg & Hnp & Hng & Hpg).
  unfold reconnected. rewrite (lookup_insert_ne _ sibling parent) by done.
  rewrite (lookup_insert_ne _ grandparent parent) by done.
  rewrite (lookup_insert_ne _ sibling parent) by done.
  by rewrite lookup_insert_eq.
Qed.

Lemma reconnected_other y :
  y ≠ sibling → y ≠ grandparent → y ≠ parent → rc !! y = h !! y.
Proof.
  intros. unfold reconnected. by rewrite !lookup_insert_ne by done.
Qed.

Lemma reconnected_child c :
  c ∈ children n → ∃ cn, h !! c = Some cn ∧ rc !! c = Some cn.
Proof.
  intros Hc. destruct levels as (Hp & Hn & Hs & Hkids).
  specialize (Hkids c Hc).
  destruct (node_children c Hc) as (cn & Hcn & _). exists cn. split; [done|].
  rewrite reconnected_other; [done|intros E; rewrite E in *; lia..].
Qed.

(** The removed node leaves its parent, which takes its children. *)
Lemma unlink_node :
  ∃ h4, delete_unlink rc node = Some (h4, Some parent)
        ∧ h4 !! node = Some (set_up None n)
        ∧ h4 !! parent = Some (set_children (children n) pn)
        ∧ (∀ c, c ∈ children n →
             ∃ cn, h !! c = Some cn ∧ h4 !! c = Some (set_up (Some parent) cn))
        ∧ (∀ y, y ≠ node → y ≠ parent → y ∉ children n →
                h4 !! y = rc !! y).
Proof.
  destruct distinct as (Hsn & Hsp & Hsg & Hnp & Hng & Hpg).
  destruct levels as (Hp & Hn & Hs & Hkids).
  destruct (delete_unlink_store rc node n parent
              (set_children [node] pn) [])
    as (h4 & Hrun & Hn4 & Hp4 & Hc4 & Hframe).
  - by rewrite reconnected_other.
  - done.
  - apply reconnected_parent.
  - done.
  - apply not_child. lia.
  - apply not_child. lia.
  - by eapply wf_NoDup.
  - intros c Hc. destruct (reconnected_child c Hc) as (cn & _ & ->).
    by eexists.
  - simpl. by rewrite bool_decide_eq_true_2.
  - exists h4. split; [done|]. split; [done|]. split; [done|].
    split; [|done]. intros c Hc.
    destruct (Hc4 c Hc) as (cn & Hcn & Hcn4).
    destruct (reconnected_child c Hc) as (cn' & Hcn' & Hrc).
    exists cn'. split; [done|]. congruence.
Qed.

Lemma set_up_same (x : TreeNode) : set_up (up x) x = x.
Proof. by destruct x. Qed.

(** The store after the body of the loop.  The parent keeps the children
    of the removed node when there are two or more of them, and otherwise
    hands them to the grandparent and leaves it. *)
Lemma node_body_store :
  ∃ h' gl pu,
    node_body (h, t) node = Some (h', t)
    ∧ h' !! sibling
      = Some {| name := name sn; dist := (dist pn + dist sn)%Q;
                up := Some grandparent; children := children sn |}
    ∧ h' !! grandparent = Some (set_children gl gn)
    ∧ h' !! parent = Some (set_up pu (set_children (children n) pn))
    ∧ h' !! node = Some (set_up None n)
    ∧ (∀ c, c ∈ children n →
         ∃ cn u, h !! c = Some cn ∧ h' !! c = Some (set_up u cn))
    ∧ (∀ y, y ≠ sibling → y ≠ grandparent → y ≠ parent → y ≠ node →
            y ∉ children n → h' !! y = h !! y)
    ∧ (((2 ≤ length (children n))%nat
        ∧ gl = children gn ++ [sibling] ∧ pu = Some grandparent)
       ∨ ((length (children n) < 2)%nat ∧ pu = None
          ∧ ∃ lg, list_remove parent (children gn) = Some lg
                  ∧ gl = lg ++ [sibling] ++ children n)).
Proof.
  destruct distinct as (Hsn & Hsp & Hsg & Hnp & Hng & Hpg).
  destruct levels as (Hp & Hn & Hs & Hkids).
  destruct unlink_node as (h4 & Hrun4 & Hn4 & Hp4 & Hc4 & Hframe4).
  assert (Hs4 : h4 !! sibling = rc !! sibling).
  { apply Hframe4; [done|done|]. apply not_child. lia. }
  assert (Hg4 : h4 !! grandparent = rc !! grandparent).
  { apply Hframe4; [done|done|]. apply not_child. lia. }
  rewrite reconnected_sibling in Hs4. rewrite reconnected_grandparent in Hg4.
  rewrite reconnect_run. unfold delete. rewrite Hrun4. simpl.
  rewrite Hp4. simpl.
  destruct (Nat.ltb_spec (length (children n)) 2) as [Hlt|Hge].
  - (* fewer than two children: the parent is unlinked as well *)
    destruct grandparent_node as (gn' & Hgn' & Hpin & _).
    rewrite Hgrand in Hgn'. injection Hgn' as <-.
    destruct (list_remove_elem parent (children gn) Hpin) as [lg Hlg].
    destruct (delete_unlink_store h4 parent (set_children (children n) pn)
                grandparent (set_children (children gn ++ [sibling]) gn)
                (lg ++ [sibling]))
      as (h5 & Hrun5 & Hp5 & Hg5 & Hc5 & Hframe5).
    + done.
    + done.
    + done.
    + done.
    + apply not_child. lia.
    + apply not_child. lia.
    + simpl. by eapply wf_NoDup.
    + intros c Hc. destruct (Hc4 c Hc) as (cn & _ & ->). by eexists.
    + simpl. by apply list_remove_app.
    + rewrite Hrun5. simpl.
      exists h5, (lg ++ [sibling] ++ children n), None.
      split; [done|]. split; [|split; [|split; [|split; [|split; [|split]]]]].
      * rewrite Hframe5; [done|done|done|]. apply not_child. lia.
      * rewrite Hg5. simpl. unfold set_children. simpl.
        by rewrite <- app_assoc.
      * done.
      * rewrite Hframe5; [done|done|done|]. apply not_child. lia.
      * intros c Hc. destruct (Hc4 c Hc) as (cn & Hcn & Hcn4).
        destruct (Hc5 c Hc) as (cn4 & Hcn4' & Hcn5).
        rewrite Hcn4 in Hcn4'. injection Hcn4' as <-.
        exists cn, (Some grandparent). split; [done|].
        rewrite Hcn5. done.
      * intros y Hys Hyg Hyp Hyn Hyc.
        rewrite Hframe5 by done. rewrite Hframe4 by done.
        by apply reconnected_other.
      * right. split; [done|]. split; [done|]. by exists lg.
  - exists h4, (children gn ++ [sibling]), (Some grandparent).
    split; [done|]. split; [done|]. split; [done|].
    split; [|split; [|split; [|split]]].
    + rewrite Hp4. f_equal. rewrite <- Hpup.
      symmetry. apply (set_up_same (set_children (children n) pn)).
    + done.
    + intros c Hc. destruct (Hc4 c Hc) as (cn & Hcn & Hcn4).
      by exists cn, (Some parent).
    + intros y Hys Hyg Hyp Hyn Hyc. rewrite Hframe4 by done.
      by apply reconnected_other.
    + left. done.
Qed.

Lemma root_ne : t ≠ node ∧ t ≠ parent.
Proof.
  split; intros E; rewrite E in Ht.
  - rewrite Hnode in Ht. injection Ht as <-. congruence.
  - rewrite Hparent in Ht. injection Ht as <-. congruence.
Qed.

(** All that the theorem on a sole sibling says, with the node of the
    grandparent at hand. *)
Lemma node_body_result :
  ∃ h' sn' gn',
    node_body (h, t) node = Some (h', t)
    ∧ h' !! sibling = Some sn'
    ∧ up sn' = Some grandparent
    ∧ dist sn' = (dist pn + dist sn)%Q
    ∧ name sn' = name sn
    ∧ children sn' = children sn
    ∧ h' !! grandparent = Some gn'
    ∧ sibling ∈ children gn'
    ∧ (∀ l, reach h sibling l →
         ∃ q q', up_path h grandparent l q ∧ up_path h' grandparent l q'
                 ∧ (q == q')%Q)
    ∧ (∀ l, reach h sibling l → l ≠ sibling → h' !! l = h !! l)
    ∧ ¬ reach h' t node
    ∧ ((length (children n) < 2)%nat → ¬ reach h' t parent)
    ∧ ((2 ≤ length (children n))%nat →
         parent ∈ children gn'
         ∧ ∃ pn', h' !! parent = Some pn' ∧ children pn' = children n
                  ∧ up pn' = Some grandparent).
Proof.
  destruct distinct as (Hsn & Hsp & Hsg & Hnp & Hng & Hpg).
  destruct levels as (Hp & Hn & Hs & Hkids).
  destruct root_ne as [Htn Htp].
  destruct grandparent_node as (gn0 & Hgn0 & Hpin & _).
  rewrite Hgrand in Hgn0. injection Hgn0 as <-.
  destruct node_body_store
    as (h' & gl & pu & Hrun & Hs' & Hg' & Hp' & Hn' & Hc' & Hframe & Hcase).
  (* the children of every node after the step *)
  assert (Hch : ∀ y yn', h' !! y = Some yn' →
            (y = grandparent ∧ children yn' = gl)
            ∨ (y = parent ∧ children yn' = children n)
            ∨ (y ≠ grandparent ∧ y ≠ parent
               ∧ ∃ yn, h !! y = Some yn ∧ children yn' = children yn)).
  { intros y yn' Hy.
    destruct (decide (y = grandparent)) as [->|Hyg].
    { left. rewrite Hg' in Hy. by injection Hy as <-. }
    destruct (decide (y = parent)) as [->|Hyp].
    { right. left. rewrite Hp' in Hy. by injection Hy as <-. }
    right. right. split; [done|]. split; [done|].
    destruct (decide (y = sibling)) as [->|Hys].
    { rewrite Hs' in Hy. injection Hy as <-. by exists sn. }
    destruct (decide (y = node)) as [->|Hyn].
    { rewrite Hn' in Hy. injection Hy as <-. by exists n. }
    destruct (decide (y ∈ children n)) as [Hyc|Hyc].
    { destruct (Hc' y Hyc) as (cn & u & Hcn & Hcn').
      rewrite Hcn' in Hy. injection Hy as <-. by exists cn. }
    exists yn'. split; [|done]. by rewrite <- Hframe. }
  (* what the list of the grandparent holds *)
  assert (Hgl : ∀ x, x ∈ gl → x ∈ children gn ∨ x = sibling ∨ x ∈ children n).
  { intros x Hx. destruct Hcase as [(_ & -> & _)|(_ & _ & lg & Hlg & ->)].
    - apply elem_of_app in Hx as [Hx|Hx]; [by left|].
      apply list_elem_of_singleton in Hx. by right; left.
    - apply elem_of_app in Hx as [Hx|Hx];
        [left; by eapply list_remove_incl|].
      apply elem_of_app in Hx as [Hx|Hx]; [|by right; right].
      apply list_elem_of_singleton in Hx. by right; left. }
  assert (Hnode_gone : ∀ y yn', h' !! y = Some yn' → node ∉ children yn').
  { intros y yn' Hy Hin.
    destruct (Hch y yn' Hy) as [[-> Hl]|[[-> Hl]|(Hyg & Hyp & yn & Hyn & Hl)]];
      rewrite Hl in Hin.
    - destruct (Hgl node Hin) as [Hx|[Hx|Hx]]; [|done|].
      + destruct (wf_child h depth grandparent gn node Hwf Hgrand Hx)
          as (n0 & Hn0 & Hup0).
        rewrite Hnode in Hn0. injection Hn0 as <-. congruence.
      + revert Hx. apply not_child. lia.
    - revert Hin. apply not_child. lia.
    - destruct (wf_child h depth y yn node Hwf Hyn Hin) as (n0 & Hn0 & Hup0).
      rewrite Hnode in Hn0. injection Hn0 as <-. congruence. }
  exists h', {| name := name sn; dist := (dist pn + dist sn)%Q;
               up := Some grandparent; children := children sn |},
         (set_children gl gn).
  split; [done|]. split; [done|]. split; [done|]. split; [done|].
  split; [done|]. split; [done|]. split; [done|].
  assert (Hsub : ∀ l, reach h sibling l → l ≠ sibling →
            h' !! l = h !! l ∧ l ≠ grandparent
            ∧ (depth sibling < depth l)%nat).
  { intros l Hl Hne.
    destruct (reach_depth h depth sibling l Hwf Hl) as [?|Hd]; [done|].
    split; [|split; [intros E; rewrite E in *; lia|done]].
    apply Hframe; try (intros E; rewrite E in *; lia).
    intros Hlc. destruct (node_children l Hlc) as (ln & Hln & Hlup & _).
    inversion Hl as [|y yn z Hy Hyn Hz]; subst; [done|].
    destruct (wf_child h depth y yn l Hwf Hyn Hz) as (ln' & Hln' & Hup').
    rewrite Hln in Hln'. injection Hln' as <-.
    assert (y = node) by congruence. subst y.
    destruct (reach_depth h depth sibling node Hwf Hy) as [?|?]; [done|lia]. }
  split; [|split; [|split; [|split; [|split]]]].
  - simpl. destruct Hcase as [(_ & -> & _)|(_ & _ & lg & Hlg & ->)].
    + apply elem_of_app. right. apply list_elem_of_here.
    + apply elem_of_app. right. apply list_elem_of_here.
  - intros l Hl. induction Hl as [|y yn z Hy IH Hyn Hz].
    + exists (0 + dist pn + dist sn)%Q, (0 + (dist pn + dist sn))%Q.
      split; [|split; [|ring]].
      * apply (up_path_step h grandparent sibling sn parent);
          [done|done|apply sibling_up|].
        apply (up_path_step h grandparent parent pn grandparent);
          [done|done|done|constructor].
      * apply (up_path_step h' grandparent sibling
                 {| name := name sn; dist := (dist pn + dist sn)%Q;
                    up := Some grandparent; children := children sn |}
                 grandparent); [done|done|done|constructor].
    + destruct IH as (q & q' & Hq & Hq' & Heq).
      destruct (wf_child h depth y yn z Hwf Hyn Hz) as (zn & Hzn & Hzup).
      assert (Hz' : reach h sibling z) by (by eapply reach_step).
      destruct (wf_up h depth z zn y Hwf Hzn Hzup) as (_ & _ & _ & Hdz).
      assert (z ≠ sibling).
      { destruct (reach_depth h depth sibling y Hwf Hy) as [->|?];
          intros E; rewrite E in *; lia. }
      destruct (Hsub z Hz') as (Hzframe & Hzg & _); [done|].
      exists (q + dist zn)%Q, (q' + dist zn)%Q.
      split; [|split; [|by rewrite Heq]].
      * by apply (up_path_step h grandparent z zn y).
      * apply (up_path_step h' grandparent z zn y); [done| |done|done].
        by rewrite Hzframe.
  - intros l Hl Hne. by apply Hsub.
  - intros Hreach. inversion Hreach as [|y yn z Hy Hyn Hz]; subst; [done|].
    by apply (Hnode_gone y yn).
  - intros Hlt Hreach.
    destruct Hcase as [(? & _)|(_ & _ & lg & Hlg & ->)]; [lia|].
    inversion Hreach as [|y yn' z Hy Hyn Hz]; subst; [done|].
    destruct (Hch y yn' Hyn) as [[-> Hl]|[[-> Hl]|(Hyg & Hyp & yn & Hyn0 & Hl)]];
      rewrite Hl in Hz.
    + apply elem_of_app in Hz as [Hz|Hz].
      * revert Hz. apply (list_remove_NoDup parent (children gn)); [|done].
        by eapply wf_NoDup.
      * apply elem_of_app in Hz as [Hz|Hz].
        -- apply list_elem_of_singleton in Hz. done.
        -- revert Hz. apply not_child. lia.
    + revert Hz. apply not_child. lia.
    + destruct (wf_child h depth y yn parent Hwf Hyn0 Hz) as (p0 & Hp0 & Hup0).
      rewrite Hparent in Hp0. injection Hp0 as <-. congruence.
  - intros Hge. destruct Hcase as [(_ & -> & ->)|(? & _)]; [|lia].
    split.
    + simpl. apply elem_of_app. by left.
    + eexists. split; [exact Hp'|]. done.
Qed.

End Run.

End SoleSibling.

(** The way up to an ancestor and its sum are determined. *)
Lemma up_path_unique h a x q1 q2 :
  up_path h a x q1 → up_path h a x q2 → q1 = q2.
Proof.
  intros H1. revert q2. induction H1 as [|x n p q Hne Hx Hup _ IH];
    intros q2 H2; inversion H2 as [|x' n' p' q' Hne' Hx' Hup' Hp']; subst;
    try done.
  rewrite Hx in Hx'. injection Hx' as <-.
  rewrite Hup in Hup'. injection Hup' as <-.
  by rewrite (IH q').
Qed.

Lemma node_ok_dec h depth x n : Decision (node_ok h depth x n).
Proof.
  unfold node_ok. apply and_dec; [apply _|]. apply and_dec; [apply _|].
  destruct (up n); apply _.
Defined.

Lemma wf_store_dec h depth : Decision (wf_store h depth).
Proof.
  unfold wf_store. apply map_Forall_dec. intros. apply node_ok_dec.
Defined.


End PruneStep.

(** ** Pruning: a leaf and an internal node with one sibling *)
Section PruneStepScenarios.
Import Ete3Obj PruneTreeNodes.



End PruneStepScenarios.

(* ===================================================================== *)
(** * Part IV: further properties of the scripts *)
(* ===================================================================== *)

(** ** Pruning: what no step changes *)
Section PruneNames.
Import Ete3Obj PruneTreeNodes.

Lemma same_names_refl h : same_names h h.
Proof. by intros x. Qed.

(** Writing an object back under its name keeps the names. *)
Lemma same_names_step h h1 x n n' :
  same_names h h1 → h1 !! x = Some n → name n' = name n →
  same_names h (<[x := n']> h1).
Proof.
  intros H Hx Hn y. destruct (decide (y = x)) as [->|Hne].
  - rewrite lookup_insert_eq. rewrite <- H, Hx. simpl. by rewrite Hn.
  - rewrite lookup_insert_ne by done. apply H.
Qed.

Lemma same_names_trans h1 h2 h3 :
  same_names h1 h2 → same_names h2 h3 → same_names h1 h3.
Proof. intros H12 H23 x. by rewrite H23, H12. Qed.

Lemma detach_names h x h' : detach h x = Some h' → same_names h h'.
Proof.
  unfold detach. intros H.
  destruct (h !! x) as [n|] eqn:Hx; simpl in H; [|done].
  destruct (up n) as [p|]; [|injection H as <-; apply same_names_refl].
  destruct (h !! p) as [pn|] eqn:Hp; simpl in H; [|done].
  destruct (list_remove x (children pn)) as [l|]; simpl in H; [|done].
  destruct (<[p:=set_children l pn]> h !! x) as [n1|] eqn:Hx1;
    simpl in H; [|done].
  injection H as <-.
  eapply same_names_step; [|exact Hx1|done].
  eapply same_names_step; [apply same_names_refl|exact Hp|done].
Qed.

Lemma add_child_names h p c d h' :
  add_child h p c d = Some h' → same_names h h'.
Proof.
  unfold add_child. intros H.
  destruct (h !! c) as [cn|] eqn:Hc; simpl in H; [|done].
  set (h1 := match d with
             | Some q => <[c:=set_dist q cn]> h
             | None => h
             end) in *.
  assert (H1 : same_names h h1).
  { unfold h1. destruct d; [|apply same_names_refl].
    eapply same_names_step; [apply same_names_refl|exact Hc|done]. }
  destruct (h1 !! p) as [pn|] eqn:Hp; simpl in H; [|done].
  destruct (<[p:=set_children (children pn ++ [c]) pn]> h1 !! c)
    as [cn1|] eqn:Hc1; simpl in H; [|done].
  injection H as <-.
  eapply same_names_step; [|exact Hc1|done].
  eapply same_names_step; [exact H1|exact Hp|done].
Qed.

Lemma remove_child_names h p c h' :
  remove_child h p c = Some h' → same_names h h'.
Proof.
  unfold remove_child. intros H.
  destruct (h !! p) as [pn|] eqn:Hp; simpl in H; [|done].
  destruct (list_remove c (children pn)) as [l|]; simpl in H; [|done].
  destruct (<[p:=set_children l pn]> h !! c) as [cn|] eqn:Hc;
    simpl in H; [|done].
  injection H as <-.
  eapply same_names_step; [|exact Hc|done].
  eapply same_names_step; [apply same_names_refl|exact Hp|done].
Qed.

Lemma add_children_names chs :
  ∀ h p h', add_children h p chs = Some h' → same_names h h'.
Proof.
  induction chs as [|c chs IH]; intros h p h' H; simpl in H.
  - injection H as <-. apply same_names_refl.
  - destruct (add_child h p c None) as [h1|] eqn:E; simpl in H; [|done].
    eapply same_names_trans; [by eapply add_child_names|by eapply IH].
Qed.

Lemma delete_unlink_names h x r :
  delete_unlink h x = Some r → same_names h r.1.
Proof.
  unfold delete_unlink. intros H.
  destruct (h !! x) as [n|]; simpl in H; [|done].
  destruct (up n) as [p|]; [|injection H as <-; apply same_names_refl].
  destruct (add_children h p (children n)) as [h1|] eqn:E1;
    simpl in H; [|done].
  destruct (remove_child h1 p x) as [h2|] eqn:E2; simpl in H; [|done].
  injection H as <-. simpl.
  eapply same_names_trans;
    [by eapply add_children_names|by eapply remove_child_names].
Qed.

Lemma delete_names h x b h' : delete h x b = Some h' → same_names h h'.
Proof.
  unfold delete. intros H.
  destruct (delete_unlink h x) as [r|] eqn:E; simpl in H; [|done].
  pose proof (delete_unlink_names _ _ _ E) as Hr.
  destruct r.2 as [parent|]; [|by injection H as <-].
  destruct (r.1 !! parent) as [pn|]; simpl in H; [|done].
  destruct (b && (length (children pn) <? 2)%nat); [|by injection H as <-].
  destruct (delete_unlink r.1 parent) as [r'|] eqn:E'; simpl in H; [|done].
  injection H as <-.
  eapply same_names_trans; [exact Hr|by eapply delete_unlink_names].
Qed.

Lemma node_body_names st node st' :
  node_body st node = Some st' → same_names st.1 st'.1.
Proof.
  unfold node_body. intros H.
  destruct (st.1 !! node) as [n|]; simpl in H; [|done].
  destruct (up n) as [parent|]; [|injection H as <-; apply same_names_refl].
  destruct (get_sisters st.1 node) as [siblings|]; simpl in H; [|done].
  match type of H with
  | (?m ≫= _) = _ => destruct m as [st1|] eqn:E1; simpl in H; [|done]
  end.
  destruct (delete st1.1 node true) as [h2|] eqn:E2; simpl in H; [|done].
  injection H as <-. simpl.
  eapply same_names_trans; [|by eapply delete_names].
  destruct siblings as [|sibling [|? ?]];
    try (injection E1 as <-; apply same_names_refl).
  destruct (st.1 !! parent) as [pn|]; simpl in E1; [|done].
  destruct (up pn) as [grandparent|].
  - destruct (detach st.1 sibling) as [h1|] eqn:Ed; simpl in E1; [|done].
    destruct (h1 !! parent) as [pn1|]; simpl in E1; [|done].
    destruct (h1 !! sibling) as [sn1|]; simpl in E1; [|done].
    destruct (add_child h1 grandparent sibling _) as [h3|] eqn:Ea;
      simpl in E1; [|done].
    injection E1 as <-. simpl.
    eapply same_names_trans; [by eapply detach_names|by eapply add_child_names].
  - destruct (detach st.1 sibling) as [h1|] eqn:Ed; simpl in E1; [|done].
    injection E1 as <-. simpl. by eapply detach_names.
Qed.

Lemma nodes_loop_names nodes :
  ∀ st st', nodes_loop st nodes = Some st' → same_names st.1 st'.1.
Proof.
  induction nodes as [|node nodes IH]; intros st st' H; simpl in H.
  - injection H as <-. apply same_names_refl.
  - destruct (node_body st node) as [st1|] eqn:E; simpl in H; [|done].
    eapply same_names_trans; [by eapply node_body_names|by eapply IH].
Qed.

(** Whatever the names to remove, pruning that ends without an exception
    has kept every object of the store and its name: a node that leaves the
    tree stays an object, no object is made, none is renamed. *)
Theorem prune_keeps_names (fuel : nat) (names : list string) :
  ∀ (st st' : state),
    prune fuel st names = Some st' →
    same_names st.1 st'.1 ∧ dom st'.1 = dom st.1.
Proof.
  assert (Hnames : ∀ st st', prune fuel st names = Some st' →
                             same_names st.1 st'.1).
  { induction names as [|nm names IH]; intros st st' H; simpl in H.
    - injection H as <-. apply same_names_refl.
    - destruct (name_body fuel st nm) as [st1|] eqn:E; simpl in H; [|done].
      eapply same_names_trans; [|by eapply IH].
      unfold name_body in E.
      destruct (search_nodes fuel st.1 st.2 nm) as [nodes|];
        simpl in E; [|done].
      by eapply nodes_loop_names. }
  intros st st' H. specialize (Hnames st st' H). split; [done|].
  apply set_eq. intros x. rewrite !elem_of_dom.
  specialize (Hnames x).
  destruct (st'.1 !! x), (st.1 !! x); simpl in Hnames;
    try done; split; intros [? ?]; done.
Qed.

Lemma prune_keeps_names_witness :
  dom scenario_pruned = dom scenario_store.
Proof.
  apply (prune_keeps_names 7 ["B"] (scenario_store, 0%nat)
           (scenario_pruned, 0%nat)).
  vm_compute. reflexivity.
Defined.

End PruneNames.

(** ** The support filter: the whole run *)
Section SupportRun.
Import FilterBySupport.

(** What one iteration can do to the state. *)
Lemma main_body_cases a st line st' :
  main_body a st line = Some st' →
  (PyStr.strip line = "" ∧ st' = st)
  ∨ (non_blank line
     ∧ (st' = count_line st
        ∨ st' = write_line (PyStr.strip line) (count_line st))).
Proof.
  unfold main_body, non_blank. intros H.
  destruct (PyStr.strip line) as [|c s] eqn:E.
  - left. split; [done|congruence].
  - right. split; [done|].
    destruct (extract_supports (String c s)) as [[|x xs]|]; [| |done];
      (destruct (extract_branch_lengths (String c s)) as [[|y ys]|];
       [| |done]); try (left; congruence).
    destruct (Qle_bool _ _ && Qle_bool _ _);
      [right|left]; congruence.
Qed.

Lemma main_loop_invariant a fin :
  ∀ st st', main_loop a st fin = Some st' →
    ∃ out,
      fout st' = fout st ++ out
      ∧ out `sublist_of` (PyStr.strip <$> filter non_blank fin)
      ∧ n_passed st' = (n_passed st + length out)%nat
      ∧ n_total st' = (n_total st + length (filter non_blank fin))%nat.
Proof.
  induction fin as [|line fin IH]; intros st st' H; simpl in H.
  - injection H as <-. exists []. rewrite app_nil_r. simpl.
    repeat split; try lia. done.
  - destruct (main_body a st line) as [st1|] eqn:E; [|done].
    destruct (IH _ _ H) as (out & Hout & Hsub & Hp & Ht).
    destruct (main_body_cases _ _ _ _ E) as [[Hb ->]|[Hnb [->| ->]]].
    + exists out. rewrite filter_cons_False by (unfold non_blank; tauto).
      done.
    + exists out. rewrite filter_cons_True by done. simpl in *.
      repeat split; [done|by apply sublist_cons|done|lia].
    + exists (PyStr.strip line :: out).
      rewrite filter_cons_True by done. simpl in *.
      repeat split; [by rewrite Hout, <- app_assoc|by apply sublist_skip
                    |lia|lia].
Qed.

(** When the run of the support filter ends without an exception, the
    lines written are stripped non-blank lines of the input, in the order
    of the input and none of them more often than the input has it;
    [n_passed] is their number, [n_total] is the number of non-blank
    lines of the input, and so [n_passed] is at most [n_total]. *)
Theorem support_run_counts (a : args) (fin : list string) (st : state) :
  main a fin = Some st →
  fout st `sublist_of` (PyStr.strip <$> filter non_blank fin)
  ∧ n_passed st = length (fout st)
  ∧ n_total st = length (filter non_blank fin)
  ∧ (n_passed st ≤ n_total st)%nat.
Proof.
  unfold main. intros H.
  destruct (main_loop_invariant _ _ _ _ H) as (out & Hout & Hsub & Hp & Ht).
  simpl in *. subst out. repeat split; try done.
  rewrite Hp, Ht. apply sublist_length in Hsub.
  by rewrite length_fmap in Hsub.
Qed.

Lemma support_run_counts_witness :
  ∃ st, main scenario_args [""; scenario_line; "  "] = Some st
        ∧ n_total st = 1%nat ∧ n_passed st = 0%nat.
Proof.
  exists (count_line start).
  assert (H : main scenario_args [""; scenario_line; "  "]
              = Some (count_line start)) by reflexivity.
  split; [exact H|].
  destruct (support_run_counts _ _ _ H) as (_ & Hp & Ht & _).
  split; [exact Ht|exact Hp].
Defined.

Lemma main_body_None a st line :
  main_body a st line = None ↔ non_blank line ∧ unreadable line.
Proof.
  unfold main_body, non_blank, unreadable.
  destruct (PyStr.strip line) as [|c s] eqn:E.
  - split; [done|]. by intros [? _].
  - destruct (extract_supports (String c s)) as [[|x xs]|];
      (destruct (extract_branch_lengths (String c s)) as [[|y ys]|]);
      try destruct (Qle_bool _ _ && Qle_bool _ _);
      split; try done; try (intros [_ [?|?]]; done);
      intros _; split; try done; auto.
Qed.

(** The run of the support filter ends with an exception exactly when
    some non-blank line of the input has a captured text that [float]
    rejects; the thresholds have no part in it. *)
Theorem support_run_fails_iff (a : args) (fin : list string) :
  main a fin = None ↔ ∃ line, line ∈ fin ∧ non_blank line ∧ unreadable line.
Proof.
  unfold main. generalize {| n_total := 0; n_passed := 0; fout := [] |}.
  induction fin as [|line fin IH]; intros st; simpl.
  - split; [done|]. intros (l & Hl & _). by apply not_elem_of_nil in Hl.
  - destruct (main_body a st line) as [st1|] eqn:E.
    + rewrite IH. split.
      * intros (l & Hl & H). exists l. split; [by apply list_elem_of_further|done].
      * intros (l & Hl & Hnb & Hu). apply elem_of_cons in Hl as [->|Hl].
        -- assert (main_body a st line = None) as Hn
             by (by apply main_body_None).
           congruence.
        -- by exists l.
    + split; [|done]. intros _. exists line.
      split; [apply list_elem_of_here|by eapply main_body_None].
Qed.

Lemma accept_weaker (t t' x : Q) (l : list Q) :
  (t' <= t)%Q → Qle_bool t (py_min x l) = true →
  Qle_bool t' (py_min x l) = true.
Proof.
  intros Hle H. apply Qle_bool_iff. apply Qle_bool_iff in H.
  by eapply Qle_trans.
Qed.

Lemma main_loop_weaker a a' fin :
  weaker a' a →
  ∀ st1 st2 st1',
    n_total st1 = n_total st2 →
    fout st1 `sublist_of` fout st2 →
    main_loop a st1 fin = Some st1' →
    ∃ st2', main_loop a' st2 fin = Some st2'
            ∧ n_total st1' = n_total st2'
            ∧ fout st1' `sublist_of` fout st2'.
Proof.
  intros [Hs Hb]. induction fin as [|line fin IH];
    intros st1 st2 st1' Ht Hsub H; simpl in *.
  - injection H as <-. by exists st2.
  - destruct (main_body a st1 line) as [st3|] eqn:E; [|done].
    assert (∃ st4, main_body a' st2 line = Some st4
                   ∧ n_total st3 = n_total st4
                   ∧ fout st3 `sublist_of` fout st4) as (st4 & E' & Ht' & Hsub').
    { unfold main_body in *.
      destruct (PyStr.strip line) as [|c s].
      { injection E as <-. by exists st2. }
      destruct (extract_supports (String c s)) as [[|x xs]|]; [| |done];
        (destruct (extract_branch_lengths (String c s)) as [[|y ys]|];
         [| |done]);
        try (injection E as <-; eexists; split; [done|];
             simpl; split; [congruence|done]).
      destruct (Qle_bool (threshold_support a) _) eqn:E1; simpl in E.
      - destruct (Qle_bool (threshold_branch a) _) eqn:E2.
        + rewrite (accept_weaker _ _ _ _ Hs E1), (accept_weaker _ _ _ _ Hb E2).
          injection E as <-. eexists. split; [done|]. simpl.
          split; [congruence|]. by apply sublist_app.
        + injection E as <-.
          destruct (Qle_bool _ _ && Qle_bool _ _);
            eexists; (split; [done|]); simpl; (split; [congruence|]);
            [by apply sublist_inserts_r|done].
      - injection E as <-.
        destruct (Qle_bool _ _ && Qle_bool _ _);
          eexists; (split; [done|]); simpl; (split; [congruence|]);
          [by apply sublist_inserts_r|done]. }
    rewrite E'. by eapply IH.
Qed.

(** Lowering a threshold loses no tree: a run with thresholds that
    ask no more ends without an exception as well, counts the same number
    of lines and writes at least the lines of the first run, in the same
    order. *)
Theorem support_run_weaker (a a' : args) (fin : list string) (st : state) :
  weaker a' a →
  main a fin = Some st →
  ∃ st', main a' fin = Some st'
         ∧ n_total st' = n_total st
         ∧ fout st `sublist_of` fout st'.
Proof.
  intros Hw H. unfold main in *.
  destruct (main_loop_weaker a a' fin Hw
              {| n_total := 0; n_passed := 0; fout := [] |}
              {| n_total := 0; n_passed := 0; fout := [] |}
              st eq_refl (sublist_nil_l []) H)
    as (st' & H' & Ht & Hsub).
  exists st'. by repeat split.
Qed.

Lemma support_run_weaker_witness :
  ∃ st', main {| threshold_support := 0.8; threshold_branch := 0.0 |}
              [scenario_line] = Some st'
         ∧ n_total st' = 1%nat.
Proof.
  destruct (support_run_weaker scenario_args
              {| threshold_support := 0.8; threshold_branch := 0.0 |}
              [scenario_line] (count_line start))
    as (st' & H & Ht & _).
  - split; simpl; discriminate.
  - reflexivity.
  - exists st'. split; [exact H|exact Ht].
Defined.

End SupportRun.

(** ** The support filter: lines without an internal node *)
Section SupportNoParenthesis.
Import FilterBySupport.

Lemma findall_needs_first (a : ascii) (p : list Re.item) (s : string) :
  ∀ skip, a ∉ list_ascii_of_string s →
          Re.findall_from (Re.One (Re.is_char a) :: p) skip s = [].
Proof.
  induction s as [|c s IH]; intros skip Hs; [done|].
  simpl in Hs. apply not_elem_of_cons in Hs as [Hc Hs].
  simpl. destruct skip as [|k]; [|by apply IH].
  unfold Re.is_char. rewrite bool_decide_eq_false_2 by done. by apply IH.
Qed.

Lemma lstrip_chars (s : string) (c : ascii) :
  c ∈ list_ascii_of_string (PyStr.lstrip s) → c ∈ list_ascii_of_string s.
Proof.
  induction s as [|b s IH]; [done|]. simpl.
  destruct (Re.space b); [|done]. intros H. right. by apply IH.
Qed.

Lemma rev_string_chars (s : string) (c : ascii) :
  c ∈ list_ascii_of_string (PyStr.rev_string s) ↔ c ∈ list_ascii_of_string s.
Proof.
  unfold PyStr.rev_string. rewrite list_ascii_of_string_of_list_ascii.
  rewrite !list_elem_of_In. symmetry. apply in_rev.
Qed.

Lemma strip_chars (s : string) (c : ascii) :
  c ∈ list_ascii_of_string (PyStr.strip s) → c ∈ list_ascii_of_string s.
Proof.
  unfold PyStr.strip. intros H.
  apply rev_string_chars, lstrip_chars, rev_string_chars, lstrip_chars in H.
  done.
Qed.

(** A line without a closing parenthesis has no support value and no
    internal branch length to extract; whatever the thresholds, also
    negative ones, the filter does not write it and does not fail on
    it. *)
Theorem support_needs_parenthesis (a : args) (st : state) (line : string) :
  ")"%char ∉ list_ascii_of_string line →
  extract_supports (PyStr.strip line) = Some []
  ∧ extract_branch_lengths (PyStr.strip line) = Some []
  ∧ ∃ st', main_body a st line = Some st'
           ∧ fout st' = fout st ∧ n_passed st' = n_passed st.
Proof.
  intros H.
  assert (Hs : ")"%char ∉ list_ascii_of_string (PyStr.strip line))
    by (intros Hin; by apply H, strip_chars).
  assert (E1 : extract_supports (PyStr.strip line) = Some []).
  { unfold extract_supports, Re.findall, support_pattern.
    by rewrite findall_needs_first. }
  assert (E2 : extract_branch_lengths (PyStr.strip line) = Some []).
  { unfold extract_branch_lengths, Re.findall, branch_pattern.
    by rewrite findall_needs_first. }
  split; [done|]. split; [done|].
  unfold main_body. destruct (PyStr.strip line) as [|c s]; [by exists st|].
  rewrite E1, E2. by exists (count_line st).
Qed.

Lemma support_needs_parenthesis_witness :
  ∃ st', main_body {| threshold_support := -1; threshold_branch := -1 |}
                   start "A:0.1;" = Some st'
         ∧ fout st' = [].
Proof.
  destruct (support_needs_parenthesis
              {| threshold_support := -1; threshold_branch := -1 |}
              start "A:0.1;") as (_ & _ & st' & H & Hf & _).
  - vm_compute. intros Hin.
    repeat (apply elem_of_cons in Hin as [Hin|Hin]; [discriminate|]).
    by apply not_elem_of_nil in Hin.
  - exists st'. split; [exact H|exact Hf].
Defined.

End SupportNoParenthesis.

(** ** The group filter: the whole list of trees *)
Section GroupFilterRun.
Import FilterOrders.

Lemma groups_present_le tree groups :
  (0 <= groups_present tree groups <= Z.of_nat (length groups))%Z.
Proof.
  unfold groups_present. split; [lia|].
  apply inj_le. etrans; [apply length_filter|]. by rewrite length_map.
Qed.

Lemma check_tree_for_groups_nil tree g : check_tree_for_groups tree [] g = false.
Proof. done. Qed.

(** An answer [True] needs a group in the dict. *)
Lemma check_true_groups tree groups g :
  check_tree_for_groups tree groups g = true → groups ≠ [].
Proof. intros H ->. by rewrite check_tree_for_groups_nil in H. Qed.

(** With at least one group in the dict, or a required number above zero,
    [filter_trees_by_groups] keeps exactly the trees in which the number
    of groups present reaches the required number, in the order of the
    file, and returns their number. *)
Theorem filter_trees_by_groups_spec (trees : list Clade)
    (groups : list (string * list string)) (g : Z) :
  groups ≠ [] ∨ (0 < g)%Z →
  filter_trees_by_groups trees groups g
  = (filter (λ tree, (g <= groups_present tree groups)%Z) trees,
     length (filter (λ tree, (g <= groups_present tree groups)%Z) trees)).
Proof.
  intros Hside. unfold filter_trees_by_groups.
  assert (E : filter (λ tree, check_tree_for_groups tree groups g = true) trees
              = filter (λ tree, (g <= groups_present tree groups)%Z) trees).
  { apply list_filter_iff. intros tree.
    by apply check_tree_for_groups_spec. }
  by rewrite E.
Qed.

Lemma filter_trees_by_groups_spec_witness :
  filter_trees_by_groups
    [MkClade None None [MkClade (Some "a") None []];
     MkClade None None [MkClade (Some "c") None []]]
    [("g1", ["a"]); ("g2", ["b"])] 1
  = ([MkClade None None [MkClade (Some "a") None []]], 1%nat).
Proof.
  rewrite (filter_trees_by_groups_spec
             [MkClade None None [MkClade (Some "a") None []];
              MkClade None None [MkClade (Some "c") None []]]
             [("g1", ["a"]); ("g2", ["b"])] 1).
  - vm_compute. reflexivity.
  - left. discriminate.
Defined.

Lemma check_monotone tree groups g g' :
  (g' <= g)%Z →
  check_tree_for_groups tree groups g = true →
  check_tree_for_groups tree groups g' = true.
Proof.
  intros Hle H. pose proof (check_true_groups _ _ _ H) as Hne.
  apply check_tree_for_groups_spec in H; [|by left].
  apply check_tree_for_groups_spec; [by left|lia].
Qed.

(** Asking for fewer groups loses no tree: the trees kept for a required
    number are kept, in the same order, for every smaller one. *)
Theorem filter_trees_by_groups_monotone (trees : list Clade)
    (groups : list (string * list string)) (g g' : Z) :
  (g' <= g)%Z →
  (filter_trees_by_groups trees groups g).1
    `sublist_of` (filter_trees_by_groups trees groups g').1
  ∧ ((filter_trees_by_groups trees groups g).2
     ≤ (filter_trees_by_groups trees groups g').2)%nat.
Proof.
  intros Hle. unfold filter_trees_by_groups. simpl.
  assert (Hsub : filter (λ tree, check_tree_for_groups tree groups g = true)
                        trees
                 `sublist_of`
                 filter (λ tree, check_tree_for_groups tree groups g' = true)
                        trees).
  { induction trees as [|tree trees IH]; [done|].
    destruct (check_tree_for_groups tree groups g) eqn:E.
    - rewrite !filter_cons_True;
        [by apply sublist_skip|by eapply check_monotone|done].
    - rewrite (filter_cons_False _ tree) by (rewrite E; done).
      destruct (check_tree_for_groups tree groups g') eqn:E'.
      + rewrite filter_cons_True by done. by apply sublist_cons.
      + rewrite filter_cons_False by (rewrite E'; done). done. }
  split; [done|by apply sublist_length].
Qed.

Lemma filter_trees_by_groups_monotone_witness :
  ((filter_trees_by_groups
      [MkClade None None [MkClade (Some "a") None []]]
      [("g1", ["a"]); ("g2", ["b"])] 2).2
   ≤ (filter_trees_by_groups
        [MkClade None None [MkClade (Some "a") None []]]
        [("g1", ["a"]); ("g2", ["b"])] 1).2)%nat.
Proof.
  apply (filter_trees_by_groups_monotone
           [MkClade None None [MkClade (Some "a") None []]]
           [("g1", ["a"]); ("g2", ["b"])] 2 1).
  lia.
Defined.

Lemma groups_present_Permutation tree groups groups' :
  groups ≡ₚ groups' → groups_present tree groups = groups_present tree groups'.
Proof.
  intros Hp. unfold groups_present. f_equal.
  apply Permutation_length.
  apply (filter_Permutation _ _ _ (Permutation_map snd Hp)).
Qed.

(** The order in which the dict gives its groups has no influence on the
    trees kept. *)
Theorem filter_trees_by_groups_dict_order (trees : list Clade)
    (groups groups' : list (string * list string)) (g : Z) :
  groups ≡ₚ groups' →
  filter_trees_by_groups trees groups g
  = filter_trees_by_groups trees groups' g.
Proof.
  intros Hp. unfold filter_trees_by_groups.
  assert (E : filter (λ tree, check_tree_for_groups tree groups g = true) trees
              = filter (λ tree, check_tree_for_groups tree groups' g = true)
                       trees).
  { apply list_filter_iff. intros tree.
    destruct groups as [|x groups].
    - apply Permutation_nil_l in Hp. by subst.
    - assert (groups' ≠ []) as Hne'
        by (intros ->; by apply Permutation_nil_r in Hp).
      rewrite !check_tree_for_groups_spec by (by left).
      by rewrite (groups_present_Permutation _ _ _ Hp). }
  by rewrite E.
Qed.

Lemma filter_trees_by_groups_dict_order_witness :
  filter_trees_by_groups
    [MkClade None None [MkClade (Some "a") None []]]
    [("g1", ["a"]); ("g2", ["b"])] 1
  = filter_trees_by_groups
      [MkClade None None [MkClade (Some "a") None []]]
      [("g2", ["b"]); ("g1", ["a"])] 1.
Proof.
  apply (filter_trees_by_groups_dict_order
           [MkClade None None [MkClade (Some "a") None []]]
           [("g1", ["a"]); ("g2", ["b"])] [("g2", ["b"]); ("g1", ["a"])] 1).
  apply perm_swap.
Defined.

(** A required number above the number of groups of the dict keeps no
    tree. *)
Theorem filter_trees_by_groups_too_many (trees : list Clade)
    (groups : list (string * list string)) (g : Z) :
  (Z.of_nat (length groups) < g)%Z →
  filter_trees_by_groups trees groups g = ([], 0%nat).
Proof.
  intros Hg. unfold filter_trees_by_groups.
  assert (E : filter (λ tree, check_tree_for_groups tree groups g = true) trees
              = []).
  { induction trees as [|tree trees IH]; [done|].
    rewrite filter_cons_False; [done|].
    intros H. apply check_tree_for_groups_spec in H; [|right; lia].
    pose proof (groups_present_le tree groups). lia. }
  by rewrite E.
Qed.

Lemma filter_trees_by_groups_too_many_witness :
  filter_trees_by_groups
    [MkClade None None [MkClade (Some "a") None []]]
    [("g1", ["a"]); ("g2", ["b"])] 3 = ([], 0%nat).
Proof.
  apply (filter_trees_by_groups_too_many
           [MkClade None None [MkClade (Some "a") None []]]
           [("g1", ["a"]); ("g2", ["b"])] 3).
  simpl. lia.
Defined.

(** With a dict that holds a group, a required number of zero or less
    keeps every tree of the file. *)
Theorem filter_trees_by_groups_none_required (trees : list Clade)
    (groups : list (string * list string)) (g : Z) :
  groups ≠ [] → (g <= 0)%Z →
  filter_trees_by_groups trees groups g = (trees, length trees).
Proof.
  intros Hne Hg. unfold filter_trees_by_groups.
  assert (E : filter (λ tree, check_tree_for_groups tree groups g = true) trees
              = trees).
  { induction trees as [|tree trees IH]; [done|].
    rewrite filter_cons_True; [by rewrite IH|].
    apply check_tree_for_groups_spec; [by left|].
    pose proof (groups_present_le tree groups). lia. }
  by rewrite E.
Qed.

Lemma filter_trees_by_groups_none_required_witness :
  filter_trees_by_groups
    [MkClade None None [MkClade (Some "c") None []]]
    [("g1", ["a"])] 0
  = ([MkClade None None [MkClade (Some "c") None []]], 1%nat).
Proof.
  apply (filter_trees_by_groups_none_required
           [MkClade None None [MkClade (Some "c") None []]]
           [("g1", ["a"])] 0).
  - discriminate.
  - lia.
Defined.

End GroupFilterRun.

(** ** The two classifiers on the same trees *)
Section ClassifiersTogether.
Import Ete3.

(** What one tree adds to the counters of the WGD script does not depend
    on the counters. *)
Lemma wgd_body_delta A B parsed :
  (∀ c, WgdTreeStat.tree_body A B c parsed = c)
  ∨ (∀ c, WgdTreeStat.tree_body A B c parsed
          = WgdTreeStat.add_independent (WgdTreeStat.add_total c))
  ∨ (∀ c, WgdTreeStat.tree_body A B c parsed
          = WgdTreeStat.add_shared (WgdTreeStat.add_total c))
  ∨ (∀ c, WgdTreeStat.tree_body A B c parsed
          = WgdTreeStat.add_uncertain (WgdTreeStat.add_total c)).
Proof.
  destruct parsed as [t|]; [|by left].
  destruct (decide (size (A ∩ leaf_names t) < 2
                    ∨ size (B ∩ leaf_names t) < 2)%nat) as [Hs|Hs].
  - left. intros c. by apply wgd_skip.
  - assert (2 ≤ size (A ∩ leaf_names t))%nat as HA by lia.
    assert (2 ≤ size (B ∩ leaf_names t))%nat as HB by lia.
    destruct (wgd_counted A B t WgdTreeStat.zero HA HB)
      as (mA & mB & EA & EB & _).
    assert (∀ c, WgdTreeStat.tree_body A B c (Some t)
                 = if mA && mB
                   then WgdTreeStat.add_independent (WgdTreeStat.add_total c)
                   else if negb mA && negb mB
                        then WgdTreeStat.add_shared (WgdTreeStat.add_total c)
                        else WgdTreeStat.add_uncertain
                               (WgdTreeStat.add_total c)) as Hall.
    { intros c. destruct (wgd_counted A B t c HA HB)
        as (mA' & mB' & EA' & EB' & ->).
      rewrite EA in EA'. rewrite EB in EB'.
      injection EA' as <-. injection EB' as <-. done. }
    destruct mA, mB; simpl in Hall; auto.
Qed.

Lemma wgt_body_delta A B parsed :
  (∀ c, WgtTreeStat.tree_body A B c parsed = inr c)
  ∨ (∀ c, WgtTreeStat.tree_body A B c parsed
          = inr (WgtTreeStat.add_non_shared (WgtTreeStat.add_total c)))
  ∨ (∀ c, WgtTreeStat.tree_body A B c parsed
          = inr (WgtTreeStat.add_shared (WgtTreeStat.add_total c))).
Proof.
  destruct parsed as [t|]; [|by left]. right.
  destruct (wgt_mono A t) as (mA & EA & _).
  destruct (wgt_mono B t) as (mB & EB & _).
  unfold WgtTreeStat.tree_body. rewrite EA, EB.
  destruct (mA || mB); auto.
Qed.

(** The two scripts, tree by tree. *)
Lemma bodies_agree A B cw ct parsed :
  WgtTreeStat.support_shared ct = WgdTreeStat.shared cw →
  (WgdTreeStat.total cw ≤ WgtTreeStat.total ct)%nat →
  ∃ ct',
    WgtTreeStat.tree_body A B ct parsed = inr ct'
    ∧ WgtTreeStat.support_shared ct'
      = WgdTreeStat.shared (WgdTreeStat.tree_body A B cw parsed)
    ∧ (WgdTreeStat.total (WgdTreeStat.tree_body A B cw parsed)
       ≤ WgtTreeStat.total ct')%nat
    ∧ WgtTreeStat.total ct'
      = (WgtTreeStat.total ct
         + match parsed with Some _ => 1 | None => 0 end)%nat.
Proof.
  intros Hs Ht. destruct parsed as [t|].
  2:{ exists ct. simpl. repeat split; try done; lia. }
  destruct (wgt_mono A t) as (mA & EA & HA1 & HA2).
  destruct (wgt_mono B t) as (mB & EB & HB1 & HB2).
  unfold WgtTreeStat.tree_body. rewrite EA, EB.
  destruct (decide (size (A ∩ leaf_names t) < 2
                    ∨ size (B ∩ leaf_names t) < 2)%nat) as [Hsk|Hsk].
  - rewrite (wgd_skip A B t cw Hsk).
    assert (mA || mB = true) as ->.
    { destruct Hsk as [H|H]; [rewrite HA1 by lia|rewrite HB1 by lia];
        [done|by destruct mA]. }
    eexists. split; [done|]. simpl. repeat split; [done|lia|lia].
  - assert (2 ≤ size (A ∩ leaf_names t))%nat as HA by lia.
    assert (2 ≤ size (B ∩ leaf_names t))%nat as HB by lia.
    destruct (wgd_counted A B t cw HA HB) as (mA' & mB' & EA' & EB' & ->).
    destruct HA2 as [EA2 _]; [lia|]. destruct HB2 as [EB2 _]; [lia|].
    rewrite EA' in EA2. rewrite EB' in EB2.
    injection EA2 as ->. injection EB2 as ->.
    destruct mA, mB; simpl; eexists; (split; [done|]); simpl;
      repeat split; lia.
Qed.

Lemma counts_agree A B trees :
  ∀ cw ct,
    WgtTreeStat.support_shared ct = WgdTreeStat.shared cw →
    (WgdTreeStat.total cw ≤ WgtTreeStat.total ct)%nat →
    ∃ ct',
      WgtTreeStat.count_from A B ct trees = inr ct'
      ∧ WgtTreeStat.support_shared ct'
        = WgdTreeStat.shared (fold_left (WgdTreeStat.tree_body A B) trees cw)
      ∧ (WgdTreeStat.total (fold_left (WgdTreeStat.tree_body A B) trees cw)
         ≤ WgtTreeStat.total ct')%nat
      ∧ WgtTreeStat.total ct'
        = (WgtTreeStat.total ct + length (filter is_Some trees))%nat.
Proof.
  induction trees as [|parsed trees IH]; intros cw ct Hs Ht.
  - exists ct. simpl. repeat split; try done; lia.
  - destruct (bodies_agree A B cw ct parsed Hs Ht)
      as (ct1 & E1 & Hs1 & Ht1 & Hn1).
    destruct (IH _ _ Hs1 Ht1) as (ct' & E' & Hs' & Ht' & Hn').
    exists ct'. simpl. rewrite E1. repeat split; try done.
    rewrite Hn', Hn1. destruct parsed.
    + rewrite filter_cons_True by done. simpl. lia.
    + rewrite filter_cons_False by (by intros [? ?]). lia.
Qed.

(** Run on the same trees with the same two sets, the two scripts count
    the same trees as supporting the shared event.  The WGT script counts
    every tree that parses; the trees it counts beyond those that the WGD
    script counts, and the trees that the WGD script calls independent or
    uncertain, are its trees that do not support the shared event. *)
Theorem classifiers_agree_on_shared (A B : gset string)
    (trees : list (option TreeNode)) :
  let w := WgdTreeStat.count_file A B trees in
  ∃ c,
    WgtTreeStat.count_file A B trees = inr c
    ∧ WgtTreeStat.support_shared c = WgdTreeStat.shared w
    ∧ WgtTreeStat.total c = length (filter is_Some trees)
    ∧ (WgdTreeStat.total w ≤ WgtTreeStat.total c)%nat
    ∧ WgtTreeStat.support_non_shared c
      = (WgdTreeStat.independent w + WgdTreeStat.uncertain w
         + (WgtTreeStat.total c - WgdTreeStat.total w))%nat.
Proof.
  intros w.
  destruct (counts_agree A B trees WgdTreeStat.zero WgtTreeStat.zero)
    as (c & E & Hs & Ht & Hn); [done|done|].
  assert (partitioned w) as Hw.
  { apply wgd_fold_partitioned. reflexivity. }
  destruct (wgt_count_from_partitioned A B trees WgtTreeStat.zero)
    as (c' & E' & Hc); [reflexivity|].
  rewrite E in E'. injection E' as <-.
  unfold partitioned in Hw. unfold wgt_partitioned in Hc.
  change (fold_left (WgdTreeStat.tree_body A B) trees WgdTreeStat.zero)
    with w in Hs, Ht.
  simpl in Hn.
  exists c. unfold WgtTreeStat.count_file.
  split; [exact E|]. split; [exact Hs|]. split; [exact Hn|].
  split; [exact Ht|]. lia.
Qed.

Lemma wgd_fold_comm A B p1 p2 c :
  WgdTreeStat.tree_body A B (WgdTreeStat.tree_body A B c p1) p2
  = WgdTreeStat.tree_body A B (WgdTreeStat.tree_body A B c p2) p1.
Proof.
  destruct (wgd_body_delta A B p1) as [H1|[H1|[H1|H1]]];
    destruct (wgd_body_delta A B p2) as [H2|[H2|[H2|H2]]];
    rewrite ?H1, ?H2, ?H1; reflexivity.
Qed.

Lemma wgd_fold_Permutation A B trees trees' :
  trees ≡ₚ trees' →
  ∀ c, fold_left (WgdTreeStat.tree_body A B) trees c
       = fold_left (WgdTreeStat.tree_body A B) trees' c.
Proof.
  induction 1 as [|x l l' _ IH|x y l|l1 l2 l3 _ IH1 _ IH2]; intros c; simpl.
  - done.
  - apply IH.
  - by rewrite wgd_fold_comm.
  - by rewrite IH1.
Qed.

Lemma wgt_count_from_Permutation A B trees trees' :
  trees ≡ₚ trees' →
  ∀ c, WgtTreeStat.count_from A B c trees
       = WgtTreeStat.count_from A B c trees'.
Proof.
  induction 1 as [|x l l' _ IH|x y l|l1 l2 l3 _ IH1 _ IH2]; intros c; simpl.
  - done.
  - destruct (WgtTreeStat.tree_body A B c x); [done|apply IH].
  - destruct (wgt_body_delta A B x) as [H1|[H1|H1]];
      destruct (wgt_body_delta A B y) as [H2|[H2|H2]];
      rewrite ?H1, ?H2, ?H1; reflexivity.
  - by rewrite IH1.
Qed.

(** The counters that the two scripts reach for a file do not depend on
    the order of its trees. *)
Theorem counts_tree_order (A B : gset string)
    (trees trees' : list (option TreeNode)) :
  trees ≡ₚ trees' →
  WgdTreeStat.count_file A B trees = WgdTreeStat.count_file A B trees'
  ∧ WgtTreeStat.count_file A B trees = WgtTreeStat.count_file A B trees'.
Proof.
  intros Hp. split.
  - by apply wgd_fold_Permutation.
  - by apply wgt_count_from_Permutation.
Qed.

Lemma counts_tree_order_witness :
  WgdTreeStat.count_file set_12 set_34 [Some tree_12_34; Some tree_13_24]
  = WgdTreeStat.count_file set_12 set_34 [Some tree_13_24; Some tree_12_34].
Proof.
  apply (counts_tree_order set_12 set_34
           [Some tree_12_34; Some tree_13_24]
           [Some tree_13_24; Some tree_12_34]).
  apply perm_swap.
Defined.

End ClassifiersTogether.

(** ** The ratios of the summary lines *)
Section SummaryRatios.
Import Ete3.

Lemma Zpos_of_nat (n : nat) : (0 < n)%nat → Zpos (Pos.of_nat n) = Z.of_nat n.
Proof.
  intros Hn. rewrite <- positive_nat_Z. f_equal.
  apply Nat2Pos.id. lia.
Qed.

(** [k / n] and [j / n] add up to [(k + j) / n]. *)
Lemma ratio_plus (k j n : nat) :
  (WgdTreeStat.ratio k n + WgdTreeStat.ratio j n
   == WgdTreeStat.ratio (k + j) n)%Q.
Proof.
  unfold WgdTreeStat.ratio, Qeq, Qplus. simpl.
  rewrite Pos2Z.inj_mul, Nat2Z.inj_add. ring.
Qed.

Lemma ratio_one (n : nat) : (0 < n)%nat → (WgdTreeStat.ratio n n == 1)%Q.
Proof.
  intros Hn. unfold WgdTreeStat.ratio, Qeq. simpl.
  rewrite Zpos_of_nat by done. ring.
Qed.

Lemma ratio_bounds (k n : nat) :
  (0 < n)%nat → (k ≤ n)%nat →
  (0 <= WgdTreeStat.ratio k n)%Q ∧ (WgdTreeStat.ratio k n <= 1)%Q.
Proof.
  intros Hn Hk. unfold WgdTreeStat.ratio, Qle. simpl.
  rewrite Zpos_of_nat by done. lia.
Qed.

(** Every line that the WGD script writes has a positive total that its
    three counts add up to, and each of its two ratios lies between 0 and
    1.  The ratios are the quotients of the counts, which the script holds
    as floats; the bounds hold for the rounded quotients as for the exact
    ones. *)
Theorem wgd_row_ratios (A B : gset string)
    (files : list (string * list (option TreeNode))) (r : WgdTreeStat.row) :
  r ∈ WgdTreeStat.summary A B files →
  (0 < WgdTreeStat.Total r)%nat
  ∧ (WgdTreeStat.Independent r + WgdTreeStat.Shared r
     + WgdTreeStat.Uncertain r = WgdTreeStat.Total r)%nat
  ∧ (0 <= WgdTreeStat.Ind_Ratio r)%Q ∧ (WgdTreeStat.Ind_Ratio r <= 1)%Q
  ∧ (0 <= WgdTreeStat.Shared_Ratio r)%Q ∧ (WgdTreeStat.Shared_Ratio r <= 1)%Q.
Proof.
  unfold WgdTreeStat.summary. intros Hr.
  apply list_elem_of_In, in_flat_map in Hr as (f & _ & Hr).
  apply list_elem_of_In in Hr.
  assert (partitioned (WgdTreeStat.count_file A B f.2)) as Hp.
  { apply wgd_fold_partitioned. reflexivity. }
  unfold partitioned in Hp. unfold WgdTreeStat.write_row in Hr.
  destruct (0 <? WgdTreeStat.total (WgdTreeStat.count_file A B f.2))%nat
    eqn:Epos; [|by apply not_elem_of_nil in Hr].
  apply Nat.ltb_lt in Epos. apply list_elem_of_singleton in Hr as ->. simpl.
  split; [done|]. split; [done|].
  destruct (ratio_bounds
              (WgdTreeStat.independent (WgdTreeStat.count_file A B f.2))
              (WgdTreeStat.total (WgdTreeStat.count_file A B f.2)))
    as [? ?]; [done|lia|].
  destruct (ratio_bounds
              (WgdTreeStat.shared (WgdTreeStat.count_file A B f.2))
              (WgdTreeStat.total (WgdTreeStat.count_file A B f.2)))
    as [? ?]; [done|lia|].
  repeat (split; [done|]). done.
Qed.

Lemma wgd_row_ratios_witness :
  ∃ r, r ∈ WgdTreeStat.summary set_12 set_34
             [("a.nwk", [Some tree_12_34; Some tree_13_24])]
       ∧ WgdTreeStat.Total r = 2%nat
       ∧ (WgdTreeStat.Ind_Ratio r <= 1)%Q.
Proof.
  eexists. split; [|split].
  - vm_compute. apply list_elem_of_here.
  - reflexivity.
  - apply (wgd_row_ratios set_12 set_34
             [("a.nwk", [Some tree_12_34; Some tree_13_24])]).
    vm_compute. apply list_elem_of_here.
Defined.

(** The WGT script writes one line for every file, and never fails; the
    two counts of a line add up to its total and, with a total above
    zero, its two ratios lie between 0 and 1 and add up to 1. *)
Theorem wgt_row_ratios (A B : gset string)
    (files : list (string * list (option TreeNode))) :
  ∃ rows,
    WgtTreeStat.summary A B files = inr rows
    ∧ length rows = length files
    ∧ ∀ r, r ∈ rows →
        (WgtTreeStat.NonShared_Count r + WgtTreeStat.Shared_Count r
         = WgtTreeStat.Total_Trees r)%nat
        ∧ ((0 < WgtTreeStat.Total_Trees r)%nat →
           (0 <= WgtTreeStat.NonShared_Ratio r)%Q
           ∧ (0 <= WgtTreeStat.Shared_Ratio r)%Q
           ∧ (WgtTreeStat.NonShared_Ratio r + WgtTreeStat.Shared_Ratio r
              == 1)%Q).
Proof.
  destruct (wgt_summary_from A B files []) as (rows & E & Hrows).
  exists rows. split; [exact E|].
  split; [symmetry; by eapply Forall2_length|].
  intros r Hr.
  assert (∃ f, wgt_row_of A B f r) as (f & c & Ec & ->).
  { clear E. induction Hrows as [|f r' fs rs Hfr _ IH].
    - by apply not_elem_of_nil in Hr.
    - apply elem_of_cons in Hr as [->|Hr]; [by exists f|by apply IH]. }
  destruct (wgt_count_from_partitioned A B f.2 WgtTreeStat.zero)
    as (c' & Ec' & Hp); [reflexivity|].
  unfold WgtTreeStat.count_file in Ec. rewrite Ec in Ec'.
  injection Ec' as <-. unfold wgt_partitioned in Hp.
  unfold WgtTreeStat.write_row.
  destruct (0 <? WgtTreeStat.total c)%nat eqn:Epos; simpl.
  - apply Nat.ltb_lt in Epos. split; [done|]. intros _.
    destruct (ratio_bounds (WgtTreeStat.support_non_shared c)
                (WgtTreeStat.total c)) as [? _]; [done|lia|].
    destruct (ratio_bounds (WgtTreeStat.support_shared c)
                (WgtTreeStat.total c)) as [? _]; [done|lia|].
    split; [done|]. split; [done|].
    change (WgtTreeStat.ratio ?k ?n) with (WgdTreeStat.ratio k n).
    rewrite ratio_plus, Hp. by apply ratio_one.
  - apply Nat.ltb_ge in Epos. split; [done|]. lia.
Qed.

End SummaryRatios.

(** ** Pruning: the name of the root *)
Section PruneRoot.
Import Ete3Obj PruneTreeNodes.

(** The loop over nodes that are all the root, which has no parent. *)
Lemma nodes_loop_root h t tn nodes :
  h !! t = Some tn → up tn = None → Forall (λ x, x = t) nodes →
  nodes_loop (h, t) nodes = Some (h, t).
Proof.
  intros Ht Hup. induction 1 as [|x nodes -> _ IH]; [done|].
  simpl. unfold node_body. simpl. rewrite Ht. simpl. rewrite Hup. exact IH.
Qed.

(** The root is never removed: for a name that no node of the tree other
    than the root bears, the body of the loop over the names leaves the
    tree and the variable [t] as they are, also when the root bears the
    name. *)
Theorem prune_root_name (h : gmap ref TreeNode) (t : ref) (tn : TreeNode)
    (T : shape) (fuel : nat) (nm : string) :
  stored h t T → (shape_size T ≤ fuel)%nat →
  h !! t = Some tn → up tn = None →
  (∀ x n, reach h t x → h !! x = Some n → name n = nm → x = t) →
  name_body fuel (h, t) nm = Some (h, t).
Proof.
  intros Hst Hfuel Ht Hup Honly.
  destruct (levelorder_terminates h fuel [t] [T]) as [l Hl].
  { by constructor. }
  { unfold forest_size. simpl. lia. }
  unfold name_body, search_nodes. simpl. rewrite Hl. simpl.
  apply (nodes_loop_root h t tn); [done|done|].
  apply Forall_forall. intros x Hx.
  apply (list_elem_of_filter (λ x, has_name h nm x = true)) in Hx
    as [Hname Hx].
  destruct (levelorder_reach _ _ _ _ Hl x Hx) as (r & Hr & Hreach).
  apply list_elem_of_singleton in Hr as ->.
  unfold has_name in Hname. destruct (h !! x) as [n|] eqn:Ex; [|done].
  apply bool_decide_eq_true_1 in Hname. by eapply Honly.
Qed.

Lemma prune_root_name_witness :
  name_body 7 (scenario_store, 0%nat) "root" = Some (scenario_store, 0%nat).
Proof.
  apply (prune_root_name scenario_store 0%nat
           (obj "root" 0 None [1; 4]%nat) scenario_shape 7 "root").
  - apply scenario_stored.
  - vm_compute. lia.
  - reflexivity.
  - reflexivity.
  - intros x n Hreach Hx Hname.
    pose proof (scenario_nodes x Hreach) as Hin.
    repeat (apply elem_of_cons in Hin as [->|Hin];
            [first [reflexivity
                   |vm_compute in Hx; injection Hx as <-;
                    discriminate Hname]|]).
    by apply not_elem_of_nil in Hin.
Defined.

End PruneRoot.

(** ** Pruning: a node with two or more siblings *)
Section PruneAmongSiblings.
Import Ete3Obj PruneTreeNodes.

Lemma filter_ne_absent (x : ref) (l : list ref) :
  x ∉ l → filter (λ ch, ch ≠ x) l = l.
Proof.
  induction l as [|y l IH]; [done|]. intros Hx.
  apply not_elem_of_cons in Hx as [Hne Hx].
  rewrite filter_cons_True by done. by rewrite IH.
Qed.

(** In a list without repetition, [remove] leaves what the filter of
    [get_sisters] keeps. *)
Lemma list_remove_filter (x : ref) (l : list ref) :
  NoDup l → x ∈ l → list_remove x l = Some (filter (λ ch, ch ≠ x) l).
Proof.
  induction l as [|y l IH]; intros Hnd Hx.
  - by apply not_elem_of_nil in Hx.
  - apply NoDup_cons in Hnd as [Hy Hnd]. simpl.
    destruct (decide (y = x)) as [->|Hne].
    + rewrite bool_decide_eq_true_2 by done.
      rewrite filter_cons_False by (intros H; by apply H).
      by rewrite filter_ne_absent.
    + rewrite bool_decide_eq_false_2 by done.
      apply elem_of_cons in Hx as [->|Hx]; [done|].
      rewrite IH by done. by rewrite filter_cons_True.
Qed.

(** In a store that holds trees, the removal of a node with two or more
    siblings ends without an exception and leaves the root variable as it
    is.  The parent stays, with the siblings in their order as its
    children, followed by the children of the removed node; these keep
    their own branch lengths, to which the branch length of the removed
    node is not added.  The removed node has no parent any more, and no
    other object is touched. *)
Theorem prune_among_siblings (h : gmap ref TreeNode) (depth : ref → nat)
    (t node parent : ref) (n pn : TreeNode) (sisters : list ref) :
  wf_store h depth →
  h !! node = Some n → up n = Some parent → h !! parent = Some pn →
  get_sisters h node = Some sisters → (2 ≤ length sisters)%nat →
  ∃ h',
    node_body (h, t) node = Some (h', t)
    ∧ h' !! node = Some (set_up None n)
    ∧ h' !! parent = Some (set_children (sisters ++ children n) pn)
    ∧ (∀ c, c ∈ children n →
         ∃ cn, h !! c = Some cn ∧ h' !! c = Some (set_up (Some parent) cn))
    ∧ (∀ y, y ≠ node → y ≠ parent → y ∉ children n → h' !! y = h !! y).
Proof.
  intros Hwf Hnode Hnup Hparent Hsis Hlen.
  assert (sisters = filter (λ ch, ch ≠ node) (children pn)) as Esis.
  { unfold get_sisters in Hsis. rewrite Hnode in Hsis. simpl in Hsis.
    rewrite Hnup, Hparent in Hsis. simpl in Hsis. by injection Hsis as <-. }
  destruct (node_in_parent h depth node parent n pn Hwf Hnode Hnup Hparent)
    as [Hin Hlevel].
  assert (node ≠ parent) as Hnp by (intros ->; lia).
  assert (∀ c, c ∈ children n → depth c = S (depth node)) as Hkids.
  { intros c Hc.
    by destruct (node_children h depth node n Hwf Hnode c Hc) as (? & _ & _ & ?). }
  destruct (delete_unlink_store h node n parent pn sisters)
    as (h' & Hrun & Hn' & Hp' & Hc' & Hother); try done.
  { intros Hc. apply Hkids in Hc. lia. }
  { intros Hc. apply Hkids in Hc. lia. }
  { by eapply wf_NoDup. }
  { intros c Hc.
    destruct (node_children h depth node n Hwf Hnode c Hc) as (cn & -> & _).
    by eexists. }
  { rewrite Esis. apply list_remove_filter; [by eapply wf_NoDup|done]. }
  exists h'. split; [|done].
  unfold node_body. simpl. rewrite Hnode. simpl. rewrite Hnup, Hsis. simpl.
  assert (delete h node true = Some h') as Hdel.
  { unfold delete. rewrite Hrun. simpl. rewrite Hp'. simpl.
    rewrite length_app.
    destruct (Nat.ltb_spec (length sisters + length (children n)) 2);
      [lia|done]. }
  destruct sisters as [|s1 [|s2 ss]]; simpl in Hlen; [lia|lia|].
  simpl. by rewrite Hdel.
Qed.

Lemma prune_among_siblings_witness :
  ∃ h', node_body (trifurcation_store, 0%nat) 2%nat = Some (h', 0%nat)
        ∧ (children <$> h' !! 0%nat) = Some [1; 3]%nat.
Proof.
  destruct (prune_among_siblings trifurcation_store trifurcation_depth
              0%nat 2%nat 0%nat
              (obj "B" 2 (Some 0%nat) [])
              (obj "root" 0 None [1; 2; 3]%nat) [1; 3]%nat)
    as (h' & Hrun & _ & Hp & _).
  - apply (@bool_decide_eq_true_1 _
             (wf_store_dec trifurcation_store trifurcation_depth)).
    vm_compute. reflexivity.
  - reflexivity.
  - reflexivity.
  - reflexivity.
  - reflexivity.
  - simpl. lia.
  - exists h'. split; [exact Hrun|].
    exact (f_equal (fmap children) Hp).
Defined.

End PruneAmongSiblings.

(** ** Pruning: the sole sibling below the root *)
Section PruneNewRoot.
Import Ete3Obj PruneTreeNodes.

Variables (h : gmap ref TreeNode) (depth : ref → nat).
Variables (node parent sibling : ref) (n pn sn : TreeNode).
Hypothesis Hwf : wf_store h depth.
Hypothesis Hnode : h !! node = Some n.
Hypothesis Hnup : up n = Some parent.
Hypothesis Hparent : h !! parent = Some pn.
Hypothesis Hpup : up pn = None.
Hypothesis Hsis : get_sisters h node = Some [sibling].
Hypothesis Hsibling : h !! sibling = Some sn.

(** The levels of the nodes at hand. *)
Lemma root_levels :
  depth node = S (depth parent) ∧ depth sibling = S (depth parent)
  ∧ ∀ c, c ∈ children n → depth c = S (S (depth parent)).
Proof.
  destruct (node_in_parent h depth node parent n pn) as [_ Hn]; try done.
  destruct (sibling_up h depth node parent sibling n pn sn) as [_ Hs];
    try done.
  repeat split; try done. intros c Hc.
  destruct (node_children h depth node n Hwf Hnode c Hc) as (? & _ & _ & ->).
  lia.
Qed.

(** What is below the sibling is away from the nodes that the step
    changes. *)
Lemma below_sibling l :
  reach h sibling l → l ≠ node ∧ l ≠ parent ∧ l ∉ children n.
Proof.
  intros Hreach. destruct root_levels as (Hn & Hs & Hc).
  pose proof (sibling_ne_node h node parent sibling n pn
                Hnode Hnup Hparent Hsis) as Hne.
  pose proof (reach_depth h depth sibling l Hwf Hreach) as Hd.
  split; [|split].
  - intros ->. destruct Hd as [?|?]; [done|lia].
  - intros ->. destruct Hd as [E|?]; [rewrite E in Hs; lia|lia].
  - intros Hin.
    destruct (node_children h depth node n Hwf Hnode l Hin)
      as (ln & Hl & Hlup & _).
    inversion Hreach as [Heq|y yn z Hy Hyn Hz Heq].
    + subst l. apply Hc in Hin. lia.
    + subst z. destruct (wf_child h depth y yn l Hwf Hyn Hz) as (ln' & Hl' & Hup').
      rewrite Hl in Hl'. injection Hl' as <-. rewrite Hlup in Hup'.
      injection Hup' as <-.
      pose proof (reach_depth h depth sibling node Hwf Hy) as [?|?];
        [done|lia].
Qed.

(** The run of the body, and the store that it leaves. *)
Lemma new_root_run t :
  ∃ h', node_body (h, t) node = Some (h', sibling)
        ∧ h' !! sibling = Some (set_up None sn)
        ∧ ∀ y, y ≠ sibling → y ≠ node → y ≠ parent → y ∉ children n →
               h' !! y = h !! y.
Proof.
  destruct root_levels as (Hn & Hs & Hc).
  pose proof (sibling_ne_node h node parent sibling n pn
                Hnode Hnup Hparent Hsis) as Hne.
  assert (sibling ≠ parent) as Hsp by (intros E; rewrite E in Hs; lia).
  assert (node ≠ parent) as Hnp by (intros E; rewrite E in Hn; lia).
  destruct (sibling_up h depth node parent sibling n pn sn) as [Hsup _];
    try done.
  pose proof (remove_sibling h depth node parent sibling n pn
                Hwf Hnode Hnup Hparent Hsis) as Hrem.
  pose proof (detach_store h sibling sn parent pn [node]
                Hsibling Hsup Hparent Hsp Hrem) as Hdet.
  set (h1 := <[sibling:=set_up None sn]>
               (<[parent:=set_children [node] pn]> h)) in *.
  assert (h1 !! node = Some n) as Hnode1.
  { unfold h1. rewrite lookup_insert_ne by done.
    by rewrite lookup_insert_ne by done. }
  assert (h1 !! parent = Some (set_children [node] pn)) as Hparent1.
  { unfold h1. rewrite lookup_insert_ne by done.
    by rewrite lookup_insert_eq. }
  assert (∀ c, c ∈ children n → h1 !! c = h !! c) as Hkid1.
  { intros c Hin. pose proof (Hc c Hin). unfold h1.
    rewrite lookup_insert_ne by (intros E; rewrite E in Hs; lia).
    by rewrite lookup_insert_ne by (intros E; rewrite <- E in *; lia). }
  destruct (delete_unlink_store h1 node n parent (set_children [node] pn) [])
    as (h2 & Hrun & Hn2 & Hp2 & Hc2 & Hother); try done.
  { intros Hin. apply Hc in Hin. lia. }
  { intros Hin. apply Hc in Hin. lia. }
  { by eapply wf_NoDup. }
  { intros c Hin. rewrite Hkid1 by done.
    destruct (node_children h depth node n Hwf Hnode c Hin) as (cn & -> & _).
    by eexists. }
  { simpl. by rewrite bool_decide_eq_true_2. }
  assert (delete h1 node true = Some h2) as Hdel.
  { unfold delete. rewrite Hrun. simpl. rewrite Hp2. simpl.
    destruct (length (children n) <? 2)%nat; [|done].
    unfold delete_unlink. rewrite Hp2. simpl. by rewrite Hpup. }
  exists h2. split; [|split].
  - unfold node_body. simpl. rewrite Hnode. simpl. rewrite Hnup, Hsis. simpl.
    rewrite Hparent. simpl. rewrite Hpup, Hdet. simpl. by rewrite Hdel.
  - rewrite Hother; [|done|done|].
    + unfold h1. by rewrite lookup_insert_eq.
    + intros Hin. apply Hc in Hin. lia.
  - intros y Hys Hyn Hyp Hyc. rewrite Hother by done.
    unfold h1. rewrite lookup_insert_ne by done.
    by rewrite lookup_insert_ne by done.
Qed.

End PruneNewRoot.

Section PruneNewRootResult.
Import Ete3Obj PruneTreeNodes.

(** In a store that holds trees, let the removed node have exactly one
    sibling and a parent without a parent, the root.  The body of the loop
    ends without an exception, and the variable [t] is the sibling from
    then on.  The sibling has no parent any more and keeps its name, its
    branch length and its children; the tree below it is what it was.  The
    removed node, the former root and the children of the removed node,
    which [delete] has handed to the former root, are not in the tree any
    more. *)
Theorem prune_new_root (h : gmap ref TreeNode) (depth : ref → nat)
    (t node parent sibling : ref) (n pn sn : TreeNode) :
  wf_store h depth →
  h !! node = Some n → up n = Some parent →
  h !! parent = Some pn → up pn = None →
  get_sisters h node = Some [sibling] → h !! sibling = Some sn →
  ∃ h',
    node_body (h, t) node = Some (h', sibling)
    ∧ h' !! sibling = Some (set_up None sn)
    ∧ (∀ l, reach h sibling l → l ≠ sibling → h' !! l = h !! l)
    ∧ (∀ l, reach h' sibling l ↔ reach h sibling l)
    ∧ ¬ reach h' sibling node
    ∧ ¬ reach h' sibling parent
    ∧ (∀ c, c ∈ children n → ¬ reach h' sibling c).
Proof.
  intros Hwf Hnode Hnup Hparent Hpup Hsis Hsibling.
  pose proof (below_sibling h depth node parent sibling n pn sn
                Hwf Hnode Hnup Hparent Hsis Hsibling) as Hbelow.
  destruct (new_root_run h depth node parent sibling n pn sn
              Hwf Hnode Hnup Hparent Hpup Hsis Hsibling t)
    as (h' & Hrun & Hs' & Hother).
  assert (∀ l, reach h sibling l → l ≠ sibling → h' !! l = h !! l) as Hsame.
  { intros l Hl Hne. destruct (Hbelow l Hl) as (? & ? & ?).
    by apply Hother. }
  assert (∀ l, reach h sibling l →
               children <$> h' !! l = children <$> h !! l) as Hkids.
  { intros l Hl. destruct (decide (l = sibling)) as [->|Hne].
    - by rewrite Hs', Hsibling.
    - by rewrite Hsame. }
  assert (∀ l, reach h' sibling l ↔ reach h sibling l) as Hreach.
  { intros l. split.
    - induction 1 as [|y yn z _ IH Hy Hz]; [constructor|].
      pose proof (Hkids y IH) as E. rewrite Hy in E. simpl in E.
      destruct (h !! y) as [yn0|] eqn:Ey; [|done].
      injection E as E. eapply reach_step; [exact IH|exact Ey|].
      by rewrite <- E.
    - induction 1 as [|y yn z Hy IH Hyn Hz]; [constructor|].
      pose proof (Hkids y Hy) as E. rewrite Hyn in E. simpl in E.
      destruct (h' !! y) as [yn0|] eqn:Ey; [|done].
      injection E as E. eapply reach_step; [exact IH|exact Ey|].
      by rewrite E. }
  exists h'. repeat split; try done.
  - by apply Hreach.
  - by apply Hreach.
  - intros Hr. apply Hreach, Hbelow in Hr. by destruct Hr as (? & _).
  - intros Hr. apply Hreach, Hbelow in Hr. by destruct Hr as (_ & ? & _).
  - intros c Hc Hr. apply Hreach, Hbelow in Hr. by destruct Hr as (_ & _ & ?).
Qed.

Lemma prune_new_root_witness :
  ∃ h', node_body (cherry_store, 0%nat) 1%nat = Some (h', 4%nat)
        ∧ ¬ reach h' 4%nat 2%nat.
Proof.
  destruct (prune_new_root cherry_store cherry_depth
              0%nat 1%nat 0%nat 4%nat
              (obj "A" 3 (Some 0%nat) [2; 3]%nat)
              (obj "root" 0 None [1; 4]%nat)
              (obj "B" 4 (Some 0%nat) []))
    as (h' & Hrun & _ & _ & _ & _ & _ & Hkids).
  - apply (@bool_decide_eq_true_1 _ (wf_store_dec cherry_store cherry_depth)).
    vm_compute. reflexivity.
  - reflexivity.
  - reflexivity.
  - reflexivity.
  - reflexivity.
  - reflexivity.
  - reflexivity.
  - exists h'. split; [exact Hrun|]. apply Hkids. apply list_elem_of_here.
Defined.

End PruneNewRootResult.

(** ** Reading the trees of a file *)
Section NwkFileFacts.

Lemma chars_inj s1 s2 : chars s1 = chars s2 → s1 = s2.
Proof.
  intros H. rewrite <- (string_of_list_ascii_of_string s1),
              <- (string_of_list_ascii_of_string s2).
  unfold chars in H. by rewrite H.
Qed.

Lemma chars_app s1 s2 : chars (s1 ++ s2)%string = chars s1 ++ chars s2.
Proof. induction s1 as [|c s1 IH]; [done|]. simpl. by rewrite IH. Qed.

Lemma chars_lstrip s : chars (PyStr.lstrip s) = drop_space (chars s).
Proof.
  induction s as [|c s IH]; [done|]. simpl. by destruct (Re.space c).
Qed.

Lemma chars_rev_string s : chars (PyStr.rev_string s) = rev (chars s).
Proof. unfold PyStr.rev_string, chars. by rewrite list_ascii_of_string_of_list_ascii. Qed.

Lemma chars_strip s : chars (PyStr.strip s) = strip_list (chars s).
Proof.
  unfold PyStr.strip, strip_list.
  by rewrite chars_rev_string, chars_lstrip, chars_rev_string, chars_lstrip.
Qed.

Lemma drop_space_starts l : starts_clean (drop_space l).
Proof.
  induction l as [|c l IH]; [done|]. simpl.
  destruct (Re.space c) eqn:E; [done|]. exact E.
Qed.

Lemma drop_space_clean l : starts_clean l → drop_space l = l.
Proof. destruct l as [|c l]; [done|]. simpl. by intros ->. Qed.

(** Leading white space goes, and nothing else. *)
Lemma drop_space_split l :
  ∃ a, l = a ++ drop_space l ∧ Forall is_space a.
Proof.
  induction l as [|c l (a & E & Ha)]; [by exists []|]. simpl.
  destruct (Re.space c) eqn:Ec.
  - exists (c :: a). split; [by rewrite <- app_comm_cons, <- E|by constructor].
  - by exists [].
Qed.

Lemma drop_space_nil l :
  drop_space l = [] ↔ Forall is_space l.
Proof.
  induction l as [|c l IH]; [done|]. simpl.
  destruct (Re.space c) eqn:Ec.
  - rewrite IH. split; [by constructor|]. by inversion 1.
  - split; [done|]. inversion 1. congruence.
Qed.

(** A text that ends with a character that is no white space keeps it. *)
Lemma drop_space_snoc l c :
  Re.space c = false → ∃ y, drop_space (l ++ [c]) = y ++ [c].
Proof.
  intros Hc. induction l as [|x l (y & IH)]; simpl.
  - rewrite Hc. by exists [].
  - destruct (Re.space x); [by exists y|]. by exists (x :: l).
Qed.

Lemma strip_list_starts l : starts_clean (strip_list l).
Proof.
  unfold strip_list. pose proof (drop_space_starts l) as H.
  destruct (drop_space l) as [|c l'] eqn:E; [done|]. simpl in H.
  simpl. destruct (drop_space_snoc (rev l') c H) as (y & ->).
  rewrite rev_app_distr. simpl. done.
Qed.

Lemma strip_list_ends l : starts_clean (rev (strip_list l)).
Proof.
  unfold strip_list. rewrite rev_involutive. apply drop_space_starts.
Qed.

Lemma strip_list_clean l :
  starts_clean l → starts_clean (rev l) → strip_list l = l.
Proof.
  intros H1 H2. unfold strip_list.
  by rewrite (drop_space_clean l), (drop_space_clean (rev l)), rev_involutive.
Qed.

Lemma strip_list_idemp l : strip_list (strip_list l) = strip_list l.
Proof.
  apply strip_list_clean; [apply strip_list_starts|apply strip_list_ends].
Qed.

Lemma strip_idemp s : PyStr.strip (PyStr.strip s) = PyStr.strip s.
Proof.
  apply chars_inj. rewrite !chars_strip. apply strip_list_idemp.
Qed.

Lemma strip_list_nil l :
  strip_list l = [] ↔ Forall is_space l.
Proof.
  rewrite <- drop_space_nil. unfold strip_list. split.
  - intros H. pose proof (drop_space_starts l) as Hs.
    destruct (drop_space l) as [|c l'] eqn:E; [done|]. simpl in *.
    destruct (drop_space_snoc (rev l') c Hs) as (y & Ey).
    rewrite Ey, rev_app_distr in H. done.
  - by intros ->.
Qed.

(** What [strip] takes away is white space at the two ends. *)
Lemma strip_list_split l :
  ∃ a b, l = a ++ strip_list l ++ b
         ∧ Forall is_space a
         ∧ Forall is_space b.
Proof.
  destruct (drop_space_split l) as (a & Ea & Ha).
  destruct (drop_space_split (rev (drop_space l))) as (b & Eb & Hb).
  exists a, (rev b). split; [|split; [done|]].
  - unfold strip_list. rewrite <- rev_app_distr, <- Eb, rev_involutive. done.
  - apply Forall_forall. intros c Hc. apply list_elem_of_In, in_rev in Hc.
    rewrite Forall_forall in Hb. apply Hb. by apply list_elem_of_In.
Qed.

Lemma strip_empty_iff s :
  PyStr.strip s = "" ↔ Forall is_space (chars s).
Proof.
  rewrite <- strip_list_nil, <- chars_strip. split.
  - by intros ->.
  - intros H. by apply chars_inj.
Qed.

End NwkFileFacts.

Section NwkFileSplit.
Import NwkFile.

Lemma split_cons s sep : ∃ x xs, split s sep = x :: xs.
Proof.
  induction s as [|a s (x & xs & IH)]; simpl; [by eexists _, _|].
  destruct (bool_decide (a = sep)); [by eexists _, _|].
  rewrite IH. by eexists _, _.
Qed.

(** No piece holds the separator. *)
Lemma split_no_sep s sep x : x ∈ split s sep → sep ∉ chars x.
Proof.
  revert x. induction s as [|a s IH]; intros x; simpl.
  - intros ->%list_elem_of_singleton. apply not_elem_of_nil.
  - destruct (bool_decide (a = sep)) eqn:Ea.
    + intros [->|Hx]%elem_of_cons; [apply not_elem_of_nil|by apply IH].
    + apply bool_decide_eq_false_1 in Ea.
      destruct (split_cons s sep) as (y & ys & E). rewrite E in *.
      intros [->|Hx]%elem_of_cons.
      * simpl. apply not_elem_of_cons. split; [done|].
        apply IH. apply list_elem_of_here.
      * apply IH. by apply list_elem_of_further.
Qed.

(** A separator at the end adds one empty piece. *)
Lemma split_snoc s sep :
  split (s ++ String sep "") sep = split s sep ++ [""].
Proof.
  induction s as [|a s IH]; simpl.
  - by rewrite bool_decide_eq_true_2.
  - destruct (bool_decide (a = sep)); [by rewrite IH|].
    rewrite IH. by destruct (split_cons s sep) as (y & ys & ->).
Qed.

(** The first piece ends at the first separator. *)
Lemma split_first b sep rest :
  sep ∉ chars b →
  split (b ++ String sep rest) sep = b :: split rest sep.
Proof.
  induction b as [|a b IH]; simpl; intros Hb.
  - by rewrite bool_decide_eq_true_2.
  - apply not_elem_of_cons in Hb as [Ha Hb].
    rewrite bool_decide_eq_false_2 by done. by rewrite IH.
Qed.

Lemma split_without s sep : sep ∉ chars s → split s sep = [s].
Proof.
  induction s as [|a s IH]; simpl; intros Hs; [done|].
  apply not_elem_of_cons in Hs as [Ha Hs].
  rewrite bool_decide_eq_false_2 by done. by rewrite IH.
Qed.

Lemma space_not_semicolon l : Forall is_space l → semicolon ∉ l.
Proof.
  intros H Hin. rewrite Forall_forall in H. by apply H in Hin.
Qed.

(** The pieces are white space exactly when the text is white space and
    semicolons. *)
Lemma split_blank s :
  Forall (λ x, Forall is_space (chars x)) (split s semicolon)
  ↔ Forall blank_char (chars s).
Proof.
  induction s as [|a s IH]; simpl.
  - split; intros _; repeat constructor.
  - destruct (bool_decide (a = semicolon)) eqn:Ea.
    + apply bool_decide_eq_true_1 in Ea as ->. split.
      * intros H. apply Forall_cons in H as [_ H].
        constructor; [by right|by apply IH].
      * intros H. apply Forall_cons in H as [_ H].
        constructor; [constructor|by apply IH].
    + apply bool_decide_eq_false_1 in Ea.
      destruct (split_cons s semicolon) as (y & ys & E). rewrite E in *.
      split.
      * intros H. apply Forall_cons in H as [Hy H]. simpl in Hy.
        apply Forall_cons in Hy as [Ha Hy].
        constructor; [by left|]. apply IH. by constructor.
      * intros H. apply Forall_cons in H as [[Ha|Ha] H]; [|done].
        apply IH in H. apply Forall_cons in H as [Hy H].
        constructor; [by constructor|done].
Qed.

(** Appending the semicolon that a text lacks changes nothing: the piece
    that it adds is empty, and goes. *)
Lemma trees_unfold text :
  trees text
  = map (λ x, (PyStr.strip x ++ ";")%string)
        (filter (λ x, PyStr.strip x ≠ "") (split (PyStr.strip text) ";")).
Proof.
  unfold trees. destruct (endswith (PyStr.strip text) ";"); [done|].
  rewrite split_snoc, filter_app.
  rewrite (filter_cons_False _ "") by (intros H; by apply H).
  by rewrite app_nil_r.
Qed.

(** Every text that the loop over the trees is given is a body closed by
    one semicolon: the body is not empty, holds no semicolon and has no
    white space at its ends. *)
Theorem trees_statements (text s : string) :
  s ∈ trees text → ∃ body, s = (body ++ ";")%string ∧ clean_body body.
Proof.
  rewrite trees_unfold. intros Hs.
  apply list_elem_of_In, in_map_iff in Hs as (x & <- & Hx).
  apply list_elem_of_In in Hx.
  apply (list_elem_of_filter (λ x, PyStr.strip x ≠ "")) in Hx as [Hne Hx].
  exists (PyStr.strip x). split; [done|]. split; [done|]. split.
  - intros Hin. apply (split_no_sep _ _ _ Hx).
    by apply strip_chars.
  - apply strip_idemp.
Qed.

(** A file gives no tree exactly when it holds nothing but white space
    and semicolons. *)
Lemma trees_statements_witness :
  ∃ body, "(e,f);" = (body ++ ";")%string ∧ clean_body body.
Proof.
  apply (trees_statements ("(a,b); ;" ++ newline ++ " (e,f)  ") "(e,f);").
  vm_compute. apply list_elem_of_further, list_elem_of_here.
Defined.

Theorem trees_none_iff (text : string) :
  trees text = [] ↔ Forall blank_char (chars text).
Proof.
  rewrite trees_unfold.
  assert (Forall blank_char (chars text)
          ↔ Forall blank_char (chars (PyStr.strip text))) as ->.
  { rewrite chars_strip.
    destruct (strip_list_split (chars text)) as (a & b & E & Ha & Hb).
    assert (∀ l, Forall is_space l → Forall blank_char l) as Hsp.
    { intros l Hl. eapply Forall_impl; [exact Hl|]. by left. }
    split.
    - intros H. rewrite E in H.
      apply Forall_app in H as [_ H]. by apply Forall_app in H as [H _].
    - intros H. rewrite E. apply Forall_app. split; [by apply Hsp|].
      apply Forall_app. split; [done|by apply Hsp]. }
  rewrite <- split_blank.
  unfold semicolon. generalize (split (PyStr.strip text) ";"). intros l.
  induction l as [|x l IH]; [done|].
  destruct (decide (PyStr.strip x = "")) as [Hx|Hx].
  - rewrite filter_cons_False by (intros H; by apply H).
    rewrite IH. split.
    + intros H. constructor; [by apply strip_empty_iff|done].
    + by intros [_ H]%Forall_cons.
  - rewrite filter_cons_True by done. split; [done|].
    intros [H _]%Forall_cons. by apply strip_empty_iff in H.
Qed.

Lemma drop_space_pre a l : Forall is_space a → drop_space (a ++ l) = drop_space l.
Proof.
  induction 1 as [|c a Hc _ IH]; [done|]. simpl.
  unfold is_space in Hc. by rewrite Hc.
Qed.

(** White space around a text that has none at its ends is what [strip]
    takes away. *)
Lemma strip_list_pad a t b :
  Forall is_space a → Forall is_space b →
  t ≠ [] → starts_clean t → starts_clean (rev t) →
  strip_list (a ++ t ++ b) = t.
Proof.
  intros Ha Hb Hne Hs He. unfold strip_list.
  rewrite drop_space_pre by done.
  rewrite (drop_space_clean (t ++ b)) by (by destruct t).
  rewrite rev_app_distr, drop_space_pre.
  - by rewrite drop_space_clean, rev_involutive.
  - apply Forall_forall. intros c Hc. apply list_elem_of_In, in_rev in Hc.
    rewrite Forall_forall in Hb. apply Hb. by apply list_elem_of_In.
Qed.

Lemma clean_body_chars b :
  clean_body b →
  chars b ≠ [] ∧ starts_clean (chars b) ∧ starts_clean (rev (chars b)).
Proof.
  intros (Hne & _ & Hstrip). split; [|split].
  - destruct b; [done|discriminate].
  - rewrite <- Hstrip, chars_strip. apply strip_list_starts.
  - rewrite <- Hstrip, chars_strip. apply strip_list_ends.
Qed.

Lemma strip_spaced ws b :
  Forall is_space (chars ws) → clean_body b →
  PyStr.strip (ws ++ b)%string = b.
Proof.
  intros Hws Hb. destruct (clean_body_chars b Hb) as (Hne & Hs & He).
  apply chars_inj. rewrite chars_strip, chars_app.
  rewrite <- (app_nil_r (chars b)) at 1.
  by apply strip_list_pad.
Qed.

(** A text of statements ends with a semicolon. *)
Lemma spaced_text_last items :
  ∃ y, semicolon :: chars (spaced_text items) = y ++ [semicolon].
Proof.
  induction items as [|it items (y & IH)]; [by exists []|].
  simpl. rewrite !chars_app. simpl.
  change (list_ascii_of_string (spaced_text items))
    with (chars (spaced_text items)).
  rewrite IH. exists (semicolon :: chars it.1 ++ chars it.2 ++ y).
  simpl. by rewrite <- !app_assoc.
Qed.

Lemma text_app_assoc (s1 s2 s3 : string) :
  ((s1 ++ s2) ++ s3 = s1 ++ (s2 ++ s3))%string.
Proof. apply chars_inj. rewrite !chars_app. by rewrite app_assoc. Qed.

Lemma split_spaced items :
  Forall (λ it, Forall is_space (chars it.1) ∧ clean_body it.2) items →
  split (spaced_text items) semicolon
  = map (λ it, (it.1 ++ it.2)%string) items ++ [""].
Proof.
  induction 1 as [|it items [Hws (_ & Hsemi & _)] _ IH]; [done|].
  simpl. rewrite <- IH.
  rewrite <- (split_first (it.1 ++ it.2) semicolon (spaced_text items)).
  - by rewrite text_app_assoc.
  - rewrite chars_app. intros [H|H]%elem_of_app; [|done].
    by apply space_not_semicolon in H.
Qed.

Lemma keep_spaced items :
  Forall (λ it, Forall is_space (chars it.1) ∧ clean_body it.2) items →
  map (λ x, (PyStr.strip x ++ ";")%string)
      (filter (λ x, PyStr.strip x ≠ "")
              (map (λ it, (it.1 ++ it.2)%string) items ++ [""]))
  = map (λ it, (it.2 ++ ";")%string) items.
Proof.
  induction 1 as [|it items [Hws Hb] _ IH].
  - reflexivity.
  - cbn [map app]. pose proof (strip_spaced _ _ Hws Hb) as E.
    rewrite filter_cons_True by (rewrite E; by destruct Hb).
    cbn [map]. by rewrite E, IH.
Qed.

(** A file of statements, each after some white space (a line break, as
    a rule, or nothing) and closed by a semicolon, with white space at the
    end of the file or none, is read as these statements, in their
    order. *)
Theorem trees_round_trip (items : list (string * string)) (ws : string) :
  Forall (λ it, Forall is_space (chars it.1) ∧ clean_body it.2) items →
  Forall is_space (chars ws) →
  trees (spaced_text items ++ ws) = map (λ it, (it.2 ++ ";")%string) items.
Proof.
  intros Hitems Hws. rewrite trees_unfold.
  destruct items as [|it items].
  - change (spaced_text [] ++ ws)%string with ws.
    apply strip_empty_iff in Hws. by rewrite Hws.
  - pose proof Hitems as Hall.
    apply Forall_cons in Hitems as [[Hsp Hb] Hitems].
    destruct (clean_body_chars _ Hb) as (Hne & Hs & He).
    destruct (spaced_text_last items) as (y & Ey).
    assert (PyStr.strip (spaced_text (it :: items) ++ ws)
            = (it.2 ++ String semicolon (spaced_text items))%string) as ->.
    { apply chars_inj. rewrite chars_strip. simpl.
      rewrite !chars_app. simpl.
      change (list_ascii_of_string (spaced_text items))
        with (chars (spaced_text items)).
      rewrite <- !app_assoc.
      rewrite (app_assoc (chars it.2)).
      apply strip_list_pad; try done.
      - by destruct (chars it.2).
      - by destruct (chars it.2).
      - rewrite Ey, app_assoc, rev_app_distr. done. }
    rewrite (split_first it.2 semicolon) by (by destruct Hb as (_ & ? & _)).
    rewrite split_spaced by done.
    assert (PyStr.strip it.2 = it.2) as E by (by destruct Hb as (_ & _ & ?)).
    cbn [map app].
    rewrite filter_cons_True by (rewrite E; by destruct Hb).
    cbn [map]. rewrite E. f_equal. by apply keep_spaced.
Qed.

Lemma trees_round_trip_witness :
  trees ("(a,b);" ++ newline ++ "(c,d);" ++ newline)
  = ["(a,b);"; "(c,d);"].
Proof.
  apply (trees_round_trip [("", "(a,b)"); (newline, "(c,d)")] newline).
  - repeat constructor; try discriminate; simpl;
      intros Hin;
      repeat (apply elem_of_cons in Hin as [Hin|Hin]; [discriminate|]);
      by apply not_elem_of_nil in Hin.
  - repeat constructor.
Defined.

End NwkFileSplit.
